(** * scripts/generate_site.py: the response parser and the file writer

    A shallow embedding of [parse_response] and [write_files] of
    [scripts/generate_site.py], with the parts of Python's [str], [re],
    [os.path] and [os] that the two functions call, and of the last
    statements of [main], which calls the two.

    - A Python [str] is a sequence of code points: [pystr := list N].
    - [re] is a backtracking matcher over the operators the five patterns of
      the script use, with the priorities of Python's engine (greedy and lazy
      repetition, ordered alternation); [re.split], [re.sub] and
      [re.finditer] are derived from one left-to-right scanner.  None of the
      five patterns can match the empty string.
    - A [dict] is an association list in insertion order.
    - Exceptions are values: [IndexError] for a subscript out of range, and
      the [OSError]s of the file system.
    - The file system is a finite map from absolute locations (the names from
      the root down) to nodes; [os.makedirs] and [open(_, "w")] either update
      it or raise.  Symbolic links, permissions, quotas and encoding errors
      are not part of the model, nor are the names that the system refuses
      (a NUL character, a component that is too long): the model has the
      four [OSError]s of a tree of directories and regular files, and a
      write that has opened its file succeeds.  Statements that say that a
      file is written carry the conditions under which the system takes the
      name and UTF-8 encodes the content.  What the script prints is
      returned as a list of events.
    - [os.path] is [posixpath]. *)

From Stdlib Require Import Ascii String.
From stdpp Require Import base numbers option list gmap.

Set Default Proof Using "Type".
Local Open Scope N_scope.

(** ** Python strings *)

Abbreviation char := N (only parsing).
Abbreviation pystr := (list N) (only parsing).

(** A string literal of the source, code point by code point (ASCII only). *)
Definition py (s : string) : pystr :=
  map N_of_ascii (list_ascii_of_string s).

(** [Py_UNICODE_ISSPACE]: what [str.strip()] removes and what [\s] matches in
    a [str] pattern. *)
Definition isspace (c : char) : bool :=
  ((9 <=? c) && (c <=? 13)) || ((28 <=? c) && (c <=? 32))
  || (c =? 133) || (c =? 160) || (c =? 5760)
  || ((8192 <=? c) && (c <=? 8202))
  || (c =? 8232) || (c =? 8233) || (c =? 8239) || (c =? 8287) || (c =? 12288).

Definition NL : char := 10.       (* "\n" *)
Definition EQ : char := 61.       (* "=" *)
Definition SLASH : char := 47.    (* "/" *)
Definition DOT : char := 46.      (* "." *)
Definition TICK : char := 96.     (* "`" *)
Definition HASH : char := 35.     (* "#" *)

Fixpoint drop_while (p : char -> bool) (s : pystr) : pystr :=
  match s with
  | c :: s' => if p c then drop_while p s' else s
  | [] => []
  end.

Definition lstrip (s : pystr) : pystr := drop_while isspace s.

Definition rstrip (s : pystr) : pystr := rev (lstrip (rev s)).

Definition strip (s : pystr) : pystr := rstrip (lstrip s).

Fixpoint startswith (s prefix : pystr) {struct prefix} : bool :=
  match prefix, s with
  | [], _ => true
  | p :: prefix', c :: s' => (c =? p) && startswith s' prefix'
  | _ :: _, [] => false
  end.

(** [s.split(sep)] for a one-character separator. *)
Fixpoint str_split (sep : char) (s : pystr) : list pystr :=
  match s with
  | [] => [[]]
  | c :: s' =>
      if c =? sep then [] :: str_split sep s'
      else match str_split sep s' with
           | w :: ws => (c :: w) :: ws
           | [] => [[c]]
           end
  end.

(** [sep.join(l)]. *)
Fixpoint join (sep : pystr) (l : list pystr) : pystr :=
  match l with
  | [] => []
  | [w] => w
  | w :: ws => w ++ sep ++ join sep ws
  end.

Definition pystr_eqb (a b : pystr) : bool := bool_decide (a = b).

(** ** Exceptions *)

Inductive exn : Type :=
| IndexError
| FileNotFoundError
| NotADirectoryError
| IsADirectoryError
| FileExistsError.

Inductive result (A : Type) : Type :=
| Ok (a : A)
| Raise (e : exn).
Arguments Ok {A} a.
Arguments Raise {A} e.

Definition bind {A B} (m : result A) (k : A -> result B) : result B :=
  match m with
  | Ok a => k a
  | Raise e => Raise e
  end.

Notation "'let*' x := m 'in' k" := (bind m (fun x => k))
  (at level 10, x pattern, m at level 100, k at level 200).

(** [l[i]] *)
Definition getitem {A} (l : list A) (i : nat) : result A :=
  match l !! i with
  | Some x => Ok x
  | None => Raise IndexError
  end.

(** [range(start, stop, step)] for [step >= 1]. *)
Definition py_range (start stop step : nat) : list nat :=
  map (fun k => (start + k * step)%nat)
      (seq 0 ((stop - start + step - 1) / step)%nat).

(** ** Dictionaries (insertion ordered) *)

Abbreviation dict := (list (list N * list N)) (only parsing).

(** [d[k] = v]: an existing key keeps its place, a new one goes last. *)
Fixpoint dict_set (k v : pystr) (d : dict) : dict :=
  match d with
  | [] => [(k, v)]
  | (k', v') :: d' =>
      if pystr_eqb k' k then (k', v) :: d' else (k', v') :: dict_set k v d'
  end.

(** ** Regular expressions *)

Module Re.

Inductive regex : Type :=
| Eps                                     (* the empty pattern *)
| Chr (c : char)                          (* a literal character *)
| Cls (p : char -> bool)                  (* a set, a category or [.] *)
| Rep (p : char -> bool) (lo : nat) (hi : option nat) (greedy : bool)
                                          (* [p{lo,hi}], [p*], [p+?] ... *)
| Cat (r1 r2 : regex)
| Alt (r1 r2 : regex)
| Grp (n : nat) (r : regex)               (* capture group number n *)
| Bos                                     (* [^] without MULTILINE *)
| Eos.                                    (* [$] without MULTILINE *)

Declare Scope regex_scope.
Delimit Scope regex_scope with re.
Bind Scope regex_scope with regex.
Infix ">>" := Cat (at level 60, right associativity) : regex_scope.

Fixpoint lit (s : pystr) : regex :=
  match s with
  | [] => Eps
  | c :: s' => Cat (Chr c) (lit s')
  end.

Definition star p := Rep p 0 None true.
Definition star_lazy p := Rep p 0 None false.
Definition plus p := Rep p 1 None true.
Definition opt p := Rep p 0 (Some 1%nat) true.

(** Captures: the most recent binding of a group comes first. *)
Definition caps := list (nat * pystr).

Fixpoint group (n : nat) (c : caps) : pystr :=
  match c with
  | [] => []
  | (m, s) :: c' => if (m =? n)%nat then s else group n c'
  end.

Definition more_allowed (hi : option nat) : bool :=
  match hi with
  | Some O => false
  | _ => true
  end.

Definition dec_hi (hi : option nat) : option nat :=
  match hi with
  | Some n => Some (pred n)
  | None => None
  end.

Section Matcher.
Context {R : Type}.

(** A continuation receives the position reached, the rest of the subject
    and the captures so far; [None] makes the matcher backtrack. *)
Definition cont := nat -> pystr -> caps -> option R.

Definition stop_here (lo : nat) (k : cont) pos s c : option R :=
  match lo with
  | O => k pos s c
  | S _ => None
  end.

Fixpoint rep (p : char -> bool) (greedy : bool) (k : cont)
    (lo : nat) (hi : option nat) (pos : nat) (s : pystr) (c : caps)
    {struct s} : option R :=
  match s with
  | x :: s' =>
      if p x && more_allowed hi then
        if greedy then
          match rep p greedy k (pred lo) (dec_hi hi) (S pos) s' c with
          | Some r => Some r
          | None => stop_here lo k pos s c
          end
        else
          match stop_here lo k pos s c with
          | Some r => Some r
          | None => rep p greedy k (pred lo) (dec_hi hi) (S pos) s' c
          end
      else stop_here lo k pos s c
  | [] => stop_here lo k pos s c
  end.

Fixpoint mt (r : regex) (k : cont) (pos : nat) (s : pystr) (c : caps)
    {struct r} : option R :=
  match r with
  | Eps => k pos s c
  | Chr a =>
      match s with
      | x :: s' => if x =? a then k (S pos) s' c else None
      | [] => None
      end
  | Cls p =>
      match s with
      | x :: s' => if p x then k (S pos) s' c else None
      | [] => None
      end
  | Rep p lo hi greedy => rep p greedy k lo hi pos s c
  | Cat r1 r2 => mt r1 (mt r2 k) pos s c
  | Alt r1 r2 =>
      match mt r1 k pos s c with
      | Some x => Some x
      | None => mt r2 k pos s c
      end
  | Grp n r1 =>
      mt r1 (fun pos' s' c' => k pos' s' ((n, take (pos' - pos) s) :: c'))
         pos s c
  | Bos => if (pos =? 0)%nat then k pos s c else None
  | Eos =>
      match s with
      | [] => k pos s c
      | [x] => if x =? NL then k pos s c else None
      | _ => None
      end
  end.
End Matcher.

(** The match that starts at [pos], where [s] is the subject from [pos] on:
    its length and its groups. *)
Definition match_at (r : regex) (pos : nat) (s : pystr) : option (nat * caps) :=
  mt r (fun pos' _ c => Some ((pos' - pos)%nat, c)) pos s [].

(** The scanner behind [split], [sub] and [finditer]: the non-overlapping
    matches from left to right, each with the text since the previous match,
    and the text after the last one.  [skip] counts the characters of the
    current match still to pass over; [acc] is the pending text, reversed. *)
Fixpoint scan (r : regex) (pos skip : nat) (acc : pystr) (s : pystr)
    : list (pystr * caps) * pystr :=
  match skip with
  | S n =>
      match s with
      | [] => ([], rev acc)
      | _ :: s' => scan r (S pos) n acc s'
      end
  | O =>
      match match_at r pos s with
      | Some (len, c) =>
          match s with
          | [] => ([(rev acc, c)], [])
          | x :: s' =>
              let '(ms, tl) :=
                match len with
                | O => scan r (S pos) 0 [x] s'
                | S n => scan r (S pos) n [] s'
                end in
              ((rev acc, c) :: ms, tl)
          end
      | None =>
          match s with
          | [] => ([], rev acc)
          | x :: s' => scan r (S pos) 0 (x :: acc) s'
          end
      end
  end.

(** [re.split(r, s)] for a pattern with one group. *)
Definition split (r : regex) (s : pystr) : list pystr :=
  let '(ms, tl) := scan r 0 0 [] s in
  flat_map (fun m => [fst m; group 1 (snd m)]) ms ++ [tl].

(** [re.sub(r, repl, s)] for a replacement without group references. *)
Definition sub (r : regex) (repl : pystr) (s : pystr) : pystr :=
  let '(ms, tl) := scan r 0 0 [] s in
  flat_map (fun m => fst m ++ repl) ms ++ tl.

(** [r.finditer(s)], each match as its captures. *)
Definition finditer (r : regex) (s : pystr) : list caps :=
  map snd (fst (scan r 0 0 [] s)).

End Re.

Import Re.
Local Open Scope regex_scope.

(** ** The patterns of [parse_response] *)

Definition in_range (lo hi : string) (c : char) : bool :=
  match py lo, py hi with
  | [a], [b] => (a <=? c) && (c <=? b)
  | _, _ => false
  end.

Definition letter (c : char) : bool :=              (* [a-zA-Z] *)
  in_range "a" "z" c || in_range "A" "Z" c.
Definition lower (c : char) : bool :=               (* [a-z] *)
  in_range "a" "z" c.
Definition fname_char (c : char) : bool :=          (* [a-zA-Z0-9_.\-/] *)
  in_range "a" "z" c || in_range "A" "Z" c || in_range "0" "9" c
  || (c =? 95) || (c =? DOT) || (c =? 45) || (c =? SLASH).
Definition not_space_eq (c : char) : bool :=        (* [^\s=] *)
  negb (isspace c || (c =? EQ)).
Definition not_eq_nl (c : char) : bool :=           (* [^=\n] *)
  negb ((c =? EQ) || (c =? NL)).
Definition any (c : char) : bool := true.           (* [.] under DOTALL *)
Definition only (a : char) (c : char) : bool := c =? a.

(** [===\s*([^\s=][^=\n]*?)\s*===] *)
Definition marker_re : regex :=
  lit (py "===") >> star isspace
  >> Grp 1 (Cls not_space_eq >> star_lazy not_eq_nl)
  >> star isspace >> lit (py "===").

(** [^```[a-zA-Z]*\n?] *)
Definition fence_open_re : regex :=
  Bos >> lit (py "```") >> star letter >> opt (only NL).

(** [\n?```\s*$] *)
Definition fence_close_re : regex :=
  opt (only NL) >> lit (py "```") >> star isspace >> Eos.

(** [([a-zA-Z0-9_.\-/]+\.[a-zA-Z]+)] *)
Definition filename_grp : regex :=
  Grp 1 (plus fname_char >> Chr DOT >> plus letter).

(** [\n```[a-zA-Z]*\n(.*?)```] *)
Definition fenced_block : regex :=
  Chr NL >> lit (py "```") >> star letter >> Chr NL
  >> Grp 2 (star_lazy any) >> lit (py "```").

(** [(?:#{1,4}\s*|`{3}[a-z]*\n)([a-zA-Z0-9_.\-/]+\.[a-zA-Z]+)\n```[a-zA-Z]*\n(.*?)```]
    with DOTALL *)
Definition heading_re : regex :=
  Alt (Rep (only HASH) 1 (Some 4%nat) true >> star isspace)
      (Rep (only TICK) 3 (Some 3%nat) true >> star lower >> Chr NL)
  >> filename_grp >> fenced_block.

(** [\*\*([a-zA-Z0-9_.\-/]+\.[a-zA-Z]+)\*\*\s*\n```[a-zA-Z]*\n(.*?)```]
    with DOTALL *)
Definition bold_re : regex :=
  lit (py "**") >> filename_grp >> lit (py "**") >> star isspace
  >> fenced_block.

(** ** parse_response *)

Inductive event : Type :=
| WarnUnparsed                        (* stderr: WARNING: Could not parse ... *)
| SkipUnsafe (filename : pystr)       (* stderr: SKIP: unsafe path '...' *)
| Written (clean : pystr) (nchars : nat).   (* stdout:   Written: ... *)

(** The body of the loop [for i in range(1, len(parts), 2)]. *)
Definition section_step (parts : list pystr) (i : nat) (files : dict)
    : result dict :=
  let* p := getitem parts i in
  let filename := strip p in
  let* file_content :=
    if (i + 1 <? length parts)%nat
    then (let* q := getitem parts (i + 1) in Ok (strip q))
    else Ok [] in
  let file_content := sub fence_open_re [] file_content in
  let file_content := sub fence_close_re [] (rstrip file_content) in
  match filename, file_content with
  | _ :: _, _ :: _ => Ok (dict_set filename (strip file_content) files)
  | _, _ => Ok files
  end.

Fixpoint section_loop (parts : list pystr) (idx : list nat) (files : dict)
    : result dict :=
  match idx with
  | [] => Ok files
  | i :: idx' =>
      let* files' := section_step parts i files in
      section_loop parts idx' files'
  end.

(** Primary format: the block under [if len(parts) > 1]. *)
Definition parse_sections (content : pystr) (files : dict) : result dict :=
  let parts := split marker_re content in
  if (1 <? length parts)%nat
  then section_loop parts (py_range 1 (length parts) 2) files
  else Ok files.

(** The two [for m in pattern.finditer(content)] loops. *)
Definition parse_blocks (pattern : regex) (content : pystr) (files : dict)
    : dict :=
  foldl (fun fs m => dict_set (strip (group 1 m)) (strip (group 2 m)) fs)
        files (finditer pattern content).

Definition is_empty {A} (l : list A) : bool :=
  match l with [] => true | _ => false end.

Definition parse_response (content : pystr) : result (dict * list event) :=
  let files : dict := [] in
  let* files := parse_sections content files in
  let files := if is_empty files then parse_blocks heading_re content files
               else files in
  let files := if is_empty files then parse_blocks bold_re content files
               else files in
  if is_empty files
  then Ok (dict_set (py "index.html") content files, [WarnUnparsed])
  else Ok (files, []).

(** ** os.path (posixpath) *)

(** One iteration of [for comp in comps] in [normpath]. *)
Definition norm_step (initial_slashes : nat) (new_comps : list pystr)
    (comp : pystr) : list pystr :=
  if pystr_eqb comp [] || pystr_eqb comp (py ".") then new_comps
  else if negb (pystr_eqb comp (py ".."))
          || ((initial_slashes =? 0)%nat && is_empty new_comps)
          || (negb (is_empty new_comps)
              && bool_decide (last new_comps = Some (py "..")))
  then new_comps ++ [comp]
  else if negb (is_empty new_comps) then removelast new_comps
  else new_comps.

Definition normpath (path : pystr) : pystr :=
  if is_empty path then py "." else
  let initial_slashes : nat :=
    if startswith path (py "/") then
      if startswith path (py "//") && negb (startswith path (py "///"))
      then 2%nat else 1%nat
    else 0%nat in
  let comps := str_split SLASH path in
  let new_comps := foldl (norm_step initial_slashes) [] comps in
  let path := join (py "/") new_comps in
  let path := replicate initial_slashes SLASH ++ path in
  if is_empty path then py "." else path.

(** [p.rfind(sep) + 1] *)
Fixpoint after_last (sep : char) (p : pystr) : nat :=
  match p with
  | [] => 0%nat
  | c :: p' =>
      match after_last sep p' with
      | O => if c =? sep then 1%nat else 0%nat
      | S n => S (S n)
      end
  end.

(** [s.rstrip(sep)] for a one-character [sep]. *)
Definition rstrip_chr (sep : char) (s : pystr) : pystr :=
  rev (drop_while (fun c => c =? sep) (rev s)).

Definition dirname (p : pystr) : pystr :=
  let i := after_last SLASH p in
  let head := take i p in
  if negb (is_empty head)
     && negb (pystr_eqb head (replicate (length head) SLASH))
  then rstrip_chr SLASH head
  else head.

(** ** The file system *)

(** An absolute location: the names from the root down. *)
Abbreviation path := (list (list N)) (only parsing).

Inductive node : Type :=
| File (data : pystr)
| Dir.

Record world : Type := World {
  cwd : path;                     (* the working directory: the output root *)
  tree : gmap path node
}.

Definition set_tree (t : gmap path node) (w : world) : world :=
  World (cwd w) t.

(** How the system resolves a path name: from the root when it starts with a
    slash, from the working directory otherwise.  The walk is by name alone:
    the tree has no symbolic links that it could follow. *)
Definition walk (at_ : path) (comp : pystr) : path :=
  if pystr_eqb comp [] || pystr_eqb comp (py ".") then at_
  else if pystr_eqb comp (py "..") then removelast at_
  else at_ ++ [comp].

Definition resolve (cwd : path) (name : pystr) : path :=
  foldl walk (if startswith name (py "/") then [] else cwd)
        (str_split SLASH name).

(** The location [p] lies in the tree below [root] ([root] included). *)
Definition inside (root p : path) : Prop := root `prefix_of` p.

(** [os.makedirs(name, exist_ok=True)], from the root down: a prefix that is
    a directory is passed, a missing one is created, a regular file in the
    way raises.  The working directory is taken to be there: for a relative
    name the walk passes through it like through any other prefix. *)
Fixpoint mkdirs (dir : path) (todo : list pystr) (t : gmap path node)
    : gmap path node * option exn :=
  match todo with
  | [] => (t, None)
  | c :: todo' =>
      let p := dir ++ [c] in
      match t !! p with
      | Some Dir => mkdirs p todo' t
      | Some (File _) =>
          (t, Some (if is_empty todo' then FileExistsError
                    else NotADirectoryError))
      | None =>
          match t !! dir with
          | Some Dir => mkdirs p todo' (<[p := Dir]> t)
          | Some (File _) => (t, Some NotADirectoryError)
          | None => (t, Some FileNotFoundError)
          end
      end
  end.

Definition makedirs (name : pystr) (w : world) : world * option exn :=
  let '(t, e) := mkdirs [] (resolve (cwd w) name) (tree w) in
  (set_tree t w, e).

(** Some directory on the way down to [p] is a regular file. *)
Definition file_on_way (t : gmap path node) (p : path) : bool :=
  existsb (fun j => match t !! take j p with
                    | Some (File _) => true
                    | _ => false
                    end)
          (seq 0 (length p)).

(** [with open(name, "w", encoding="utf-8") as f: f.write(data)]: the file
    is created or truncated and holds [data] afterwards.  The failures are
    those of [open]; [f.write] on the open file is taken to succeed, so the
    two steps appear as one. *)
Definition open_write (name data : pystr) (w : world) : result world :=
  let p := resolve (cwd w) name in
  match tree w !! p with
  | Some Dir => Raise IsADirectoryError
  | _ =>
      match tree w !! removelast p with
      | Some Dir => Ok (set_tree (<[p := File data]> (tree w)) w)
      | Some (File _) => Raise NotADirectoryError
      | None =>
          Raise (if file_on_way (tree w) p then NotADirectoryError
                 else FileNotFoundError)
      end
  end.

(** ** write_files *)

(** The body of [for filename, content in files.items()]: the file system
    after it, what it printed, and [Ok None] for the [continue] of a skipped
    entry, [Ok (Some clean)] for a written one, [Raise e] for an exception
    that leaves the loop. *)
Definition write_entry (filename content : pystr) (w : world)
    : world * list event * result (option pystr) :=
  let clean := normpath filename in
  if startswith clean (py "..") then
    (w, [SkipUnsafe filename], Ok None)
  else
    let parent := dirname clean in
    let '(w1, e) := if is_empty parent then (w, None) else makedirs parent w in
    match e with
    | Some e => (w1, [], Raise e)
    | None =>
        match open_write clean content w1 with
        | Raise e => (w1, [], Raise e)
        | Ok w2 => (w2, [Written clean (length content)], Ok (Some clean))
        end
    end.

Fixpoint write_loop (items : dict) (written : list pystr) (out : list event)
    (w : world) : world * list event * result (list pystr) :=
  match items with
  | [] => (w, out, Ok written)
  | (filename, content) :: rest =>
      let '(w', o, r) := write_entry filename content w in
      match r with
      | Ok (Some clean) => write_loop rest (written ++ [clean]) (out ++ o) w'
      | Ok None => write_loop rest written (out ++ o) w'
      | Raise e => (w', out ++ o, Raise e)
      end
  end.

Definition write_files (files : dict) (w : world)
    : world * list event * result (list pystr) :=
  write_loop files [] [] w.

(** A small site directory: [/srv/site] is the working directory. *)
Definition site : world :=
  World [py "srv"; py "site"]
        (<[ [py "srv"; py "site"] := Dir ]>
           (<[ [py "srv"] := Dir ]> (<[ [] := Dir ]> ∅))).

(** ** Sample inputs and proof vocabulary *)

Definition mixed_text : pystr := py "=== a.txt ===
hello
### b.css
```css
x
```".

Definition plain_text : pystr := py "  Hello, no markers here.
".

Definition bold_text : pystr := py "**main.js**
```js
run()
```".

Definition empty_heading_block : pystr := py "### a.b
```
```".

Definition empty_bold_block : pystr := py "**a.b**
```
```".

(** The entries the path check lets through. *)
Definition passes_check (e : pystr * pystr) : bool :=
  negb (startswith (normpath e.1) (py "..")).

Definition site_files : dict :=
  [(py "index.html", py "<p>"); (py "images/logo.svg", py "<svg/>");
   (py "../up.txt", py "no"); (py "./index.html", py "<h1>")].

Definition clash : dict :=
  [(py "a", py "x"); (py "a/b", py "y"); (py "c", py "z")].


(** *** File-system vocabulary for the writer *)

(** Both regular files, or both directories. *)
Definition same_kind (a b : node) : Prop :=
  match a, b with
  | Dir, Dir => True
  | File _, File _ => True
  | _, _ => False
  end.

(** Every node of [t] is still there in [t'], as a node of the same kind:
    what a run of the writer does to the tree. *)
Definition keeps (t t' : gmap path node) : Prop :=
  forall q n, t !! q = Some n -> exists n', t' !! q = Some n' /\ same_kind n n'.

(** Where an entry is written, if the path check lets it through. *)
Definition target (cwd : path) (e : pystr * pystr) : option (path * pystr) :=
  if startswith (normpath e.1) (py "..") then None
  else Some (resolve cwd (normpath e.1), e.2).

(** Storing contents, and nothing else. *)
Definition put (t : gmap path node) (x : path * pystr) : gmap path node :=
  <[x.1 := File x.2]> t.

Definition replay (ws : list (path * pystr)) (t : gmap path node)
    : gmap path node :=
  foldl put t ws.

Definition put_opt (t : gmap path node) (x : option (path * pystr)) :=
  match x with Some x => put t x | None => t end.

(** The directory stage of an entry that passes the check. *)
Definition prepare (f : pystr) (w : world) : gmap path node * option exn :=
  if is_empty (dirname (normpath f)) then (tree w, None)
  else mkdirs [] (resolve (cwd w) (dirname (normpath f))) (tree w).

(** The targets and contents of the entries that pass the check, in order. *)
Definition writes (cwd : path) (items : dict) : list (path * pystr) :=
  omap (target cwd) items.

(** The content the last write to [q] in [ws] stores, if any. *)
Fixpoint last_write (ws : list (path * pystr)) (q : path) : option pystr :=
  match ws with
  | [] => None
  | (p, d) :: ws' =>
      match last_write ws' q with
      | Some d' => Some d'
      | None => if decide (p = q) then Some d else None
      end
  end.

(** *** Vocabulary for the matcher *)

(** The least number of characters a match of [r] takes. *)
Fixpoint min_len (r : regex) : nat :=
  match r with
  | Eps | Bos | Eos => 0
  | Chr _ | Cls _ => 1
  | Rep _ lo _ _ => lo
  | Cat r1 r2 => min_len r1 + min_len r2
  | Alt r1 r2 => min (min_len r1) (min_len r2)
  | Grp _ r1 => min_len r1
  end%nat.

(** Where the continuation is entered: further on by at least [least]
    characters, all of them taken from the subject. *)
Definition reaches {R} (k : @cont R) (least pos : nat) (s : pystr) (res : R)
    : Prop :=
  exists pos' s' c',
    k pos' s' c' = Some res /\ (pos + least <= pos')%nat /\
    (pos' + length s' = pos + length s)%nat.

(** *** Vocabulary for the marker pattern *)

(** The pattern has no [^]: it matches the same way at every position. *)
Fixpoint bos_free (r : regex) : bool :=
  match r with
  | Bos => false
  | Cat r1 r2 | Alt r1 r2 => bos_free r1 && bos_free r2
  | Grp _ r1 => bos_free r1
  | _ => true
  end.

(** The names the marker pattern captures: a first character that is neither
    white space nor [=], then characters other than [=] and the newline, the
    last of them not white space. *)
Definition is_marker_name (name : pystr) : bool :=
  match name with
  | [] => false
  | c :: nm =>
      not_space_eq c && forallb not_eq_nl nm
      && match last name with
         | Some x => negb (isspace x)
         | None => false
         end
  end.

(** *** Vocabulary for path names *)

(** A path component that names an entry of a directory. *)
Definition proper (comp : pystr) : Prop :=
  comp <> [] /\ comp <> py "." /\ comp <> py ".." /\ ~ In SLASH comp.



(** *** Vocabulary for fence stripping *)

(** The longest prefix of characters in [p]; [drop_while] gives the rest. *)
Fixpoint take_while (p : char -> bool) (s : pystr) : pystr :=
  match s with
  | c :: s' => if p c then c :: take_while p s' else []
  | [] => []
  end.

(** What the opener pattern removes, written as a function: a fence token
    at the very start, the letters that follow it, and one newline if it
    comes next.  The pattern does not ask for the end of the line: the
    letters count as the tag whatever follows them. *)
Definition strip_opener (s : pystr) : pystr :=
  if startswith s (py "```") then
    match drop_while letter (drop 3 s) with
    | c :: t => if c =? NL then t else c :: t
    | [] => []
    end
  else s.

(** What the closer pattern matches: an optional newline, the fence token,
    and white space up to the end of the text.  The pattern does not ask
    for the start of a line: without the newline, the token may end a line
    of text. *)
Definition is_closer (t : pystr) : Prop :=
  exists nl ws, t = nl ++ py "```" ++ ws /\ (nl = [] \/ nl = [NL]) /\
    forallb isspace ws = true.

(** How much of the text after a leading fence token the opener takes: the
    tag and, if it follows, one newline. *)
Definition opener_tail (t : pystr) : nat :=
  (length (take_while letter t)
   + match drop_while letter t with
     | x :: _ => if (x =? NL)%N then 1 else 0
     | [] => 0
     end)%nat.


(** ** Further vocabulary *)

(** *** The writer *)

(** The line [write_files] prints for an entry. *)
Definition report (e : pystr * pystr) : event :=
  if startswith (normpath e.1) (py "..") then SkipUnsafe e.1
  else Written (normpath e.1) (length e.2).

#[local] Instance node_eq_dec : EqDecision node.
Proof. solve_decision. Defined.

(** A name of one component that the path check lets through. *)
Definition flat_name (name : pystr) : Prop :=
  proper name /\ startswith name (py "..") = false.

(** Where the entries of flat names go. *)
Definition flat_writes (cwd : path) (items : dict) : list (path * pystr) :=
  map (fun e => (cwd ++ [e.1], e.2)) items.

(** *** What the system and UTF-8 accept

    [open], [os.makedirs], [f.write] and [print] raise on texts that the
    file-system model does not look at: a name with a NUL character or a
    surrogate, a component or a path that is too long, a content with a
    surrogate.  These say when there is none of that. *)

(** A code point that UTF-8 encodes: a Unicode scalar value. *)
Definition scalar (c : char) : bool :=
  (c <=? 1114111) && negb ((55296 <=? c) && (c <=? 57343)).

Definition encodable (s : pystr) : bool := forallb scalar s.

(** The number of bytes of the UTF-8 encoding. *)
Definition utf8_length (s : pystr) : N :=
  foldr (fun c n =>
           (if c <? 128 then 1 else if c <? 2048 then 2
            else if c <? 65536 then 3 else 4) + n)
        0 s.

(** A path name that Linux takes from [open] and [os.makedirs]: it encodes,
    holds no NUL character, no component of more than NAME_MAX = 255 bytes,
    and fewer than PATH_MAX = 4096 bytes. *)
Definition accepted (name : pystr) : bool :=
  encodable name && forallb (fun c => negb (c =? 0)) name
  && forallb (fun comp => utf8_length comp <=? 255) (str_split SLASH name)
  && (utf8_length name <? 4096).

(** *** The parser *)

(** A text that does not begin with white space; of the reversed text, one
    that does not end with it. *)
Definition tight_front (s : pystr) : Prop :=
  match s with [] => True | x :: _ => isspace x = false end.




(** [d.get(k)] *)
Fixpoint dict_get (k : pystr) (d : dict) : option pystr :=
  match d with
  | [] => None
  | (k', v) :: d' => if pystr_eqb k' k then Some v else dict_get k d'
  end.

(** The parts of [re.split] after the first, two by two: a captured name
    and the text up to the next marker. *)
Fixpoint pair_up (l : list pystr) : list (pystr * pystr) :=
  match l with
  | n :: b :: l' => (n, b) :: pair_up l'
  | _ => []
  end.

Definition unpair (ps : list (pystr * pystr)) : list pystr :=
  flat_map (fun nb => [nb.1; nb.2]) ps.

(** What [section_step] makes of a body before it tests and stores it:
    [parts[i + 1].strip()] and the two substitutions. *)
Definition clean_body (b : pystr) : pystr :=
  sub fence_close_re [] (rstrip (sub fence_open_re [] (strip b))).

(** [section_step] on a name and a body. *)
Definition store (files : dict) (nb : pystr * pystr) : dict :=
  match strip nb.1, clean_body nb.2 with
  | _ :: _, _ :: _ => dict_set (strip nb.1) (strip (clean_body nb.2)) files
  | _, _ => files
  end.

(** A section as a reply in the primary format writes it: the marker line
    [===<lead><name><trail>===] and the text up to the next marker. *)
Record sect : Type := Sect {
  s_lead : pystr;
  s_name : pystr;
  s_trail : pystr;
  s_body : pystr
}.

Definition render (s : sect) : pystr :=
  py "===" ++ s_lead s ++ s_name s ++ s_trail s ++ py "===" ++ s_body s.

(** No [===] anywhere in the text. *)
Fixpoint no_triple (s : pystr) : bool :=
  match s with
  | [] => true
  | _ :: s' => negb (startswith s (py "===")) && no_triple s'
  end.

(** No three backquotes in a row anywhere in the text. *)
Fixpoint no_fence (s : pystr) : bool :=
  match s with
  | [] => true
  | _ :: s' => negb (startswith s (py "```")) && no_fence s'
  end.

Definition well_formed (s : sect) : bool :=
  forallb isspace (s_lead s) && forallb isspace (s_trail s)
  && is_marker_name (s_name s) && no_triple (s_body s).

(** What the primary format keeps of a section. *)
Definition keep (files : dict) (s : sect) : dict :=
  match clean_body (s_body s) with
  | [] => files
  | _ :: _ => dict_set (s_name s) (strip (clean_body (s_body s))) files
  end.

(** The names the heading and bold patterns capture: characters of the file
    name class, a dot, and letters. *)
Definition is_filename (name : pystr) : Prop :=
  exists stem ext, name = stem ++ DOT :: ext /\
    stem <> [] /\ forallb fname_char stem = true /\
    ext <> [] /\ forallb letter ext = true.

(** ** main, from the reply on *)

(** What [main] prints from the reply on, the lines of the two functions it
    calls among them. *)
Inductive line : Type :=
| Parsing                           (* Parsing response into files... *)
| FilesFound (names : list pystr)   (* Files found: [...] *)
| Writing                           (* Writing files... *)
| Done (n : nat) (names : pystr)    (* === Done! Generated n file(s): ... === *)
| Told (e : event).

(** The last statements of [main], from [files = parse_response(content)]
    on: the reply is parsed, the files are written and the summary is
    printed.  An exception leaves the function where it is raised. *)
Definition main_from_reply (content : pystr) (w : world)
    : world * list line * result unit :=
  match parse_response content with
  | Raise e => (w, [Parsing], Raise e)
  | Ok (files, warned) =>
      let said := [Parsing] ++ map Told warned
                  ++ [FilesFound (map fst files); Writing] in
      let '(w', out, r) := write_files files w in
      match r with
      | Raise e => (w', said ++ map Told out, Raise e)
      | Ok written =>
          (w', said ++ map Told out
               ++ [Done (length written) (join (py ", ") written)], Ok tt)
      end
  end.

(** A reply in the primary format with two sections of the same name. *)
Definition two_sections : list sect :=
  [Sect (py " ") (py "index.html") (py " ") (py "
<p>old</p>
");
   Sect [] (py "style.css") (py " ") (py "
```css
body {}
```
");
   Sect (py " ") (py "index.html") (py " ") (py "
<p>new</p>
")].

(** ** Replies in the heading and bold formats *)

(** The text begins with a character outside [p], or is empty. *)
Definition stops (p : char -> bool) (s : pystr) : Prop :=
  match s with [] => True | x :: _ => p x = false end.

Definition STAR : char := 42.     (* "*" *)

(** The character [a] does not occur in the text. *)
Definition lacks (a : char) (s : pystr) : bool :=
  forallb (fun x => negb (x =? a)) s.

(** A file as a reply in one of the two other formats writes it: a line
    with the name, the fenced block with its language tag, and the text up
    to the next file.  Before the name stand one to four [#] and white
    space (a heading), or the name stands in [**] with white space after
    it (bold). *)
Record block : Type := Block {
  b_level : nat;
  b_space : pystr;
  b_name : pystr;
  b_tag : pystr;
  b_body : pystr;
  b_after : pystr
}.

Definition fenced (b : block) : pystr :=
  NL :: py "```" ++ b_tag b ++ NL :: b_body b ++ py "```".

Definition as_heading (b : block) : pystr :=
  replicate (b_level b) HASH ++ b_space b ++ b_name b ++ fenced b.

Definition as_bold (b : block) : pystr :=
  py "**" ++ b_name b ++ py "**" ++ b_space b ++ fenced b.

(** The block is what the patterns take it for: the body ends at the first
    fence after the tag line. *)
Definition block_ok (b : block) : Prop :=
  forallb isspace (b_space b) = true /\ is_filename (b_name b) /\
  forallb letter (b_tag b) = true /\ no_fence (b_body b ++ py "``") = true.

Definition heading_ok (b : block) : Prop :=
  block_ok b /\ (1 <= b_level b <= 4)%nat /\
  lacks HASH (b_after b) = true /\ lacks TICK (b_after b) = true.

Definition bold_ok (b : block) : Prop :=
  block_ok b /\ lacks STAR (b_after b) = true.

(** What a match of the heading or bold pattern captures of a block, and
    what the two loops over [finditer] store for it. *)
Definition block_caps (b : block) : caps :=
  [(2%nat, b_body b); (1%nat, b_name b)].

Definition keep_block (files : dict) (b : block) : dict :=
  dict_set (b_name b) (strip (b_body b)) files.

Definition two_blocks : list block :=
  [Block 2 (py " ") (py "index.html") (py "html") (py "<p>hi</p>
") (py "

");
   Block 3 [] (py "css/site.css") [] (py "body {}") (py "
")].
(** * Properties *)

(** ** The matcher *)

Section Progress.
Context {R : Type}.
Implicit Types (k : @cont R) (s : pystr) (c : caps).

Lemma reaches_here k pos s c res :
  k pos s c = Some res -> reaches k 0 pos s res.
Proof. intros H. exists pos, s, c. repeat split; [assumption|lia]. Qed.

Lemma reaches_step k least pos x s res :
  reaches k (pred least) (S pos) s res -> reaches k least pos (x :: s) res.
Proof.
  intros (pos' & s' & c' & Hk & Hle & Hlen). exists pos', s', c'.
  repeat split; [assumption|lia|cbn [length]; lia].
Qed.

Lemma rep_reaches p g k : forall s lo hi pos c res,
  rep p g k lo hi pos s c = Some res -> reaches k lo pos s res.
Proof.
  assert (Hstop : forall lo pos s c res,
            stop_here lo k pos s c = Some res -> reaches k lo pos s res).
  { intros [|lo] pos s c res H; [|discriminate H]. now apply reaches_here in H. }
  induction s as [|x s IH]; intros lo hi pos c res H; cbn [rep] in H.
  - eapply Hstop; eassumption.
  - destruct (p x && more_allowed hi); [|eapply Hstop; eassumption].
    destruct g.
    + destruct (rep p true k (pred lo) (dec_hi hi) (S pos) s c) as [r'|] eqn:Hr.
      * inversion H; subst r'. apply reaches_step. eapply IH; eassumption.
      * eapply Hstop; eassumption.
    + destruct (stop_here lo k pos (x :: s) c) as [r'|] eqn:Hs.
      * inversion H; subst r'. eapply Hstop; eassumption.
      * apply reaches_step. eapply IH; eassumption.
Qed.

Lemma mt_reaches r : forall k pos s c res,
  mt r k pos s c = Some res -> reaches k (min_len r) pos s res.
Proof.
  induction r as [|a|p|p lo hi g|r1 IHr1 r2 IHr2|r1 IHr1 r2 IHr2|n r IHr| |];
    intros k pos s c res H; cbn [mt min_len] in *.
  - now apply reaches_here in H.
  - destruct s as [|x s]; [discriminate H|].
    destruct (x =? a); [|discriminate H].
    apply reaches_step. now apply reaches_here in H.
  - destruct s as [|x s]; [discriminate H|].
    destruct (p x); [|discriminate H].
    apply reaches_step. now apply reaches_here in H.
  - eapply rep_reaches; eassumption.
  - apply IHr1 in H as (pos1 & s1 & c1 & H & Hle1 & Hlen1).
    apply IHr2 in H as (pos2 & s2 & c2 & H & Hle2 & Hlen2).
    exists pos2, s2, c2. repeat split; [assumption|lia|lia].
  - destruct (mt r1 k pos s c) as [r'|] eqn:H1.
    + inversion H; subst r'.
      apply IHr1 in H1 as (pos1 & s1 & c1 & H1 & Hle & Hlen).
      exists pos1, s1, c1. repeat split; [assumption|lia|lia].
    + apply IHr2 in H as (pos1 & s1 & c1 & H & Hle & Hlen).
      exists pos1, s1, c1. repeat split; [assumption|lia|lia].
  - apply IHr in H as (pos1 & s1 & c1 & H & Hle & Hlen).
    exists pos1, s1, ((n, take (pos1 - pos) s) :: c1).
    repeat split; assumption.
  - destruct (pos =? 0)%nat; [|discriminate H]. now apply reaches_here in H.
  - destruct s as [|x [|y s]]; [| |discriminate H].
    + now apply reaches_here in H.
    + destruct (x =? NL); [|discriminate H]. now apply reaches_here in H.
Qed.
End Progress.

(** A match takes at least [min_len r] characters and no more than there
    are. *)
Lemma match_at_length r pos s n c :
  match_at r pos s = Some (n, c) -> (min_len r <= n <= length s)%nat.
Proof.
  unfold match_at. intros H.
  apply mt_reaches in H as (pos' & s' & c' & H & Hle & Hlen).
  inversion H; subst. lia.
Qed.

(** None of the patterns of [parse_response] matches the empty string: the
    scanner never meets an empty match. *)
Lemma patterns_take_characters r pos s n c :
  In r [marker_re; fence_open_re; fence_close_re; heading_re; bold_re] ->
  match_at r pos s = Some (n, c) -> (3 <= n)%nat.
Proof.
  intros Hr H. apply match_at_length in H as [H _].
  cbn [In] in Hr.
  destruct Hr as [<-|[<-|[<-|[<-|[<-|[]]]]]]; vm_compute in H; lia.
Qed.

Section Engine.
Context {R : Type}.
Implicit Types (k : @cont R) (s : pystr) (c : caps).

Lemma rep_ext p g k k' : (forall pos s c, k pos s c = k' pos s c) ->
  forall s lo hi pos c, rep p g k lo hi pos s c = rep p g k' lo hi pos s c.
Proof.
  intros E. induction s as [|x s IH]; intros lo hi pos c; cbn [rep].
  - unfold stop_here. destruct lo; auto.
  - rewrite !IH. unfold stop_here. destruct lo; rewrite ?E; reflexivity.
Qed.

Lemma mt_ext r : forall k k', (forall pos s c, k pos s c = k' pos s c) ->
  forall pos s c, mt r k pos s c = mt r k' pos s c.
Proof.
  induction r as [|a|p|p lo hi g|r1 IHr1 r2 IHr2|r1 IHr1 r2 IHr2|n r IHr| |];
    intros k k' E pos s c; cbn [mt].
  - apply E.
  - destruct s as [|x s]; [reflexivity|]. now rewrite E.
  - destruct s as [|x s]; [reflexivity|]. now rewrite E.
  - now apply rep_ext.
  - apply IHr1. intros. now apply IHr2.
  - rewrite (IHr1 k k' E), (IHr2 k k' E). reflexivity.
  - apply IHr. intros. apply E.
  - now rewrite E.
  - destruct s as [|x [|y s]]; rewrite ?E; reflexivity.
Qed.

Lemma rep_shift p g k d : forall s lo hi pos c,
  rep p g k lo hi (pos + d) s c
  = rep p g (fun q s' c' => k (q + d)%nat s' c') lo hi pos s c.
Proof.
  induction s as [|x s IH]; intros lo hi pos c; cbn [rep].
  - reflexivity.
  - change (S (pos + d)) with (S pos + d)%nat. rewrite !IH. reflexivity.
Qed.

Lemma mt_shift r : bos_free r = true -> forall k d pos s c,
  mt r k (pos + d) s c = mt r (fun q s' c' => k (q + d)%nat s' c') pos s c.
Proof.
  induction r as [|a|p|p lo hi g|r1 IHr1 r2 IHr2|r1 IHr1 r2 IHr2|n r IHr| |];
    cbn [bos_free]; intros Hb k d pos s c; cbn [mt].
  - reflexivity.
  - reflexivity.
  - reflexivity.
  - apply rep_shift.
  - apply andb_true_iff in Hb as [H1 H2]. rewrite (IHr1 H1).
    apply mt_ext. intros. now apply IHr2.
  - apply andb_true_iff in Hb as [H1 H2]. now rewrite (IHr1 H1), (IHr2 H2).
  - rewrite (IHr Hb). apply mt_ext. intros q s' c'.
    now replace (q + d - (pos + d))%nat with (q - pos)%nat by lia.
  - discriminate Hb.
  - reflexivity.
Qed.

Lemma mt_lit l : forall k pos s c,
  mt (lit l) k pos (l ++ s) c = k (pos + length l)%nat s c.
Proof.
  induction l as [|a l IH]; intros k pos s c; cbn [lit mt app length].
  - now rewrite Nat.add_0_r.
  - rewrite N.eqb_refl, IH. f_equal. lia.
Qed.

(** A greedy star takes the whole run when the rest then matches. *)
Lemma rep_greedy_run p k run : forall s pos c r,
  forallb p run = true ->
  match s with [] => True | x :: _ => p x = false end ->
  k (pos + length run)%nat s c = Some r ->
  rep p true k 0 None pos (run ++ s) c = Some r.
Proof.
  induction run as [|a run IH]; intros s pos c r Hrun Hs Hk;
    cbn [app length] in *.
  - rewrite Nat.add_0_r in Hk. destruct s as [|x s]; cbn [rep stop_here].
    + assumption.
    + now rewrite Hs.
  - cbn [forallb] in Hrun. apply andb_true_iff in Hrun as [Ha Hrun].
    cbn [rep]. rewrite Ha. cbn [andb more_allowed pred dec_hi].
    rewrite (IH s (S pos) c r Hrun Hs); [reflexivity|].
    now replace (S pos + length run)%nat with (pos + S (length run))%nat by lia.
Qed.

(** A lazy star stops at the first place where the rest matches. *)
Lemma rep_lazy_run p k run : forall s pos c r,
  forallb p run = true ->
  (forall j, (j < length run)%nat ->
     k (pos + j)%nat (drop j run ++ s) c = None) ->
  k (pos + length run)%nat s c = Some r ->
  rep p false k 0 None pos (run ++ s) c = Some r.
Proof.
  induction run as [|a run IH]; intros s pos c r Hrun Hfail Hk;
    cbn [app length] in *.
  - rewrite Nat.add_0_r in Hk.
    destruct s as [|x s]; cbn [rep stop_here]; [assumption|].
    destruct (p x && more_allowed None); now rewrite Hk.
  - cbn [forallb] in Hrun. apply andb_true_iff in Hrun as [Ha Hrun].
    cbn [rep]. rewrite Ha. cbn [andb more_allowed pred dec_hi stop_here].
    pose proof (Hfail 0%nat ltac:(lia)) as H0.
    rewrite Nat.add_0_r in H0. cbn [drop app] in H0. rewrite H0.
    apply IH; [assumption| |].
    + intros j Hj. specialize (Hfail (S j) ltac:(lia)). cbn [drop] in Hfail.
      now replace (S pos + j)%nat with (pos + S j)%nat by lia.
    + now replace (S pos + length run)%nat with (pos + S (length run))%nat by lia.
Qed.
End Engine.

Lemma match_at_shift r pos s :
  bos_free r = true -> match_at r pos s = match_at r 0 s.
Proof.
  intros Hb. unfold match_at.
  change (mt r (fun pos' _ c => Some ((pos' - pos)%nat, c)) (0 + pos) s []
          = mt r (fun pos' _ c => Some ((pos' - 0)%nat, c)) 0 s []).
  rewrite (mt_shift r Hb).
  apply mt_ext. intros q s' c'.
  now replace (q + pos - pos)%nat with (q - 0)%nat by lia.
Qed.

Lemma scan_shift r : bos_free r = true ->
  forall s pos pos' skip acc, scan r pos skip acc s = scan r pos' skip acc s.
Proof.
  intros Hb. induction s as [|x s IH]; intros pos pos' skip acc; cbn [scan].
  - destruct skip; [|reflexivity].
    now rewrite (match_at_shift r pos), (match_at_shift r pos').
  - destruct skip as [|n]; [|apply IH].
    rewrite (match_at_shift r pos), (match_at_shift r pos') by assumption.
    destruct (match_at r 0 (x :: s)) as [[[|n] c]|];
      [rewrite (IH (S pos) (S pos'))|rewrite (IH (S pos) (S pos'))|apply IH];
      reflexivity.
Qed.

(** The characters of a match are passed over. *)
Lemma scan_skip r m : forall s pos acc,
  scan r pos (length m) acc (m ++ s) = scan r (pos + length m) 0 acc s.
Proof.
  induction m as [|x m IH]; intros s pos acc; cbn [length app].
  - now rewrite Nat.add_0_r.
  - cbn [scan]. rewrite IH. f_equal. lia.
Qed.

(** A match at the very start of the subject is the first piece that
    [split] cuts off. *)
Lemma split_first_match r x m s c :
  bos_free r = true ->
  match_at r 0 (x :: m ++ s) = Some (S (length m), c) ->
  split r (x :: m ++ s) = [] :: group 1 c :: split r s.
Proof.
  intros Hb Hm. unfold split. cbn [scan]. rewrite Hm.
  rewrite scan_skip, (scan_shift r Hb s _ 0%nat).
  destruct (scan r 0 0 [] s) as [ms tl]. reflexivity.
Qed.

(** After white space, [===] cannot match when the first character that is
    not white space is not [=]. *)
Lemma space_then_marker_fails {R} (k : @cont R) l : forall s pos c,
  head (lstrip s) <> Some EQ ->
  rep isspace true (mt (lit (EQ :: l)) k) 0 None pos s c = None.
Proof.
  induction s as [|x s IH]; intros pos c Hh; cbn [rep stop_here].
  - reflexivity.
  - unfold lstrip in Hh. cbn [drop_while] in Hh.
    destruct (isspace x) eqn:Hx; cbn [andb more_allowed pred dec_hi].
    + rewrite (IH (S pos) c Hh). cbn [lit mt].
      destruct (x =? EQ) eqn:E; [|reflexivity].
      apply N.eqb_eq in E. subst x. discriminate Hx.
    + cbn [lit mt]. destruct (x =? EQ) eqn:E; [|reflexivity].
      apply N.eqb_eq in E. subst x. now cbn in Hh.
Qed.

Lemma not_eq_nl_not_eq x : not_eq_nl x = true -> x <> EQ.
Proof. intros H ->. discriminate H. Qed.

(** Inside a name, the text from any place on starts, after white space,
    with a character of the name, which is not [=]. *)
Lemma name_tail_no_marker u : forall t,
  forallb not_eq_nl u = true ->
  (exists x, last u = Some x /\ isspace x = false) ->
  head (lstrip (u ++ t)) <> Some EQ.
Proof.
  induction u as [|a u IH]; intros t Hu (x & Hl & Hx).
  - discriminate Hl.
  - cbn [forallb] in Hu. apply andb_true_iff in Hu as [Ha Hu].
    unfold lstrip. cbn [app drop_while].
    destruct (isspace a) eqn:Hsa.
    + apply IH; [assumption|]. destruct u as [|b u].
      * cbn in Hl. inversion Hl; subst. congruence.
      * exists x. split; [|assumption]. now rewrite last_cons_cons in Hl.
    + cbn [head]. intros E. inversion E. now apply (not_eq_nl_not_eq a).
Qed.

Lemma last_drop_lt {A} (l : list A) j :
  (j < length l)%nat -> last (drop j l) = last l.
Proof.
  intros Hj. rewrite !last_lookup, lookup_drop, length_drop. f_equal. lia.
Qed.

Lemma forallb_drop {A} (p : A -> bool) j : forall l,
  forallb p l = true -> forallb p (drop j l) = true.
Proof.
  induction j as [|j IH]; intros [|x l] H; cbn [drop]; try assumption.
  apply IH. cbn [forallb] in H. now apply andb_true_iff in H as [_ H].
Qed.

(** What the marker pattern matches where a marker begins. *)
Lemma marker_match ws1 name ws2 rest pos :
  forallb isspace ws1 = true -> forallb isspace ws2 = true ->
  is_marker_name name = true ->
  match_at marker_re pos (py "===" ++ ws1 ++ name ++ ws2 ++ py "===" ++ rest)
  = Some ((3 + length ws1 + length name + length ws2 + 3)%nat, [(1%nat, name)]).
Proof.
  intros H1 H2 Hn. destruct name as [|c0 nm]; [discriminate Hn|].
  cbn [is_marker_name] in Hn.
  apply andb_true_iff in Hn as [Hn Hlast]. apply andb_true_iff in Hn as [Hc0 Hnm].
  assert (Hsp : isspace c0 = false).
  { unfold not_space_eq in Hc0. apply negb_true_iff, orb_false_iff in Hc0.
    tauto. }
  unfold match_at, marker_re, star, star_lazy. cbn [mt].
  rewrite mt_lit. cbn [app].
  apply rep_greedy_run; [exact H1|exact Hsp|].
  rewrite Hc0.
  apply rep_lazy_run; [exact Hnm| |].
  - intros j Hj. apply space_then_marker_fails, name_tail_no_marker.
    + now apply forallb_drop.
    + rewrite (last_drop_lt nm j Hj).
      destruct nm as [|b nm]; [cbn in Hj; lia|].
      rewrite last_cons_cons in Hlast.
      destruct (last (b :: nm)) as [x|]; [|discriminate Hlast].
      exists x. split; [reflexivity|]. now apply negb_true_iff.
  - apply rep_greedy_run; [exact H2|reflexivity|].
    rewrite mt_lit. f_equal. f_equal.
    + cbn [length py map list_ascii_of_string]. lia.
    + f_equal. f_equal.
      replace (S (pos + length (py "===") + length ws1) + length nm
               - (pos + length (py "===") + length ws1))%nat
        with (length (c0 :: nm)) by (cbn [length]; lia).
      exact (take_app_length (c0 :: nm) _).
Qed.

Section Inversion.
Context {R : Type}.
Implicit Types (k : @cont R) (s : pystr) (c : caps).

Lemma mt_lit_inv l : forall k pos s c r,
  mt (lit l) k pos s c = Some r ->
  exists s', s = l ++ s' /\ k (pos + length l)%nat s' c = Some r.
Proof.
  induction l as [|a l IH]; intros k pos s c r H; cbn [lit mt] in H.
  - exists s. cbn [length]. now rewrite Nat.add_0_r.
  - destruct s as [|x s]; [discriminate H|].
    destruct (x =? a) eqn:E; [|discriminate H].
    apply N.eqb_eq in E. subst x.
    destruct (IH _ _ _ _ _ H) as (s' & -> & Hk). exists s'. split; [reflexivity|].
    now replace (pos + length (a :: l))%nat with (S pos + length l)%nat
      by (cbn [length]; lia).
Qed.

(** Whatever a repetition matched is a run of the class, followed by a match
    of the rest. *)
Lemma rep_inv p g k : forall s lo hi pos c r,
  rep p g k lo hi pos s c = Some r ->
  exists run s', s = run ++ s' /\ forallb p run = true /\
    k (pos + length run)%nat s' c = Some r.
Proof.
  assert (Hstop : forall lo pos s c r, stop_here lo k pos s c = Some r ->
            exists run s', s = run ++ s' /\ forallb p run = true /\
              k (pos + length run)%nat s' c = Some r).
  { intros lo pos s c r H. destruct lo; [|discriminate H].
    exists [], s. cbn [length app forallb]. now rewrite Nat.add_0_r. }
  assert (Hmore : forall x s pos c r, p x = true ->
            (exists run s', s = run ++ s' /\ forallb p run = true /\
               k (S pos + length run)%nat s' c = Some r) ->
            exists run s', x :: s = run ++ s' /\ forallb p run = true /\
               k (pos + length run)%nat s' c = Some r).
  { intros x s pos c r Hx (run & s' & -> & Hrun & Hk).
    exists (x :: run), s'. cbn [forallb app length]. rewrite Hx, Hrun.
    repeat split.
    now replace (pos + S (length run))%nat with (S pos + length run)%nat by lia. }
  induction s as [|x s IH]; intros lo hi pos c r H; cbn [rep] in H.
  - eapply Hstop; eassumption.
  - destruct (p x) eqn:Hx; cbn [andb] in H; [|eapply Hstop; eassumption].
    destruct (more_allowed hi); [|eapply Hstop; eassumption].
    destruct g.
    + destruct (rep p true k (pred lo) (dec_hi hi) (S pos) s c) as [r'|] eqn:Hr.
      * inversion H; subst r'. apply Hmore; [assumption|]. eapply IH; eassumption.
      * eapply Hstop; eassumption.
    + destruct (stop_here lo k pos (x :: s) c) as [r'|] eqn:Hs.
      * inversion H; subst r'. eapply Hstop; eassumption.
      * apply Hmore; [assumption|]. eapply IH; eassumption.
Qed.

(** A lazy star stops as soon as the rest matches: at no shorter run did the
    rest match. *)
Lemma rep_lazy_inv p k : forall s pos c r,
  rep p false k 0 None pos s c = Some r ->
  exists run s', s = run ++ s' /\ forallb p run = true /\
    k (pos + length run)%nat s' c = Some r /\
    forall j, (j < length run)%nat ->
      k (pos + j)%nat (drop j run ++ s') c = None.
Proof.
  assert (Hstop : forall pos s c r, k pos s c = Some r ->
            exists run s', s = run ++ s' /\ forallb p run = true /\
              k (pos + length run)%nat s' c = Some r /\
              forall j, (j < length run)%nat ->
                k (pos + j)%nat (drop j run ++ s') c = None).
  { intros pos s c r H. exists [], s. cbn [length app forallb].
    rewrite Nat.add_0_r. repeat split; [assumption|]. intros j Hj. lia. }
  induction s as [|x s IH]; intros pos c r H; cbn [rep stop_here] in H.
  - now apply Hstop.
  - destruct (p x) eqn:Hx; cbn [andb more_allowed] in H; [|now apply Hstop].
    destruct (k pos (x :: s) c) as [r'|] eqn:Hk.
    + inversion H; subst r'. now apply Hstop.
    + cbn [pred dec_hi] in H.
      destruct (IH _ _ _ H) as (run & s' & -> & Hrun & Hk' & Hfail).
      exists (x :: run), s'. cbn [forallb app length]. rewrite Hx, Hrun.
      repeat split.
      * now replace (pos + S (length run))%nat with (S pos + length run)%nat by lia.
      * intros [|j] Hj; cbn [drop app].
        -- now rewrite Nat.add_0_r.
        -- replace (pos + S j)%nat with (S pos + j)%nat by lia.
           apply Hfail. lia.
Qed.
End Inversion.

Lemma marker_match_inv pos s n c :
  match_at marker_re pos s = Some (n, c) ->
  exists ws1 name ws2 rest,
    s = py "===" ++ ws1 ++ name ++ ws2 ++ py "===" ++ rest /\
    forallb isspace ws1 = true /\ forallb isspace ws2 = true /\
    is_marker_name name = true /\
    n = (3 + length ws1 + length name + length ws2 + 3)%nat /\
    c = [(1%nat, name)].
Proof.
  unfold match_at, marker_re, star, star_lazy. cbn [mt]. intros H.
  apply mt_lit_inv in H as (s1 & -> & H).
  apply rep_inv in H as (ws1 & s2 & -> & Hws1 & H).
  destruct s2 as [|c0 s2]; [discriminate H|].
  destruct (not_space_eq c0) eqn:Hc0; [|discriminate H].
  apply rep_lazy_inv in H as (nm & s3 & -> & Hnm & H & Hfail).
  apply rep_inv in H as (ws2 & s4 & -> & Hws2 & H).
  apply mt_lit_inv in H as (rest & -> & H).
  exists ws1, (c0 :: nm), ws2, rest. split; [reflexivity|].
  split; [assumption|]. split; [assumption|].
  injection H as <- <-. repeat split.
  - cbn [is_marker_name]. rewrite Hc0, Hnm. cbn [andb].
    destruct (last (c0 :: nm)) as [w|] eqn:Hl; [|now apply last_None in Hl].
    destruct (isspace w) eqn:Hw; [exfalso|reflexivity].
    destruct nm as [|b nm].
    { cbn in Hl. inversion Hl; subst w. unfold not_space_eq in Hc0.
      now rewrite Hw in Hc0. }
    rewrite last_cons_cons in Hl. apply last_Some in Hl as [nm' Enm].
    specialize (Hfail (length nm') ltac:(rewrite Enm, length_app; cbn; lia)).
    rewrite Enm, drop_app_length in Hfail.
    cbv beta in Hfail.
    change ([w] ++ ws2 ++ py "===" ++ rest)
      with ((w :: ws2) ++ py "===" ++ rest) in Hfail.
    erewrite rep_greedy_run in Hfail; [discriminate Hfail| | |].
    + cbn [forallb]. now rewrite Hw, Hws2.
    + reflexivity.
    + rewrite mt_lit. reflexivity.
  - cbn [length py map list_ascii_of_string]. lia.
  - f_equal. f_equal.
    apply (take_app_length' (c0 :: nm)). cbn [length]. lia.
Qed.

Lemma not_space_eq_not_eq_nl x : not_space_eq x = true -> not_eq_nl x = true.
Proof.
  unfold not_space_eq, not_eq_nl. intros H.
  apply negb_true_iff, orb_false_iff in H as [Hs He].
  rewrite He. cbn [orb]. destruct (x =? NL) eqn:E; [|reflexivity].
  apply N.eqb_eq in E. subst x. discriminate Hs.
Qed.

Lemma run_is_marker_name name :
  name <> [] -> forallb not_space_eq name = true -> is_marker_name name = true.
Proof.
  intros Hne Hrun. destruct name as [|c0 nm]; [contradiction|].
  pose proof Hrun as Hall. cbn [forallb] in Hrun.
  apply andb_true_iff in Hrun as [Hc0 Hnm].
  cbn [is_marker_name]. rewrite Hc0. cbn [andb].
  apply andb_true_iff. split.
  - apply forallb_forall. intros x Hx. apply not_space_eq_not_eq_nl.
    revert x Hx. now apply forallb_forall.
  - destruct (last (c0 :: nm)) as [w|] eqn:Hl; [|now apply last_None in Hl].
    apply last_Some_elem_of, list_elem_of_In in Hl.
    pose proof (proj1 (forallb_forall _ _) Hall w Hl) as Hw.
    unfold not_space_eq in Hw. apply negb_true_iff, orb_false_iff in Hw as [Hw _].
    now rewrite Hw.
Qed.

Lemma marker_split ws1 name ws2 rest :
  forallb isspace ws1 = true -> forallb isspace ws2 = true ->
  is_marker_name name = true ->
  split marker_re (py "===" ++ ws1 ++ name ++ ws2 ++ py "===" ++ rest)
  = [] :: name :: split marker_re rest.
Proof.
  intros H1 H2 Hn.
  pose proof (marker_match ws1 name ws2 rest 0 H1 H2 Hn) as Hm.
  replace (py "===" ++ ws1 ++ name ++ ws2 ++ py "===" ++ rest)
    with (EQ :: (py "==" ++ ws1 ++ name ++ ws2 ++ py "===") ++ rest) in *
    by (rewrite <- !app_assoc; reflexivity).
  apply (split_first_match marker_re EQ _ rest [(1%nat, name)]); [reflexivity|].
  rewrite Hm. f_equal. f_equal. rewrite !length_app. cbn [length py map list_ascii_of_string]. lia.
Qed.

(** A marker whose name has a blank inside is recognized, blank included. *)
Lemma inner_blank_marker_recognized :
  split marker_re (py "=== my file ===") = [[]; py "my file"; []] /\
  parse_response (py "=== my file ===
hello") = Ok ([(py "my file", py "hello")], []).
Proof. split; vm_compute; reflexivity. Qed.

(** C4 (amended). The delimited-section strategy recognizes exactly the
    markers [===], white space, name, white space, [===] whose name starts
    with a character that is neither white space nor [=], goes on with
    characters other than [=] and the newline, and does not end in white
    space.  Blanks inside the name are part of it: [=== my file ===] is a
    marker with the name [my file].  Every marker whose name is a run of
    characters that are neither white space nor [=] is of this kind; where
    the scan reaches such a marker, [re.split] cuts there and yields the
    name. *)
Theorem marker_recognition :
  (forall pos s n c,
     match_at marker_re pos s = Some (n, c) <->
     exists ws1 name ws2 rest,
       s = py "===" ++ ws1 ++ name ++ ws2 ++ py "===" ++ rest /\
       forallb isspace ws1 = true /\ forallb isspace ws2 = true /\
       is_marker_name name = true /\
       n = (3 + length ws1 + length name + length ws2 + 3)%nat /\
       c = [(1%nat, name)])
  /\
  (forall ws1 name ws2 rest,
     forallb isspace ws1 = true -> forallb isspace ws2 = true ->
     is_marker_name name = true ->
     split marker_re (py "===" ++ ws1 ++ name ++ ws2 ++ py "===" ++ rest)
     = [] :: name :: split marker_re rest)
  /\
  (forall name,
     name <> [] -> forallb not_space_eq name = true ->
     is_marker_name name = true)
  /\
  is_marker_name (py "my file") = true.
Proof.
  split; [|split; [exact marker_split|split; [exact run_is_marker_name|reflexivity]]].
  intros pos s n c. split.
  - apply marker_match_inv.
  - intros (ws1 & name & ws2 & rest & -> & H1 & H2 & Hn & -> & ->).
    now apply marker_match.
Qed.

Lemma marker_recognition_witness :
  split marker_re (py "===" ++ py " " ++ py "my file" ++ py " " ++ py "==="
                   ++ py "
hello")
  = [[]; py "my file"; py "
hello"]
  /\ is_marker_name (py "index.html") = true.
Proof.
  split.
  - apply (proj1 (proj2 marker_recognition) (py " ") (py "my file") (py " "));
      reflexivity.
  - apply (proj1 (proj2 (proj2 marker_recognition))); [discriminate|reflexivity].
Defined.

(** ** The two fence substitutions *)

Lemma take_drop_while p s : s = take_while p s ++ drop_while p s.
Proof.
  induction s as [|c s IH]; cbn [take_while drop_while]; [reflexivity|].
  destruct (p c); [cbn [app]; now f_equal|reflexivity].
Qed.

Lemma take_while_all p s : forallb p (take_while p s) = true.
Proof.
  induction s as [|c s IH]; cbn [take_while]; [reflexivity|].
  destruct (p c) eqn:E; [cbn [forallb]; now rewrite E|reflexivity].
Qed.

Lemma drop_while_head p s :
  match drop_while p s with [] => True | x :: _ => p x = false end.
Proof.
  induction s as [|c s IH]; cbn [drop_while]; [exact I|].
  destruct (p c) eqn:E; assumption.
Qed.

Lemma startswith_app s l : startswith s l = true -> s = l ++ drop (length l) s.
Proof.
  revert s. induction l as [|a l IH]; intros s H; [reflexivity|].
  destruct s as [|c s]; [discriminate H|]. cbn [startswith] in H.
  apply andb_true_iff in H as [E H]. apply N.eqb_eq in E. subst c.
  cbn [app length drop]. f_equal. now apply IH.
Qed.

Lemma mt_lit_none {R} l (k : @cont R) pos s c :
  startswith s l = false -> mt (lit l) k pos s c = None.
Proof.
  revert pos s. induction l as [|a l IH]; intros pos s H;
    [destruct s; discriminate H|].
  cbn [lit mt]. destruct s as [|x s]; [reflexivity|]. cbn [startswith] in H.
  destruct (x =? a); [|reflexivity]. now apply IH.
Qed.

(** Without a match after the first position, the scanner copies the text. *)
Lemma scan_no_match r : (forall pos t, match_at r (S pos) t = None) ->
  forall s pos acc, scan r (S pos) 0 acc s = ([], rev acc ++ s).
Proof.
  intros Hno. induction s as [|x s IH]; intros pos acc; cbn [scan];
    rewrite Hno.
  - now rewrite app_nil_r.
  - rewrite IH. cbn [rev]. now rewrite <- app_assoc.
Qed.

Lemma fence_open_only_at_start pos t : match_at fence_open_re (S pos) t = None.
Proof. reflexivity. Qed.

Lemma fence_open_match t :
  match_at fence_open_re 0 (py "```" ++ t) = Some ((3 + opener_tail t)%nat, []).
Proof.
  unfold match_at, fence_open_re, star, opt, opener_tail. cbn [mt Nat.eqb].
  rewrite mt_lit.
  pose proof (drop_while_head letter t) as Hh.
  rewrite (take_drop_while letter t) at 1.
  set (run := take_while letter t) in *. set (rest := drop_while letter t) in *.
  apply rep_greedy_run; [apply take_while_all|exact Hh|].
  change (length (py "```")) with 3%nat.
  destruct rest as [|x rest]; cbn [rep stop_here].
  - f_equal. f_equal. lia.
  - unfold only at 1. destruct (x =? NL) eqn:E; cbn [andb more_allowed].
    + cbn [pred dec_hi].
      destruct rest as [|y rest]; cbn [rep stop_here more_allowed andb];
        rewrite ?andb_false_r; f_equal; f_equal; lia.
    + f_equal. f_equal. lia.
Qed.

Lemma strip_opener_fence t :
  strip_opener (py "```" ++ t) = drop (opener_tail t) t.
Proof.
  unfold strip_opener, opener_tail.
  change (startswith (py "```" ++ t) (py "```")) with true. cbn iota.
  change (drop 3 (py "```" ++ t)) with t.
  set (run := take_while letter t). set (rest := drop_while letter t).
  transitivity (drop (length run
                      + match rest with
                        | x :: _ => if (x =? NL)%N then 1 else 0
                        | [] => 0
                        end)%nat (run ++ rest));
    [|subst run rest; now rewrite <- take_drop_while].
  rewrite drop_app_add'; [|reflexivity].
  destruct rest as [|x rest]; [reflexivity|].
  now destruct (x =? NL).
Qed.

Lemma scan_skip_drop r n s pos acc :
  (n <= length s)%nat ->
  scan r pos n acc s = scan r (pos + n) 0 acc (drop n s).
Proof.
  intros Hn.
  assert (E : length (take n s) = n) by (rewrite length_take; lia).
  pose proof (scan_skip r (take n s) (drop n s) pos acc) as H.
  now rewrite take_drop, E in H.
Qed.

Lemma opener_tail_le t : (opener_tail t <= length t)%nat.
Proof.
  unfold opener_tail. rewrite (take_drop_while letter t) at 3.
  rewrite length_app. destruct (drop_while letter t) as [|x r]; cbn [length];
    [lia|]. destruct (x =? NL); lia.
Qed.

(** The first substitution of [section_step] is [strip_opener]. *)
Lemma sub_fence_open s : sub fence_open_re [] s = strip_opener s.
Proof.
  unfold sub.
  destruct (startswith s (py "```")) eqn:Hs.
  - rewrite (startswith_app _ _ Hs). set (t := drop (length (py "```")) s).
    rewrite strip_opener_fence.
    change (py "```" ++ t) with (TICK :: TICK :: TICK :: t).
    cbn [scan].
    change (TICK :: TICK :: TICK :: t) with (py "```" ++ t).
    rewrite fence_open_match. cbn [Nat.add scan].
    rewrite (scan_skip_drop _ _ _ _ _ (opener_tail_le t)). cbn [Nat.add].
    rewrite (scan_no_match _ fence_open_only_at_start). reflexivity.
  - unfold strip_opener. rewrite Hs.
    assert (Hno : match_at fence_open_re 0 s = None).
    { unfold match_at, fence_open_re. cbn [mt Nat.eqb]. now apply mt_lit_none. }
    destruct s as [|x s]; cbn [scan]; rewrite Hno; [reflexivity|].
    rewrite (scan_no_match _ fence_open_only_at_start). reflexivity.
Qed.

Section Greedy.
Context {R : Type}.
Implicit Types (k : @cont R) (s : pystr) (c : caps).

Lemma rep_opt_inv p g k pos s c r :
  rep p g k 0 (Some 1%nat) pos s c = Some r ->
  k pos s c = Some r \/
  exists x s', s = x :: s' /\ p x = true /\ k (S pos) s' c = Some r.
Proof.
  destruct s as [|x s]; cbn [rep stop_here]; [now left|].
  destruct (p x) eqn:Hx; cbn [andb more_allowed pred dec_hi]; [|now left].
  assert (Hin : rep p g k 0 (Some 0%nat) (S pos) s c = k (S pos) s c).
  { destruct s as [|y s]; cbn [rep stop_here more_allowed]; [reflexivity|].
    now rewrite andb_false_r. }
  rewrite Hin. destruct g.
  - destruct (k (S pos) s c) as [r'|] eqn:Hk.
    + intros H. inversion H; subst. right. eauto.
    + now left.
  - destruct (k pos (x :: s) c) as [r'|] eqn:Hk.
    + intros H. inversion H; subst. now left.
    + intros H. right. eauto.
Qed.

(** A greedy star gives back a character only when the rest did not match
    with it taken. *)
Lemma rep_greedy_inv p k : forall s pos c r,
  rep p true k 0 None pos s c = Some r ->
  exists run s', s = run ++ s' /\ forallb p run = true /\
    k (pos + length run)%nat s' c = Some r /\
    forall x s'', s' = x :: s'' -> p x = true ->
      rep p true k 0 None (S (pos + length run)) s'' c = None.
Proof.
  induction s as [|x s IH]; intros pos c r H; cbn [rep stop_here] in H.
  - exists [], []. cbn [length app forallb]. rewrite Nat.add_0_r.
    repeat split; [assumption|]. intros ? ? E. discriminate E.
  - destruct (p x) eqn:Hx; cbn [andb more_allowed pred dec_hi] in H.
    + destruct (rep p true k 0 None (S pos) s c) as [r'|] eqn:Hr.
      * inversion H; subst r'.
        destruct (IH _ _ _ Hr) as (run & s' & -> & Hrun & Hk & Hmax).
        exists (x :: run), s'. cbn [forallb app length]. rewrite Hx, Hrun.
        replace (pos + S (length run))%nat with (S pos + length run)%nat by lia.
        repeat split; assumption.
      * exists [], (x :: s). cbn [length app forallb]. rewrite Nat.add_0_r.
        repeat split; [assumption|]. intros x' s'' E _. now inversion E; subst.
    + exists [], (x :: s). cbn [length app forallb]. rewrite Nat.add_0_r.
      repeat split; [assumption|]. intros x' s'' E Hx'. inversion E; subst.
      congruence.
Qed.
End Greedy.

(** A match of the closer pattern runs to the end of the text. *)
Lemma fence_close_match_inv pos t n c :
  match_at fence_close_re pos t = Some (n, c) ->
  n = length t /\ is_closer t.
Proof.
  unfold match_at, fence_close_re, star, opt. cbn [mt]. intros H.
  assert (Hrest : forall pos1 t1,
            mt (lit (py "```"))
               (rep isspace true
                  (fun pos2 s2 c2 =>
                     match s2 with
                     | [] => Some ((pos2 - pos)%nat, c2)
                     | [x] => if x =? NL then Some ((pos2 - pos)%nat, c2) else None
                     | _ :: _ :: _ => None
                     end) 0 None) pos1 t1 [] = Some (n, c) ->
            exists ws, t1 = py "```" ++ ws /\ forallb isspace ws = true /\
              n = (pos1 + length t1 - pos)%nat).
  { intros pos1 t1 H1. apply mt_lit_inv in H1 as (t2 & -> & H1).
    apply rep_greedy_inv in H1 as (ws & s' & -> & Hws & Hk & Hmax).
    destruct s' as [|x [|y s']]; [| |discriminate Hk].
    - exists ws. rewrite app_nil_r. split; [reflexivity|]. split; [assumption|].
      injection Hk as <- <-. rewrite length_app.
      change (length (py "```")) with 3%nat. lia.
    - destruct (x =? NL) eqn:E; [|discriminate Hk].
      apply N.eqb_eq in E. subst x.
      specialize (Hmax NL [] eq_refl eq_refl). discriminate Hmax. }
  apply rep_opt_inv in H as [H|(x & t1 & -> & Hx & H)].
  - apply Hrest in H as (ws & -> & Hws & ->). split; [lia|].
    exists [], ws. auto.
  - apply Hrest in H as (ws & -> & Hws & ->). split; [cbn [length]; lia|].
    unfold only in Hx. apply N.eqb_eq in Hx. subst x.
    exists [NL], ws. auto.
Qed.

Lemma is_closer_nonempty t : is_closer t -> t <> [].
Proof. intros (nl & ws & -> & _). now destruct nl. Qed.

(** With a pattern whose matches run to the end of the text, the scanner
    finds at most one match, and that one is a suffix. *)
Lemma scan_to_end r :
  (forall pos t n c, match_at r pos t = Some (n, c) -> n = length t /\ t <> []) ->
  forall s pos acc,
    scan r pos 0 acc s = ([], rev acc ++ s) \/
    exists pre t c, s = pre ++ t /\
      match_at r (pos + length pre) t = Some (length t, c) /\
      scan r pos 0 acc s = ([(rev acc ++ pre, c)], []).
Proof.
  intros Hend.
  assert (Hnil : forall pos, match_at r pos [] = None).
  { intros pos. destruct (match_at r pos []) as [[n c]|] eqn:E; [|reflexivity].
    now apply Hend in E as [_ E]. }
  induction s as [|x s IH]; intros pos acc; cbn [scan].
  - rewrite Hnil. left. now rewrite app_nil_r.
  - destruct (match_at r pos (x :: s)) as [[n c]|] eqn:Hm.
    + right. exists [], (x :: s), c. pose proof Hm as Hm'.
      apply Hend in Hm' as [-> _]. cbn [length app]. rewrite Nat.add_0_r.
      split; [reflexivity|]. split; [assumption|].
      rewrite (scan_skip_drop r (length s) s (S pos) [] (le_n _)).
      rewrite drop_all. cbn [scan]. rewrite Hnil. cbn [rev].
      now rewrite app_nil_r.
    + destruct (IH (S pos) (x :: acc)) as [E|(pre & t & c & -> & Hm' & E)].
      * left. rewrite E. cbn [rev]. now rewrite <- app_assoc.
      * right. exists (x :: pre), t, c. split; [reflexivity|].
        cbn [length]. replace (pos + S (length pre))%nat
          with (S pos + length pre)%nat by lia.
        split; [assumption|]. rewrite E. cbn [rev]. now rewrite <- app_assoc.
Qed.

(** The second substitution of [section_step] removes at most one closer, at
    the end of the text. *)
Lemma sub_fence_close s :
  exists removed, s = sub fence_close_re [] s ++ removed /\
    (removed = [] \/ is_closer removed).
Proof.
  unfold sub.
  destruct (scan_to_end fence_close_re) with (s := s) (pos := 0%nat)
    (acc := @nil N) as [E|(pre & t & c & -> & Hm & E)].
  - intros pos t n c H. apply fence_close_match_inv in H as [-> Hc].
    split; [reflexivity|now apply is_closer_nonempty].
  - rewrite E. exists []. cbn. rewrite app_nil_r. auto.
  - rewrite E. exists t. cbn. rewrite !app_nil_r. split; [reflexivity|].
    right. now apply fence_close_match_inv in Hm as [_ Hc].
Qed.

(** ** The extractor never fails and never returns an empty mapping *)

Lemma py_range_odd_lt (n i : nat) : In i (py_range 1 n 2) -> (i < n)%nat.
Proof.
  unfold py_range. rewrite in_map_iff. intros (k & <- & Hk).
  apply in_seq in Hk. destruct Hk as [_ Hk]. rewrite Nat.add_0_l in Hk.
  destruct n as [|n]; [vm_compute in Hk; lia|].
  replace (S n - 1 + 2 - 1)%nat with (S n) in Hk by lia.
  pose proof (Nat.Div0.mul_div_le (S n) 2). lia.
Qed.

Lemma getitem_lt {A} (l : list A) (i : nat) :
  (i < length l)%nat -> exists x, getitem l i = Ok x.
Proof.
  intros H. unfold getitem.
  destruct (lookup_lt_is_Some_2 l i H) as [x ->]. eauto.
Qed.

Lemma section_step_ok parts i files :
  (i < length parts)%nat -> exists d, section_step parts i files = Ok d.
Proof.
  intros Hi. unfold section_step.
  destruct (getitem_lt parts i Hi) as [p ->]. cbn [bind].
  destruct (i + 1 <? length parts)%nat eqn:Hn.
  - apply Nat.ltb_lt in Hn.
    destruct (getitem_lt parts (i + 1) Hn) as [q ->]. cbn [bind].
    destruct (strip p); [eauto|].
    destruct (sub fence_close_re _ _); eauto.
  - cbn [bind]. destruct (strip p); [eauto|].
    destruct (sub fence_close_re _ _); eauto.
Qed.

Lemma section_loop_ok parts idx : forall files,
  (forall i, In i idx -> (i < length parts)%nat) ->
  exists d, section_loop parts idx files = Ok d.
Proof.
  induction idx as [|i idx IH]; intros files Hidx; cbn [section_loop].
  - eauto.
  - destruct (section_step_ok parts i files) as [d ->];
      [apply Hidx; now left|].
    cbn [bind]. apply IH. intros j Hj. apply Hidx. now right.
Qed.

Lemma parse_sections_ok content files :
  exists d, parse_sections content files = Ok d.
Proof.
  unfold parse_sections. destruct (1 <? _)%nat; [|eauto].
  apply section_loop_ok. intros i. apply py_range_odd_lt.
Qed.

Lemma dict_set_nonempty k v d : dict_set k v d <> [].
Proof. destruct d as [|[k' v'] d]; cbn; [|destruct (pystr_eqb k' k)]; discriminate. Qed.

Lemma is_empty_true {A} (l : list A) : is_empty l = true -> l = [].
Proof. now destruct l. Qed.

Lemma is_empty_false {A} (l : list A) : is_empty l = false -> l <> [].
Proof. now destruct l. Qed.

(** What [parse_response] returns, by the strategy that wins. *)
Lemma parse_response_cases content d :
  parse_sections content [] = Ok d ->
  parse_response content =
    if is_empty d then
      if is_empty (parse_blocks heading_re content []) then
        if is_empty (parse_blocks bold_re content []) then
          Ok ([(py "index.html", content)], [WarnUnparsed])
        else Ok (parse_blocks bold_re content [], [])
      else Ok (parse_blocks heading_re content [], [])
    else Ok (d, []).
Proof.
  intros Hd. unfold parse_response. rewrite Hd. cbn [bind].
  destruct d as [|e d]; cbn [is_empty]; [|reflexivity].
  destruct (parse_blocks heading_re content []) as [|e1 d1] eqn:H1;
    cbn [is_empty]; [|reflexivity].
  destruct (parse_blocks bold_re content []) as [|e2 d2] eqn:H2;
    cbn [is_empty]; reflexivity.
Qed.

(** C2. The extractor is total: on every input string [parse_response]
    returns (it raises nothing) and the mapping it returns has at least one
    entry. *)
Theorem parse_response_total (content : pystr) :
  exists files warnings,
    parse_response content = Ok (files, warnings) /\ files <> [].
Proof.
  destruct (parse_sections_ok content []) as [d Hd].
  rewrite (parse_response_cases content d Hd).
  destruct (is_empty d) eqn:E0.
  - destruct (is_empty (parse_blocks heading_re content [])) eqn:E1.
    + destruct (is_empty (parse_blocks bold_re content [])) eqn:E2.
      * eexists _, _. split; [reflexivity|discriminate].
      * eexists _, _. split; [reflexivity|]. now apply is_empty_false.
    + eexists _, _. split; [reflexivity|]. now apply is_empty_false.
  - eexists _, _. split; [reflexivity|]. now apply is_empty_false.
Qed.

(** ** Strategy priority *)

(** C5. Strict priority with early termination: when the delimited-section
    strategy yields at least one entry, the result is exactly the mapping
    that strategy built, and no warning is printed; the heading, bold-label
    and fallback strategies add nothing, whatever else the text contains. *)
Theorem sections_win (content : pystr) (d : dict) :
  parse_sections content [] = Ok d ->
  d <> [] ->
  parse_response content = Ok (d, []).
Proof.
  intros Hd Hne. rewrite (parse_response_cases content d Hd).
  destruct d; [contradiction|reflexivity].
Qed.

Lemma sections_win_witness :
  parse_blocks heading_re mixed_text [] = [(py "b.css", py "x")] /\
  parse_response mixed_text =
    Ok ([(py "a.txt", py "hello
### b.css
```css
x")], []).
Proof.
  split; [vm_compute; reflexivity|].
  apply (sections_win mixed_text); [vm_compute; reflexivity|discriminate].
Defined.

(** ** The unconditional fallback *)

(** C7. When none of the three pattern strategies produces an entry, the
    result is the single entry [index.html] holding the input verbatim, and
    the warning is printed exactly once; when some strategy produces an
    entry, the result is non-empty and nothing is printed. *)
Theorem fallback_exactly_when_nothing_matches (content : pystr) :
  (parse_sections content [] = Ok [] ->
   parse_blocks heading_re content [] = [] ->
   parse_blocks bold_re content [] = [] ->
   parse_response content =
     Ok ([(py "index.html", content)], [WarnUnparsed]))
  /\
  (forall d,
     parse_sections content [] = Ok d ->
     d <> [] \/ parse_blocks heading_re content [] <> []
       \/ parse_blocks bold_re content [] <> [] ->
     exists files,
       parse_response content = Ok (files, []) /\ files <> []).
Proof.
  split.
  - intros H0 H1 H2. rewrite (parse_response_cases content [] H0).
    rewrite H1, H2. reflexivity.
  - intros d Hd Hsome. rewrite (parse_response_cases content d Hd).
    destruct (is_empty d) eqn:E0.
    + apply is_empty_true in E0. subst d.
      destruct (is_empty (parse_blocks heading_re content [])) eqn:E1.
      * apply is_empty_true in E1.
        destruct (is_empty (parse_blocks bold_re content [])) eqn:E2.
        -- apply is_empty_true in E2. rewrite E1, E2 in Hsome.
           destruct Hsome as [?|[?|?]]; contradiction.
        -- eexists. split; [reflexivity|]. now apply is_empty_false.
      * eexists. split; [reflexivity|]. now apply is_empty_false.
    + eexists. split; [reflexivity|]. now apply is_empty_false.
Qed.

Lemma fallback_exactly_when_nothing_matches_witness :
  parse_response plain_text = Ok ([(py "index.html", plain_text)], [WarnUnparsed])
  /\ exists files, parse_response bold_text = Ok (files, []) /\ files <> [].
Proof.
  split.
  - apply (proj1 (fallback_exactly_when_nothing_matches plain_text));
      vm_compute; reflexivity.
  - apply (proj2 (fallback_exactly_when_nothing_matches bold_text) []).
    + vm_compute; reflexivity.
    + right. right. vm_compute. discriminate.
Defined.

(** ** The empty input and empty contents *)

(** An entry of the heading strategy with empty content. *)
Lemma pattern_entry_with_empty_content :
  parse_sections empty_heading_block [] = Ok [] /\
  parse_blocks heading_re empty_heading_block [] = [(py "a.b", [])] /\
  parse_response empty_heading_block = Ok ([(py "a.b", [])], []).
Proof. repeat split; vm_compute; reflexivity. Qed.

(** C9 (amended). On the empty input [parse_response] returns exactly the
    one entry [index.html] with empty content, with the warning: the default
    file name is [index.html] and the fallback entry may be empty.  Contents
    of the heading and bold-label strategies may be empty as well: each
    stores the trimmed interior of the fenced block, and an empty block
    gives an empty content. *)
Theorem empty_input_and_empty_contents :
  parse_response [] = Ok ([(py "index.html", [])], [WarnUnparsed]) /\
  parse_response empty_heading_block = Ok ([(py "a.b", [])], []) /\
  parse_response empty_bold_block = Ok ([(py "a.b", [])], []).
Proof. repeat split; vm_compute; reflexivity. Qed.

(** ** Writing: unsafe names *)

Lemma write_loop_app pre : forall post written out w,
  write_loop (pre ++ post) written out w =
    match write_loop pre written out w with
    | (w1, out1, Ok written1) => write_loop post written1 out1 w1
    | (w1, out1, Raise e) => (w1, out1, Raise e)
    end.
Proof.
  induction pre as [|[f c] pre IH]; intros post written out w;
    cbn [write_loop app]; [reflexivity|].
  destruct (write_entry f c w) as [[w' o] [[clean|]|e]]; auto.
Qed.

(** C1 (what the code does on an absolute name). The section name
    [/etc/passwd] comes out of the extractor unchanged, its normal form does
    not begin with [..], and [write_files] creates [/etc/passwd], which is
    not below the working directory [/srv/site]. *)
Theorem absolute_name_written_outside_root :
  parse_response (py "=== /etc/passwd ===
root") = Ok ([(py "/etc/passwd", py "root")], []) /\
  let '(w, out, r) := write_files [(py "/etc/passwd", py "root")] site in
  r = Ok [py "/etc/passwd"] /\
  out = [Written (py "/etc/passwd") 4] /\
  tree w !! [py "etc"; py "passwd"] = Some (File (py "root")) /\
  tree site !! [py "etc"; py "passwd"] = None /\
  ~ inside (cwd site) [py "etc"; py "passwd"].
Proof.
  split; [vm_compute; reflexivity|].
  vm_compute. repeat split; try reflexivity.
  intros [k Hk]. discriminate Hk.
Qed.

Lemma write_entry_skips filename content w :
  startswith (normpath filename) (py "..") = true ->
  write_entry filename content w = (w, [SkipUnsafe filename], Ok None).
Proof. intros H. unfold write_entry. now rewrite H. Qed.

Lemma write_loop_without_skipped items : forall written out out' w,
  (write_loop items written out w).1.1 =
    (write_loop (List.filter passes_check items) written out' w).1.1 /\
  (write_loop items written out w).2 =
    (write_loop (List.filter passes_check items) written out' w).2.
Proof.
  induction items as [|[f c] items IH]; intros written out out' w;
    cbn [write_loop List.filter]; [auto|].
  assert (Hp : passes_check (f, c) = negb (startswith (normpath f) (py "..")))
    by reflexivity.
  rewrite Hp.
  destruct (startswith (normpath f) (py "..")) eqn:Hf; cbn [negb].
  - rewrite (write_entry_skips f c w Hf). apply IH.
  - cbn [write_loop].
    destruct (write_entry f c w) as [[w' o] [[clean|]|e]]; cbn; auto.
Qed.

(** C10. The path check is a test on the first two characters of the
    normalized name: an entry whose [normpath] form begins with [..] prints
    the skip notice and leaves the file system as it was, so the files and
    the list of written names are those of the mapping without such entries.
    The test also rejects names that do not leave the root: [..config] names
    a file directly in the working directory and is skipped. *)
Theorem dotdot_prefix_is_skipped :
  (forall filename content w,
     startswith (normpath filename) (py "..") = true ->
     write_entry filename content w = (w, [SkipUnsafe filename], Ok None))
  /\
  (forall files w,
     (write_files files w).1.1 =
       (write_files (List.filter passes_check files) w).1.1 /\
     (write_files files w).2 =
       (write_files (List.filter passes_check files) w).2)
  /\
  (forall content w,
     write_entry (py "..config") content w
       = (w, [SkipUnsafe (py "..config")], Ok None) /\
     resolve (cwd w) (normpath (py "..config")) = cwd w ++ [py "..config"] /\
     inside (cwd w) (resolve (cwd w) (normpath (py "..config")))).
Proof.
  split; [exact write_entry_skips|]. split.
  - intros files w. apply write_loop_without_skipped.
  - intros content w. split; [now apply write_entry_skips|].
    assert (E : resolve (cwd w) (normpath (py "..config"))
                = cwd w ++ [py "..config"]) by reflexivity.
    split; [exact E|]. rewrite E. now exists [py "..config"].
Qed.

Lemma dotdot_prefix_is_skipped_witness :
  startswith (normpath (py "../../etc/passwd")) (py "..") = true /\
  write_entry (py "../../etc/passwd") (py "root") site
    = (site, [SkipUnsafe (py "../../etc/passwd")], Ok None).
Proof.
  split; [reflexivity|].
  apply (proj1 dotdot_prefix_is_skipped). reflexivity.
Defined.

(** ** Writing: an I/O failure ends the loop *)

(** The second entry fails, and the third, which could be written, is not
    attempted: no file, no line of output. *)
Lemma later_entry_not_attempted :
  let '(w, out, r) := write_files clash site in
  r = Raise FileExistsError /\
  out = [Written (py "a") 1] /\
  tree w !! (cwd site ++ [py "c"]) = None /\
  (write_entry (py "c") (py "z") w).2 = Ok (Some (py "c")).
Proof. vm_compute. repeat split; reflexivity. Qed.


(** ** Writing twice *)

Lemma same_kind_refl n : same_kind n n.
Proof. now destruct n. Qed.

Lemma same_kind_trans a b c : same_kind a b -> same_kind b c -> same_kind a c.
Proof. destruct a, b, c; simpl; tauto. Qed.

Lemma keeps_refl t : keeps t t.
Proof. intros q n H. exists n. split; [assumption|apply same_kind_refl]. Qed.

Lemma keeps_trans t1 t2 t3 : keeps t1 t2 -> keeps t2 t3 -> keeps t1 t3.
Proof.
  intros H12 H23 q n H. destruct (H12 q n H) as (n2 & H2 & K2).
  destruct (H23 q n2 H2) as (n3 & H3 & K3). exists n3. split; [assumption|].
  eapply same_kind_trans; eassumption.
Qed.

Lemma keeps_dir t t' q : keeps t t' -> t !! q = Some Dir -> t' !! q = Some Dir.
Proof.
  intros K H. destruct (K q Dir H) as (n' & H' & S'). now destruct n'.
Qed.

Lemma keeps_file t t' q d :
  keeps t t' -> t !! q = Some (File d) -> exists d', t' !! q = Some (File d').
Proof.
  intros K H. destruct (K q _ H) as (n' & H' & S'). destruct n'; [eauto|contradiction].
Qed.

Lemma keeps_insert_file (t : gmap path node) p d :
  t !! p <> Some Dir -> keeps t (<[p := File d]> t).
Proof.
  intros Hp q n Hq. destruct (decide (p = q)) as [->|Hne].
  - rewrite lookup_insert_eq. exists (File d). split; [reflexivity|].
    destruct n; [exact I|contradiction].
  - rewrite lookup_insert_ne by assumption. exists n. split; [assumption|apply same_kind_refl].
Qed.

Lemma mkdirs_preserves todo : forall dir t t' e,
  mkdirs dir todo t = (t', e) ->
  forall q n, t !! q = Some n -> t' !! q = Some n.
Proof.
  induction todo as [|c todo IH]; intros dir t t' e H q n Hq; cbn [mkdirs] in H.
  - now inversion H; subst.
  - destruct (t !! (dir ++ [c])) as [[d|]|] eqn:Hp.
    + now inversion H; subst.
    + eapply IH; eassumption.
    + destruct (t !! dir) as [[d|]|] eqn:Hd; try (now inversion H; subst).
      eapply IH; [eassumption|].
      rewrite lookup_insert_ne; [assumption|]. intros E. subst q. congruence.
Qed.

Lemma mkdirs_keeps todo dir t t' e : mkdirs dir todo t = (t', e) -> keeps t t'.
Proof.
  intros H q n Hq. exists n. split; [|apply same_kind_refl].
  eapply mkdirs_preserves; eassumption.
Qed.

Lemma mkdirs_again todo : forall dir t t',
  mkdirs dir todo t = (t', None) ->
  forall t2, keeps t' t2 -> mkdirs dir todo t2 = (t2, None).
Proof.
  induction todo as [|c todo IH]; intros dir t t' H t2 K; cbn [mkdirs] in *.
  - reflexivity.
  - assert (Hdir : t' !! (dir ++ [c]) = Some Dir).
    { destruct (t !! (dir ++ [c])) as [[d|]|] eqn:Hp.
      - discriminate H.
      - eapply mkdirs_preserves; eassumption.
      - destruct (t !! dir) as [[d|]|]; try discriminate H.
        eapply mkdirs_preserves; [eassumption|]. apply lookup_insert_eq. }
    rewrite (keeps_dir _ _ _ K Hdir).
    destruct (t !! (dir ++ [c])) as [[d|]|] eqn:Hp.
    + discriminate H.
    + eapply IH; eassumption.
    + destruct (t !! dir) as [[d|]|]; try discriminate H.
      eapply IH; eassumption.
Qed.

Lemma open_write_inv name d w w' :
  open_write name d w = Ok w' ->
  w' = set_tree (<[resolve (cwd w) name := File d]> (tree w)) w /\
  tree w !! resolve (cwd w) name <> Some Dir /\
  tree w !! removelast (resolve (cwd w) name) = Some Dir.
Proof.
  unfold open_write. intros H.
  destruct (tree w !! resolve (cwd w) name) as [[d0|]|] eqn:Hp;
    try discriminate H;
    destruct (tree w !! removelast (resolve (cwd w) name)) as [[d1|]|] eqn:Hd;
    try discriminate H; inversion H; subst; repeat split; congruence.
Qed.

Lemma open_write_again name d w w' w2 :
  open_write name d w = Ok w' ->
  cwd w2 = cwd w -> keeps (tree w') (tree w2) ->
  open_write name d w2
    = Ok (set_tree (<[resolve (cwd w) name := File d]> (tree w2)) w2).
Proof.
  intros H Hc K. apply open_write_inv in H. destruct H as (-> & Hnd & Hpar).
  cbn [tree set_tree] in K. unfold open_write. rewrite Hc.
  set (p := resolve (cwd w) name) in *.
  destruct (keeps_file _ _ p d K (lookup_insert_eq _ _ _)) as [d' ->].
  assert (Hne : p <> removelast p) by (intros E; rewrite <- E in Hpar; contradiction).
  assert (Hpar' : <[p := File d]> (tree w) !! removelast p = Some Dir)
    by (rewrite lookup_insert_ne; assumption).
  now rewrite (keeps_dir _ _ _ K Hpar').
Qed.

Lemma set_tree_id w : set_tree (tree w) w = w.
Proof. now destruct w. Qed.

Lemma write_entry_passes f c w :
  startswith (normpath f) (py "..") = false ->
  write_entry f c w =
    let '(t1, e) := prepare f w in
    match e with
    | Some e => (set_tree t1 w, [], Raise e)
    | None =>
        match open_write (normpath f) c (set_tree t1 w) with
        | Raise e => (set_tree t1 w, [], Raise e)
        | Ok w2 => (w2, [Written (normpath f) (length c)], Ok (Some (normpath f)))
        end
    end.
Proof.
  intros H. unfold write_entry, prepare, makedirs. rewrite H.
  destruct (is_empty (dirname (normpath f))).
  - now rewrite set_tree_id.
  - now destruct (mkdirs _ _ _) as [t1 [e|]].
Qed.

Lemma prepare_preserves f w t1 e q n :
  prepare f w = (t1, e) -> tree w !! q = Some n -> t1 !! q = Some n.
Proof.
  unfold prepare. destruct (is_empty _).
  - intros H; now inversion H.
  - intros H. eapply mkdirs_preserves; eassumption.
Qed.

Lemma prepare_again f w t1 w2 :
  prepare f w = (t1, None) ->
  cwd w2 = cwd w -> keeps t1 (tree w2) ->
  prepare f w2 = (tree w2, None).
Proof.
  unfold prepare. intros H Hc K. rewrite Hc. destruct (is_empty _).
  - reflexivity.
  - eapply mkdirs_again; eassumption.
Qed.

(** What an entry does, case by case. *)
Lemma write_entry_inv f c w w' o r :
  write_entry f c w = (w', o, r) ->
  (target (cwd w) (f, c) = None /\ w' = w /\ o = [SkipUnsafe f] /\ r = Ok None)
  \/
  (exists t1 e,
     target (cwd w) (f, c) = Some (resolve (cwd w) (normpath f), c) /\
     prepare f w = (t1, e) /\
     match e with
     | Some e => w' = set_tree t1 w /\ o = [] /\ r = Raise e
     | None =>
         match open_write (normpath f) c (set_tree t1 w) with
         | Raise e => w' = set_tree t1 w /\ o = [] /\ r = Raise e
         | Ok w2 => w' = w2 /\ o = [Written (normpath f) (length c)]
                    /\ r = Ok (Some (normpath f))
         end
     end).
Proof.
  unfold target. cbn [fst snd].
  destruct (startswith (normpath f) (py "..")) eqn:Hs.
  - rewrite (write_entry_skips f c w Hs). intros H; inversion H; subst. now left.
  - rewrite (write_entry_passes f c w Hs).
    destruct (prepare f w) as [t1 [e|]] eqn:Hp.
    + intros H; inversion H; subst. right. exists t1, (Some e). auto.
    + destruct (open_write (normpath f) c (set_tree t1 w)) as [w2|e] eqn:Ho;
        intros H; inversion H; subst; right; exists t1, None; rewrite Ho; auto.
Qed.

Lemma write_entry_cwd f c w w' o r :
  write_entry f c w = (w', o, r) -> cwd w' = cwd w.
Proof.
  intros H. apply write_entry_inv in H.
  destruct H as [(_ & -> & _)|(t1 & e & _ & Hp & H)]; [reflexivity|].
  destruct e as [e|].
  - now destruct H as (-> & _).
  - destruct (open_write _ _ _) as [w2|e] eqn:Ho.
    + apply open_write_inv in Ho. destruct Ho as (E & _). destruct H as (-> & _).
      now rewrite E.
    + now destruct H as (-> & _).
Qed.

(** An entry changes no existing node except the file it writes. *)
Lemma write_entry_preserves f c w w' o r q n :
  write_entry f c w = (w', o, r) ->
  tree w !! q = Some n ->
  (forall d, target (cwd w) (f, c) <> Some (q, d)) ->
  tree w' !! q = Some n.
Proof.
  intros H Hq Hne. apply write_entry_inv in H.
  destruct H as [(_ & -> & _)|(t1 & e & Ht & Hp & H)]; [assumption|].
  pose proof (prepare_preserves _ _ _ _ _ _ Hp Hq) as Hq1.
  destruct e as [e|]; [now destruct H as (-> & _)|].
  destruct (open_write _ _ _) as [w2|e] eqn:Ho; [|now destruct H as (-> & _)].
  apply open_write_inv in Ho. destruct Ho as (E & _). destruct H as (-> & _).
  rewrite E. cbn [tree set_tree cwd]. rewrite lookup_insert_ne; [assumption|].
  intros Eq. apply (Hne c). rewrite Ht. now rewrite Eq.
Qed.

Lemma write_entry_keeps f c w w' o r :
  write_entry f c w = (w', o, r) -> keeps (tree w) (tree w').
Proof.
  intros H. apply write_entry_inv in H.
  destruct H as [(_ & -> & _)|(t1 & e & Ht & Hp & H)]; [apply keeps_refl|].
  assert (K1 : keeps (tree w) t1).
  { intros q n Hq. exists n. split; [|apply same_kind_refl].
    eapply prepare_preserves; eassumption. }
  destruct e as [e|]; [now destruct H as (-> & _)|].
  destruct (open_write _ _ _) as [w2|e] eqn:Ho; [|now destruct H as (-> & _)].
  apply open_write_inv in Ho. destruct Ho as (E & Hnd & _). destruct H as (-> & _).
  rewrite E. cbn [tree set_tree cwd] in *.
  eapply keeps_trans; [exact K1|]. now apply keeps_insert_file.
Qed.

(** A written entry leaves its content at its target. *)
Lemma write_entry_written f c w w' o r p d :
  write_entry f c w = (w', o, Ok r) ->
  target (cwd w) (f, c) = Some (p, d) ->
  tree w' !! p = Some (File d).
Proof.
  intros H Ht. apply write_entry_inv in H.
  destruct H as [(Hn & _)|(t1 & e & Ht' & Hp & H)]; [congruence|].
  rewrite Ht in Ht'. inversion Ht'; subst p d.
  destruct e as [e|]; [now destruct H as (_ & _ & ?)|].
  destruct (open_write _ _ _) as [w2|e] eqn:Ho; [|now destruct H as (_ & _ & ?)].
  apply open_write_inv in Ho. destruct Ho as (E & _). destruct H as (-> & _).
  rewrite E. cbn [tree set_tree cwd]. apply lookup_insert_eq.
Qed.

(** Once an entry has gone through, it goes through again in every later
    state of the tree, and then only stores its content. *)
Lemma write_entry_again f c w w' o r w2 :
  write_entry f c w = (w', o, Ok r) ->
  cwd w2 = cwd w -> keeps (tree w') (tree w2) ->
  write_entry f c w2
    = (set_tree (put_opt (tree w2) (target (cwd w) (f, c))) w2, o, Ok r).
Proof.
  intros H Hc K. apply write_entry_inv in H.
  destruct H as [(Hn & -> & -> & Hr)|(t1 & e & Ht & Hp & H)].
  - rewrite Hn. cbn [put_opt]. rewrite set_tree_id.
    unfold target in Hn. cbn [fst] in Hn.
    destruct (startswith (normpath f) (py "..")) eqn:Hs; [|discriminate Hn].
    rewrite (write_entry_skips f c w2 Hs). congruence.
  - rewrite Ht. cbn [put_opt put fst snd].
    assert (Hs : startswith (normpath f) (py "..") = false).
    { unfold target in Ht. cbn [fst] in Ht.
      now destruct (startswith (normpath f) (py "..")). }
    rewrite (write_entry_passes f c w2 Hs).
    destruct e as [e|]; [now destruct H as (_ & _ & ?)|].
    destruct (open_write _ _ _) as [w3|e] eqn:Ho; [|now destruct H as (_ & _ & ?)].
    destruct H as (-> & -> & Hr). inversion Hr; subst r.
    assert (K1 : keeps t1 (tree w2)).
    { eapply keeps_trans; [|exact K].
      pose proof (open_write_inv _ _ _ _ Ho) as (E & Hnd & _).
      rewrite E. cbn [tree set_tree cwd] in *. now apply keeps_insert_file. }
    rewrite (prepare_again f w t1 w2 Hp Hc K1). rewrite set_tree_id.
    rewrite (open_write_again _ _ _ _ w2 Ho); [reflexivity|assumption|assumption].
Qed.

Lemma replay_lookup ws : forall t q,
  replay ws t !! q =
    match last_write ws q with
    | Some d => Some (File d)
    | None => t !! q
    end.
Proof.
  induction ws as [|[p d] ws IH]; intros t q; cbn [replay foldl last_write].
  - reflexivity.
  - fold (replay ws (put t (p, d))). rewrite IH.
    destruct (last_write ws q); [reflexivity|].
    unfold put. cbn [fst snd]. destruct (decide (p = q)) as [->|Hne].
    + apply lookup_insert_eq.
    + now apply lookup_insert_ne.
Qed.

Lemma writes_cons cwd f c rest :
  writes cwd ((f, c) :: rest) =
    match target cwd (f, c) with
    | Some x => x :: writes cwd rest
    | None => writes cwd rest
    end.
Proof. reflexivity. Qed.

Lemma write_loop_cwd items : forall wr o w w' o' r,
  write_loop items wr o w = (w', o', r) -> cwd w' = cwd w.
Proof.
  induction items as [|[f c] items IH]; intros wr o w w' o' r H;
    cbn [write_loop] in H.
  - now inversion H.
  - destruct (write_entry f c w) as [[w1 o1] r1] eqn:He.
    pose proof (write_entry_cwd _ _ _ _ _ _ He) as Hc.
    destruct r1 as [[clean|]|e].
    + apply IH in H. congruence.
    + apply IH in H. congruence.
    + inversion H; subst. assumption.
Qed.

Lemma write_loop_keeps items : forall wr o w w' o' r,
  write_loop items wr o w = (w', o', r) -> keeps (tree w) (tree w').
Proof.
  induction items as [|[f c] items IH]; intros wr o w w' o' r H;
    cbn [write_loop] in H.
  - inversion H; subst. apply keeps_refl.
  - destruct (write_entry f c w) as [[w1 o1] r1] eqn:He.
    pose proof (write_entry_keeps _ _ _ _ _ _ He) as K.
    destruct r1 as [[clean|]|e].
    + apply IH in H. eapply keeps_trans; eassumption.
    + apply IH in H. eapply keeps_trans; eassumption.
    + inversion H; subst. assumption.
Qed.

(** Nodes that no entry targets keep their value through a successful run. *)
Lemma write_loop_frame items : forall wr o w w' o' r q n,
  write_loop items wr o w = (w', o', r) ->
  tree w !! q = Some n ->
  last_write (writes (cwd w) items) q = None ->
  tree w' !! q = Some n.
Proof.
  induction items as [|[f c] items IH]; intros wr o w w' o' r q n H Hq Hl;
    cbn [write_loop] in H.
  - now inversion H; subst.
  - destruct (write_entry f c w) as [[w1 o1] r1] eqn:He.
    pose proof (write_entry_cwd _ _ _ _ _ _ He) as Hc.
    rewrite writes_cons in Hl.
    assert (Hrest : last_write (writes (cwd w1) items) q = None).
    { rewrite Hc. destruct (target (cwd w) (f, c)) as [[p d]|]; [|assumption].
      cbn [last_write] in Hl. now destruct (last_write _ q). }
    assert (Hnt : forall d, target (cwd w) (f, c) <> Some (q, d)).
    { intros d Ht. rewrite Ht in Hl. cbn [last_write] in Hl.
      destruct (last_write _ q); [discriminate Hl|].
      now destruct (decide (q = q)). }
    pose proof (write_entry_preserves _ _ _ _ _ _ _ _ He Hq Hnt) as Hq1.
    destruct r1 as [[clean|]|e].
    + eapply IH; eassumption.
    + eapply IH; eassumption.
    + now inversion H; subst.
Qed.

(** After a successful run every target holds what was last written to it. *)
Lemma write_loop_last items : forall wr o w w' o' wr' q d,
  write_loop items wr o w = (w', o', Ok wr') ->
  last_write (writes (cwd w) items) q = Some d ->
  tree w' !! q = Some (File d).
Proof.
  induction items as [|[f c] items IH]; intros wr o w w' o' wr' q d H Hl;
    cbn [write_loop] in H.
  - discriminate Hl.
  - destruct (write_entry f c w) as [[w1 o1] r1] eqn:He.
    pose proof (write_entry_cwd _ _ _ _ _ _ He) as Hc.
    rewrite writes_cons in Hl.
    assert (Hloop : exists wr1 o2,
               write_loop items wr1 o2 w1 = (w', o', Ok wr') /\
               exists r0, r1 = Ok r0).
    { destruct r1 as [[clean|]|e]; [eauto|eauto|discriminate H]. }
    destruct Hloop as (wr1 & o2 & Hloop & r0 & ->). clear H.
    destruct (last_write (writes (cwd w) items) q) as [d'|] eqn:Hrest.
    + assert (d' = d).
      { destruct (target (cwd w) (f, c)) as [[p0 d0]|]; cbn [last_write] in Hl;
          rewrite ?Hrest in Hl; congruence. }
      subst d'. eapply IH; [exact Hloop|]. now rewrite Hc.
    + destruct (target (cwd w) (f, c)) as [[p0 d0]|] eqn:Ht;
        [|rewrite Hrest in Hl; discriminate Hl].
      cbn [last_write] in Hl. rewrite Hrest in Hl.
      destruct (decide (p0 = q)) as [->|]; [|discriminate Hl].
      inversion Hl; subst d0.
      eapply write_loop_frame; [exact Hloop| |now rewrite Hc].
      eapply write_entry_written; eassumption.
Qed.

(** A run that has gone through goes through again from every later state of
    the tree, prints and returns the same, and only stores the contents. *)
Lemma write_loop_again items : forall wr o w w' o' wr' w2,
  write_loop items wr o w = (w', o', Ok wr') ->
  cwd w2 = cwd w -> keeps (tree w') (tree w2) ->
  write_loop items wr o w2
    = (set_tree (replay (writes (cwd w) items) (tree w2)) w2, o', Ok wr').
Proof.
  induction items as [|[f c] items IH]; intros wr o w w' o' wr' w2 H Hc K;
    cbn [write_loop] in *.
  - inversion H; subst. cbn. now rewrite set_tree_id.
  - destruct (write_entry f c w) as [[w1 o1] r1] eqn:He.
    pose proof (write_entry_cwd _ _ _ _ _ _ He) as Hc1.
    assert (Hloop : exists wr1,
               write_loop items wr1 (o ++ o1) w1 = (w', o', Ok wr') /\
               exists r0, r1 = Ok r0 /\
                 wr1 = match r0 with Some cl => wr ++ [cl] | None => wr end).
    { destruct r1 as [[clean|]|e]; [eauto|eauto|discriminate H]. }
    destruct Hloop as (wr1 & Hloop & r0 & -> & Hwr). clear H.
    pose proof (write_loop_keeps _ _ _ _ _ _ _ Hloop) as K1.
    assert (K12 : keeps (tree w1) (tree w2)) by (eapply keeps_trans; eassumption).
    rewrite (write_entry_again _ _ _ _ _ _ w2 He Hc K12).
    set (w2' := set_tree (put_opt (tree w2) (target (cwd w) (f, c))) w2).
    assert (K' : keeps (tree w') (tree w2')).
    { eapply keeps_trans; [exact K|]. subst w2'. cbn [tree set_tree].
      destruct (target (cwd w) (f, c)) as [[p d]|] eqn:Ht; cbn [put_opt];
        [|apply keeps_refl].
      apply keeps_insert_file. cbn [fst].
      pose proof (write_entry_written _ _ _ _ _ _ _ _ He Ht) as Hp.
      destruct (keeps_file _ _ _ _ K12 Hp) as [d' ->]. discriminate. }
    assert (Hc' : cwd w2' = cwd w1) by (subst w2'; cbn; congruence).
    pose proof (IH _ _ _ _ _ _ w2' Hloop Hc' K') as Hagain.
    rewrite writes_cons. rewrite Hc1 in Hagain.
    assert (Hrep : set_tree (replay (writes (cwd w) items) (tree w2')) w2'
                 = set_tree (replay
                     match target (cwd w) (f, c) with
                     | Some x => x :: writes (cwd w) items
                     | None => writes (cwd w) items
                     end (tree w2)) w2).
    { subst w2'. unfold set_tree. cbn [cwd tree].
      now destruct (target (cwd w) (f, c)). }
    rewrite <- Hrep.
    destruct r0 as [cl|]; subst wr1; exact Hagain.
Qed.

(** A run that has returned returns the same from the state it left, and
    leaves that state as it is. *)
Lemma write_files_twice_returned (files : dict) (w w1 : world)
    (out : list event) (written : list pystr) :
  write_files files w = (w1, out, Ok written) ->
  write_files files w1 = (w1, out, Ok written).
Proof.
  unfold write_files. intros H.
  rewrite (write_loop_again _ _ _ _ _ _ _ w1 H
             (write_loop_cwd _ _ _ _ _ _ _ H) (keeps_refl _)).
  f_equal. f_equal.
  assert (E : replay (writes (cwd w) files) (tree w1) = tree w1).
  { apply map_eq. intros q. rewrite replay_lookup.
    destruct (last_write (writes (cwd w) files) q) as [d|] eqn:Hl; [|reflexivity].
    symmetry. eapply write_loop_last; eassumption. }
  rewrite E. apply set_tree_id.
Qed.

Lemma keeps_none t v q : keeps v t -> t !! q = None -> v !! q = None.
Proof.
  intros K H. destruct (v !! q) as [n|] eqn:Hv; [|reflexivity].
  destruct (K q n Hv) as (n' & H' & _). congruence.
Qed.

(** A failed [makedirs] fails the same way in every tree with the kinds of
    the tree it left, and changes nothing there. *)
Lemma mkdirs_fails_again todo : forall dir t t' e,
  mkdirs dir todo t = (t', Some e) ->
  forall v, keeps t' v -> keeps v t' -> mkdirs dir todo v = (v, Some e).
Proof.
  induction todo as [|c todo IH]; intros dir t t' e H v K K'; cbn [mkdirs] in *.
  - discriminate H.
  - destruct (t !! (dir ++ [c])) as [[d|]|] eqn:Hp.
    + inversion H; subst t' e.
      destruct (keeps_file _ _ _ _ K Hp) as [d' ->]. reflexivity.
    + pose proof (mkdirs_preserves _ _ _ _ _ H _ _ Hp) as Hp'.
      rewrite (keeps_dir _ _ _ K Hp'). eapply IH; eassumption.
    + destruct (t !! dir) as [[d|]|] eqn:Hd.
      * inversion H; subst t' e.
        rewrite (keeps_none _ _ _ K' Hp).
        destruct (keeps_file _ _ _ _ K Hd) as [d' ->]. reflexivity.
      * assert (Hp' : t' !! (dir ++ [c]) = Some Dir).
        { eapply mkdirs_preserves; [eassumption|]. apply lookup_insert_eq. }
        rewrite (keeps_dir _ _ _ K Hp'). eapply IH; eassumption.
      * inversion H; subst t' e.
        now rewrite (keeps_none _ _ _ K' Hp), (keeps_none _ _ _ K' Hd).
Qed.

Lemma file_on_way_keeps t v p :
  keeps t v -> keeps v t -> file_on_way t p = file_on_way v p.
Proof.
  intros K K'. unfold file_on_way.
  induction (seq 0 (length p)) as [|j l IH]; cbn [existsb]; [reflexivity|].
  rewrite IH. f_equal.
  destruct (t !! take j p) as [[d|]|] eqn:Ht.
  - destruct (keeps_file _ _ _ _ K Ht) as [d' ->]. reflexivity.
  - now rewrite (keeps_dir _ _ _ K Ht).
  - now rewrite (keeps_none _ _ _ K' Ht).
Qed.

Lemma open_write_fails_again name d w e v :
  open_write name d w = Raise e ->
  cwd v = cwd w -> keeps (tree w) (tree v) -> keeps (tree v) (tree w) ->
  open_write name d v = Raise e.
Proof.
  unfold open_write. intros H Hc K K'. rewrite Hc.
  set (p := resolve (cwd w) name) in *.
  rewrite <- (file_on_way_keeps _ _ p K K').
  assert (Hpar : forall q,
            match tree w !! q with
            | Some Dir => tree v !! q = Some Dir
            | Some (File _) => exists d', tree v !! q = Some (File d')
            | None => tree v !! q = None
            end).
  { intros q. destruct (tree w !! q) as [[d0|]|] eqn:Hq.
    - eapply keeps_file; eassumption.
    - eapply keeps_dir; eassumption.
    - eapply keeps_none; eassumption. }
  pose proof (Hpar p) as Hp. pose proof (Hpar (removelast p)) as Hr.
  destruct (tree w !! p) as [[d0|]|].
  - destruct Hp as [d' ->].
    destruct (tree w !! removelast p) as [[d1|]|].
    + destruct Hr as [d1' ->]. assumption.
    + discriminate H.
    + now rewrite Hr.
  - now rewrite Hp.
  - rewrite Hp. destruct (tree w !! removelast p) as [[d1|]|].
    + destruct Hr as [d1' ->]. assumption.
    + discriminate H.
    + now rewrite Hr.
Qed.

(** An entry that failed fails again, with the same exception and without a
    change, in every state with the kinds of the state it left. *)
Lemma write_entry_fails_again f c w w' o e v :
  write_entry f c w = (w', o, Raise e) ->
  cwd v = cwd w -> keeps (tree w') (tree v) -> keeps (tree v) (tree w') ->
  write_entry f c v = (v, o, Raise e).
Proof.
  intros H Hc K K'. apply write_entry_inv in H.
  destruct H as [(_ & _ & _ & Hr)|(t1 & e1 & Ht & Hp & H)]; [discriminate Hr|].
  assert (Hs : startswith (normpath f) (py "..") = false).
  { unfold target in Ht. cbn [fst] in Ht.
    now destruct (startswith (normpath f) (py "..")). }
  rewrite (write_entry_passes f c v Hs).
  destruct e1 as [e1|].
  - destruct H as (-> & -> & Hr). inversion Hr; subst e1. cbn [tree set_tree] in *.
    unfold prepare in *. rewrite Hc.
    destruct (is_empty (dirname (normpath f))); [discriminate Hp|].
    rewrite (mkdirs_fails_again _ _ _ _ _ Hp (tree v) K K').
    now rewrite set_tree_id.
  - destruct (open_write (normpath f) c (set_tree t1 w)) as [w2|e2] eqn:Ho;
      [destruct H as (_ & _ & Hr); discriminate Hr|].
    destruct H as (-> & -> & Hr). inversion Hr; subst e2. cbn [tree set_tree] in *.
    rewrite (prepare_again f w t1 v Hp Hc K). rewrite set_tree_id.
    now rewrite (open_write_fails_again _ _ _ _ v Ho Hc K K').
Qed.

(** A run that raised went through a prefix of the entries and failed on the
    next one. *)
Lemma write_loop_raise_split items : forall wr o w w' o' e,
  write_loop items wr o w = (w', o', Raise e) ->
  exists pre f c post w1 o1 wr1 o2,
    items = pre ++ (f, c) :: post /\
    write_loop pre wr o w = (w1, o1, Ok wr1) /\
    write_entry f c w1 = (w', o2, Raise e) /\
    o' = o1 ++ o2.
Proof.
  induction items as [|[f c] items IH]; intros wr o w w' o' e H;
    cbn [write_loop] in H; [discriminate H|].
  destruct (write_entry f c w) as [[w1 o1] r1] eqn:He.
  assert (Hcont : forall wr1,
            write_loop items wr1 (o ++ o1) w1 = (w', o', Raise e) ->
            (exists r0, r1 = Ok r0 /\
               wr1 = match r0 with Some cl => wr ++ [cl] | None => wr end) ->
            exists pre f0 c0 post w2 o2 wr2 o3,
              (f, c) :: items = pre ++ (f0, c0) :: post /\
              write_loop pre wr o w = (w2, o2, Ok wr2) /\
              write_entry f0 c0 w2 = (w', o3, Raise e) /\
              o' = o2 ++ o3).
  { intros wr1 Hl (r0 & -> & ->).
    apply IH in Hl as (pre & f0 & c0 & post & w2 & o2 & wr2 & o3
                       & -> & Hpre & Hf & ->).
    exists ((f, c) :: pre), f0, c0, post, w2, o2, wr2, o3.
    split; [reflexivity|]. split; [|auto].
    cbn [write_loop]. rewrite He. now destruct r0. }
  destruct r1 as [[clean|]|e1].
  - eapply Hcont; eauto.
  - eapply Hcont; eauto.
  - inversion H; subst. exists [], f, c, items, w, o, wr, o1.
    repeat split; assumption.
Qed.

Lemma write_entry_raise_preserves f c w w' o e q n :
  write_entry f c w = (w', o, Raise e) ->
  tree w !! q = Some n -> tree w' !! q = Some n.
Proof.
  intros H Hq. apply write_entry_inv in H.
  destruct H as [(_ & _ & _ & Hr)|(t1 & e1 & _ & Hp & H)]; [discriminate Hr|].
  pose proof (prepare_preserves _ _ _ _ _ _ Hp Hq) as Hq1.
  destruct e1 as [e1|]; [now destruct H as (-> & _)|].
  destruct (open_write _ _ _) as [w2|e2];
    [destruct H as (_ & _ & Hr); discriminate Hr|].
  now destruct H as (-> & _).
Qed.

(** C8. Writing is idempotent: a second run of [write_files] on the same
    mapping, from the state the first run left, ends as the first did (the
    same list returned or the same exception raised), prints the same lines
    and leaves the file system exactly as the first run left it: every file
    holds the content it held, and no node is added. *)
Theorem write_files_twice (files : dict) (w w1 : world)
    (out : list event) (r : result (list pystr)) :
  write_files files w = (w1, out, r) ->
  write_files files w1 = (w1, out, r).
Proof.
  destruct r as [written|e]; [apply write_files_twice_returned|].
  unfold write_files. intros H.
  apply write_loop_raise_split in H
    as (pre & f & c & post & w0 & o1 & wr1 & o2 & -> & Hpre & Hf & ->).
  pose proof (write_loop_cwd _ _ _ _ _ _ _ Hpre) as Hc0.
  pose proof (write_entry_cwd _ _ _ _ _ _ Hf) as Hc1.
  pose proof (write_entry_keeps _ _ _ _ _ _ Hf) as K01.
  rewrite write_loop_app.
  rewrite (write_loop_again _ _ _ _ _ _ _ w1 Hpre ltac:(congruence) K01).
  assert (E : replay (writes (cwd w) pre) (tree w1) = tree w1).
  { apply map_eq. intros q. rewrite replay_lookup.
    destruct (last_write (writes (cwd w) pre) q) as [d|] eqn:Hl; [|reflexivity].
    symmetry. eapply write_entry_raise_preserves; [exact Hf|].
    eapply write_loop_last; eassumption. }
  rewrite E, set_tree_id. cbn [write_loop].
  rewrite (write_entry_fails_again _ _ _ _ _ _ w1 Hf Hc1
             (keeps_refl _) (keeps_refl _)).
  reflexivity.
Qed.

Lemma write_files_twice_witness :
  (exists w1 out,
     write_files site_files site
       = (w1, out, Ok [py "index.html"; py "images/logo.svg"; py "index.html"])
     /\ tree w1 !! (cwd site ++ [py "index.html"]) = Some (File (py "<h1>"))
     /\ write_files site_files w1
       = (w1, out, Ok [py "index.html"; py "images/logo.svg"; py "index.html"]))
  /\
  (exists w1 out,
     write_files clash site = (w1, out, Raise FileExistsError)
     /\ write_files clash w1 = (w1, out, Raise FileExistsError)).
Proof.
  split.
  - eexists _, _. split; [reflexivity|]. split; [reflexivity|].
    apply (write_files_twice site_files site). reflexivity.
  - eexists _, _. split; [reflexivity|].
    apply (write_files_twice clash site). reflexivity.
Defined.

(** ** Relative names stay below the working directory *)


Lemma pystr_eqb_false a b : pystr_eqb a b = false <-> a <> b.
Proof. unfold pystr_eqb. apply bool_decide_eq_false. Qed.

Lemma str_split_nonempty sep s : str_split sep s <> [].
Proof.
  destruct s as [|c s]; cbn [str_split]; [discriminate|].
  destruct (c =? sep); [discriminate|]. now destruct (str_split sep s).
Qed.




Lemma str_split_plain w : ~ In SLASH w -> str_split SLASH w = [w].
Proof.
  induction w as [|c w IH]; intros Hn; cbn [str_split]; [reflexivity|].
  destruct (c =? SLASH) eqn:E.
  - apply N.eqb_eq in E. subst c. exfalso. apply Hn. now left.
  - rewrite IH; [reflexivity|]. intros Hin. apply Hn. now right.
Qed.

Lemma str_split_app_sep w s :
  ~ In SLASH w -> str_split SLASH (w ++ SLASH :: s) = w :: str_split SLASH s.
Proof.
  induction w as [|c w IH]; intros Hn; cbn [str_split app].
  - now rewrite N.eqb_refl.
  - destruct (c =? SLASH) eqn:E.
    + apply N.eqb_eq in E. subst c. exfalso. apply Hn. now left.
    + rewrite IH; [reflexivity|]. intros Hin. apply Hn. now right.
Qed.

Lemma join_cons_cons sep w w' ws :
  join sep (w :: w' :: ws) = w ++ sep ++ join sep (w' :: ws).
Proof. reflexivity. Qed.

Lemma split_join names :
  names <> [] -> Forall (fun w => ~ In SLASH w) names ->
  str_split SLASH (join (py "/") names) = names.
Proof.
  induction names as [|w names IH]; intros Hne Hall; [contradiction|].
  apply Forall_cons in Hall as [Hw Hall].
  destruct names as [|w' names].
  - cbn [join]. now apply str_split_plain.
  - rewrite join_cons_cons.
    change (py "/" ++ join (py "/") (w' :: names))
      with (SLASH :: join (py "/") (w' :: names)).
    rewrite (str_split_app_sep w _ Hw). f_equal. now apply IH.
Qed.

Lemma proper_no_slash names :
  Forall proper names -> Forall (fun w => ~ In SLASH w) names.
Proof. intros H. eapply Forall_impl; [exact H|]. now intros w (_ & _ & _ & Hs). Qed.

Lemma walk_proper at_ comp : proper comp -> walk at_ comp = at_ ++ [comp].
Proof.
  intros (H0 & H1 & H2 & _). unfold walk.
  rewrite (proj2 (pystr_eqb_false comp []) H0).
  rewrite (proj2 (pystr_eqb_false comp (py ".")) H1).
  now rewrite (proj2 (pystr_eqb_false comp (py "..")) H2).
Qed.

Lemma walk_all_proper names : forall at_,
  Forall proper names -> foldl walk at_ names = at_ ++ names.
Proof.
  induction names as [|w names IH]; intros at_ Hall; cbn [foldl].
  - now rewrite app_nil_r.
  - apply Forall_cons in Hall as [Hw Hall].
    rewrite (walk_proper at_ w Hw), (IH _ Hall). now rewrite <- app_assoc.
Qed.

Lemma join_proper_head names :
  names <> [] -> Forall proper names ->
  exists c s, join (py "/") names = c :: s /\ c <> SLASH.
Proof.
  intros Hne Hall. destruct names as [|w names]; [contradiction|].
  apply Forall_cons in Hall as [(H0 & _ & _ & Hs) _].
  destruct w as [|c w]; [contradiction|].
  exists c. destruct names as [|w' names].
  - exists w. split; [reflexivity|]. intros ->. apply Hs. now left.
  - eexists. rewrite join_cons_cons. split; [reflexivity|].
    intros ->. apply Hs. now left.
Qed.

(** Resolving the joined names of a relative path goes down from the working
    directory, one name at a time. *)
Lemma resolve_join cwd names :
  names <> [] -> Forall proper names ->
  resolve cwd (join (py "/") names) = cwd ++ names.
Proof.
  intros Hne Hall. unfold resolve.
  destruct (join_proper_head names Hne Hall) as (c & s & E & Hc).
  rewrite split_join by (auto using proper_no_slash).
  rewrite E. cbn [py map list_ascii_of_string startswith].
  assert (Hcs : (c =? N_of_ascii "/"%char) = false) by now apply N.eqb_neq.
  rewrite Hcs. cbn [andb]. now apply walk_all_proper.
Qed.




Lemma after_last_plain w : ~ In SLASH w -> after_last SLASH w = 0%nat.
Proof.
  induction w as [|c w IH]; intros Hn; cbn [after_last]; [reflexivity|].
  rewrite IH by (intros Hin; apply Hn; now right).
  destruct (c =? SLASH) eqn:E; [|reflexivity].
  apply N.eqb_eq in E. subst c. exfalso. apply Hn. now left.
Qed.

Lemma after_last_app_sep a w :
  ~ In SLASH w -> after_last SLASH (a ++ SLASH :: w) = S (length a).
Proof.
  intros Hw. induction a as [|c a IH]; cbn [app after_last length].
  - now rewrite (after_last_plain w Hw), N.eqb_refl.
  - now rewrite IH.
Qed.

Lemma join_snoc ns w :
  ns <> [] -> join (py "/") (ns ++ [w]) = join (py "/") ns ++ SLASH :: w.
Proof.
  induction ns as [|n ns IH]; intros Hne; [contradiction|].
  destruct ns as [|n' ns].
  - reflexivity.
  - change ((n :: n' :: ns) ++ [w]) with (n :: (n' :: ns) ++ [w]).
    cbn [app]. rewrite !join_cons_cons.
    change (n' :: ns ++ [w]) with ((n' :: ns) ++ [w]).
    rewrite IH by discriminate. now rewrite <- !app_assoc.
Qed.

Lemma join_proper_last names :
  names <> [] -> Forall proper names ->
  exists s c, join (py "/") names = s ++ [c] /\ c <> SLASH.
Proof.
  intros Hne Hall. induction names as [|w ns _] using rev_ind; [contradiction|].
  apply Forall_app in Hall as [_ Hw]. apply (proj1 (Forall_singleton _ _)) in Hw.
  destruct Hw as (H0 & _ & _ & Hs).
  destruct w as [|c w _] using rev_ind; [contradiction|].
  exists (match ns with [] => w | _ => join (py "/") ns ++ SLASH :: w end), c.
  split.
  - destruct ns as [|n ns]; [reflexivity|].
    rewrite join_snoc by discriminate. now rewrite <- app_assoc.
  - intros ->. apply Hs. apply in_or_app. right. now left.
Qed.

Lemma rstrip_chr_keep s c : c <> SLASH -> rstrip_chr SLASH (s ++ [c]) = s ++ [c].
Proof.
  intros Hc. unfold rstrip_chr. rewrite rev_unit. cbn [drop_while].
  rewrite (proj2 (N.eqb_neq c SLASH) Hc). cbn [rev]. now rewrite rev_involutive.
Qed.

Lemma rstrip_chr_sep s : rstrip_chr SLASH (s ++ [SLASH]) = rstrip_chr SLASH s.
Proof. unfold rstrip_chr. rewrite rev_unit. cbn [drop_while]. now rewrite N.eqb_refl. Qed.

(** The directory part of joined names is the names but the last. *)
Lemma dirname_join names :
  names <> [] -> Forall proper names ->
  dirname (join (py "/") names) = join (py "/") (removelast names).
Proof.
  intros Hne Hall. induction names as [|w ns _] using rev_ind; [contradiction|].
  rewrite removelast_last.
  pose proof Hall as Hall'. apply Forall_app in Hall' as [Hns Hw].
  apply (proj1 (Forall_singleton _ _)) in Hw. destruct Hw as (_ & _ & _ & Hs).
  unfold dirname. destruct ns as [|n ns].
  - cbn [app join]. now rewrite (after_last_plain w Hs).
  - rewrite join_snoc by discriminate.
    rewrite (after_last_app_sep _ w Hs).
    set (a := join (py "/") (n :: ns)).
    replace (take (S (length a)) (a ++ SLASH :: w)) with (a ++ [SLASH]).
    2:{ change (a ++ SLASH :: w) with (a ++ [SLASH] ++ w). rewrite app_assoc.
        symmetry. apply take_app_length'. rewrite length_app. cbn. lia. }
    destruct (join_proper_head (n :: ns) ltac:(discriminate) Hns)
      as (c & s & E & Hc).
    destruct (join_proper_last (n :: ns) ltac:(discriminate) Hns)
      as (s' & c' & E' & Hc').
    fold a in E, E'.
    assert (Hne1 : is_empty (a ++ [SLASH]) = false) by (rewrite E; reflexivity).
    assert (Hne2 : pystr_eqb (a ++ [SLASH])
                     (replicate (length (a ++ [SLASH])) SLASH) = false).
    { apply pystr_eqb_false. rewrite E. cbn. intros Eq. inversion Eq. contradiction. }
    rewrite Hne1, Hne2. cbn [negb andb].
    rewrite rstrip_chr_sep, E'. now apply rstrip_chr_keep.
Qed.






(** * Further properties *)

(** ** What [write_files] returns and prints *)

Lemma write_entry_ok_inv f c w w' o r :
  write_entry f c w = (w', o, Ok r) ->
  o = [report (f, c)] /\
  r = (if passes_check (f, c) then Some (normpath f) else None).
Proof.
  intros H. apply write_entry_inv in H. unfold report, passes_check. cbn [fst snd].
  destruct H as [(Ht & _ & -> & Hr)|(t1 & e & Ht & _ & H)].
  - unfold target in Ht. cbn [fst] in Ht.
    destruct (startswith (normpath f) (py "..")); [|discriminate Ht].
    inversion Hr. auto.
  - unfold target in Ht. cbn [fst] in Ht.
    destruct (startswith (normpath f) (py "..")); [discriminate Ht|].
    destruct e as [e|]; [destruct H as (_ & _ & Hr); discriminate Hr|].
    destruct (open_write _ _ _); [|destruct H as (_ & _ & Hr); discriminate Hr].
    destruct H as (_ & -> & Hr). inversion Hr. auto.
Qed.

Lemma write_loop_returns items : forall wr o w w' o' wr',
  write_loop items wr o w = (w', o', Ok wr') ->
  wr' = wr ++ map (fun e => normpath e.1) (List.filter passes_check items) /\
  o' = o ++ map report items.
Proof.
  induction items as [|[f c] items IH]; intros wr o w w' o' wr' H;
    cbn [write_loop] in H.
  - inversion H; subst. cbn. now rewrite !app_nil_r.
  - destruct (write_entry f c w) as [[w1 o1] r1] eqn:He.
    destruct r1 as [r0|e]; [|discriminate H].
    apply write_entry_ok_inv in He as [-> ->].
    cbn [List.filter map].
    destruct (passes_check (f, c)); apply IH in H as [-> ->];
      cbn [map fst]; now rewrite <- !app_assoc.
Qed.

(** X1. When [write_files] returns, the list it returns holds the clean name
    of every entry that passes the path check, in the order of the mapping
    and one per entry (a name written twice is listed twice); one line is
    printed per entry, a SKIP line or a Written line; so the list is never
    longer than the mapping. *)
Theorem write_files_returns (files : dict) (w w' : world)
    (out : list event) (written : list pystr) :
  write_files files w = (w', out, Ok written) ->
  written = map (fun e => normpath e.1) (List.filter passes_check files) /\
  out = map report files /\
  (length written <= length files)%nat.
Proof.
  unfold write_files. intros H. apply write_loop_returns in H as [-> ->].
  split; [reflexivity|]. split; [reflexivity|].
  cbn [app]. rewrite List.length_map. apply List.filter_length_le.
Qed.

Lemma write_files_returns_witness :
  exists w' out written,
    write_files site_files site = (w', out, Ok written) /\
    written = map (fun e => normpath e.1) (List.filter passes_check site_files) /\
    out = map report site_files /\
    (length written <= length site_files)%nat.
Proof.
  eexists _, _, _. split; [reflexivity|].
  eapply (write_files_returns site_files site). reflexivity.
Defined.

(** ** What a run leaves in place *)

(** X2. Whether it returns or raises, [write_files] leaves the working
    directory where it is, removes nothing, and never turns a directory into
    a file or a file into a directory. *)
Theorem write_files_keeps_nodes (files : dict) (w w' : world)
    (out : list event) (r : result (list pystr)) :
  write_files files w = (w', out, r) ->
  cwd w' = cwd w /\
  forall q,
    (tree w !! q = Some Dir -> tree w' !! q = Some Dir) /\
    (forall d, tree w !! q = Some (File d) ->
       exists d', tree w' !! q = Some (File d')).
Proof.
  unfold write_files. intros H.
  pose proof (write_loop_keeps _ _ _ _ _ _ _ H) as K.
  split; [eapply write_loop_cwd; eassumption|].
  intros q. split.
  - now apply keeps_dir.
  - intros d. now apply keeps_file.
Qed.

Lemma write_files_keeps_nodes_witness :
  exists w' out r,
    write_files clash site = (w', out, r) /\
    cwd w' = cwd site /\
    forall q,
      (tree site !! q = Some Dir -> tree w' !! q = Some Dir) /\
      (forall d, tree site !! q = Some (File d) ->
         exists d', tree w' !! q = Some (File d')).
Proof.
  eexists _, _, _. split; [reflexivity|].
  eapply (write_files_keeps_nodes clash site). reflexivity.
Defined.

Lemma target_passes cwd f c :
  passes_check (f, c) = true ->
  target cwd (f, c) = Some (resolve cwd (normpath f), c).
Proof.
  unfold passes_check, target. cbn [fst snd].
  now destruct (startswith (normpath f) (py "..")).
Qed.

Lemma target_Some cwd e q d :
  target cwd e = Some (q, d) ->
  passes_check e = true /\ q = resolve cwd (normpath e.1) /\ d = e.2.
Proof.
  unfold passes_check, target.
  destruct (startswith (normpath e.1) (py "..")); [discriminate|].
  intros H. now inversion H.
Qed.

Lemma last_write_None ws q :
  last_write ws q = None <-> forall d, ~ In (q, d) ws.
Proof.
  induction ws as [|[p d0] ws IH]; cbn [last_write].
  - split; [intros _ d []|reflexivity].
  - destruct (last_write ws q) as [d'|] eqn:Hl.
    + split; [discriminate|]. intros Hn.
      assert (Hnone : Some d' = None) by
        (apply (proj2 IH); intros d Hin; apply (Hn d); now right).
      discriminate Hnone.
    + destruct (decide (p = q)) as [->|Hne].
      * split; [discriminate|]. intros Hn. exfalso. apply (Hn d0). now left.
      * split; [|reflexivity]. intros _ d [E|Hin].
        -- inversion E; subst. contradiction.
        -- now apply (proj1 IH eq_refl d).
Qed.

Lemma last_write_app ws1 ws2 q :
  last_write (ws1 ++ ws2) q =
    match last_write ws2 q with
    | Some d => Some d
    | None => last_write ws1 q
    end.
Proof.
  induction ws1 as [|[p d0] ws1 IH]; cbn [app last_write].
  - now destruct (last_write ws2 q).
  - rewrite IH. now destruct (last_write ws2 q).
Qed.

Lemma writes_app cwd l1 l2 : writes cwd (l1 ++ l2) = writes cwd l1 ++ writes cwd l2.
Proof. unfold writes. apply omap_app. Qed.

Lemma writes_no_target cwd items q :
  (forall f c, In (f, c) items -> passes_check (f, c) = true ->
     resolve cwd (normpath f) <> q) ->
  last_write (writes cwd items) q = None.
Proof.
  intros Hno. apply last_write_None. intros d Hin.
  unfold writes in Hin. apply list_elem_of_In, list_elem_of_omap in Hin.
  destruct Hin as ([f c] & Hin & Ht). apply list_elem_of_In in Hin.
  apply target_Some in Ht as (Hp & -> & _). now apply (Hno f c).
Qed.

(** X3. After a run that returns, the file of an entry that passes the path
    check holds the content of that entry, unless a later entry is written
    to the same place. *)
Theorem write_files_stores_content (pre post : dict) (f c : pystr)
    (w w' : world) (out : list event) (written : list pystr) :
  write_files (pre ++ (f, c) :: post) w = (w', out, Ok written) ->
  passes_check (f, c) = true ->
  (forall f' c', In (f', c') post -> passes_check (f', c') = true ->
     resolve (cwd w) (normpath f') <> resolve (cwd w) (normpath f)) ->
  tree w' !! resolve (cwd w) (normpath f) = Some (File c).
Proof.
  unfold write_files. intros H Hp Hlast.
  eapply write_loop_last; [exact H|].
  rewrite writes_app, writes_cons, (target_passes _ _ _ Hp), last_write_app.
  cbn [last_write]. rewrite (writes_no_target _ post _ Hlast).
  now destruct (decide (resolve (cwd w) (normpath f) = resolve (cwd w) (normpath f))).
Qed.

Lemma write_files_stores_content_witness :
  exists w' out written,
    write_files ([(py "index.html", py "<p>")]
                 ++ (py "images/logo.svg", py "<svg/>")
                 :: [(py "../up.txt", py "no"); (py "./index.html", py "<h1>")])
                site = (w', out, Ok written) /\
    tree w' !! resolve (cwd site) (normpath (py "images/logo.svg"))
    = Some (File (py "<svg/>")).
Proof.
  eexists _, _, _. split; [reflexivity|].
  eapply (write_files_stores_content
            [(py "index.html", py "<p>")]
            [(py "../up.txt", py "no"); (py "./index.html", py "<h1>")]
            (py "images/logo.svg") (py "<svg/>") site).
  - reflexivity.
  - reflexivity.
  - intros f' c' [E|[E|[]]] Hp; inversion E; subst.
    + discriminate Hp.
    + vm_compute. discriminate.
Defined.

Lemma mkdirs_adds_dirs todo : forall dir t t' e q,
  mkdirs dir todo t = (t', e) -> t !! q = None ->
  t' !! q = None \/ t' !! q = Some Dir.
Proof.
  induction todo as [|c todo IH]; intros dir t t' e q H Hq; cbn [mkdirs] in H.
  - inversion H; subst. now left.
  - destruct (t !! (dir ++ [c])) as [[d|]|] eqn:Hp.
    + inversion H; subst. now left.
    + eapply IH; eassumption.
    + destruct (t !! dir) as [[d|]|] eqn:Hd;
        try (inversion H; subst; now left).
      destruct (decide (q = dir ++ [c])) as [->|Hne].
      * right. eapply mkdirs_preserves; [eassumption|]. apply lookup_insert_eq.
      * eapply IH; [eassumption|]. now rewrite lookup_insert_ne.
Qed.

Lemma write_entry_adds_dirs f c w w' o r q :
  write_entry f c w = (w', o, r) ->
  tree w !! q = None ->
  (forall d, target (cwd w) (f, c) <> Some (q, d)) ->
  tree w' !! q = None \/ tree w' !! q = Some Dir.
Proof.
  intros H Hq Hne. apply write_entry_inv in H.
  destruct H as [(_ & -> & _)|(t1 & e & Ht & Hp & H)]; [now left|].
  assert (H1 : t1 !! q = None \/ t1 !! q = Some Dir).
  { unfold prepare in Hp. destruct (is_empty _).
    - inversion Hp; subst. now left.
    - eapply mkdirs_adds_dirs; eassumption. }
  destruct e as [e|]; [now destruct H as (-> & _)|].
  destruct (open_write _ _ _) as [w2|e] eqn:Ho; [|now destruct H as (-> & _)].
  apply open_write_inv in Ho as (E & _). destruct H as (-> & _).
  rewrite E. cbn [tree set_tree cwd]. rewrite lookup_insert_ne; [assumption|].
  intros Eq. apply (Hne c). rewrite Ht. now rewrite Eq.
Qed.

Lemma write_loop_adds_dirs items : forall wr o w w' o' r q,
  write_loop items wr o w = (w', o', r) ->
  tree w !! q = None ->
  last_write (writes (cwd w) items) q = None ->
  tree w' !! q = None \/ tree w' !! q = Some Dir.
Proof.
  induction items as [|[f c] items IH]; intros wr o w w' o' r q H Hq Hl;
    cbn [write_loop] in H.
  - inversion H; subst. now left.
  - destruct (write_entry f c w) as [[w1 o1] r1] eqn:He.
    pose proof (write_entry_cwd _ _ _ _ _ _ He) as Hc.
    rewrite writes_cons in Hl.
    assert (Hrest : last_write (writes (cwd w1) items) q = None).
    { rewrite Hc. destruct (target (cwd w) (f, c)) as [[p d]|]; [|assumption].
      cbn [last_write] in Hl. now destruct (last_write _ q). }
    assert (Hnt : forall d, target (cwd w) (f, c) <> Some (q, d)).
    { intros d Ht. rewrite Ht in Hl. cbn [last_write] in Hl.
      destruct (last_write _ q); [discriminate Hl|].
      now destruct (decide (q = q)). }
    pose proof (write_entry_adds_dirs _ _ _ _ _ _ _ He Hq Hnt) as [Hn|Hd].
    + destruct r1 as [[clean|]|e].
      * eapply IH; eassumption.
      * eapply IH; eassumption.
      * inversion H; subst. now left.
    + right. destruct r1 as [[clean|]|e].
      * eapply write_loop_frame; eassumption.
      * eapply write_loop_frame; eassumption.
      * now inversion H; subst.
Qed.

(** X4. A place that no passing entry is written to keeps its node; if there
    was none, there is none afterwards, or a directory that [os.makedirs]
    created. *)
Theorem write_files_leaves_others (files : dict) (w w' : world)
    (out : list event) (r : result (list pystr)) (q : path) :
  write_files files w = (w', out, r) ->
  (forall f c, In (f, c) files -> passes_check (f, c) = true ->
     resolve (cwd w) (normpath f) <> q) ->
  match tree w !! q with
  | Some n => tree w' !! q = Some n
  | None => tree w' !! q = None \/ tree w' !! q = Some Dir
  end.
Proof.
  unfold write_files. intros H Hno.
  pose proof (writes_no_target (cwd w) files q Hno) as Hl.
  destruct (tree w !! q) as [n|] eqn:Hq.
  - eapply write_loop_frame; eassumption.
  - eapply write_loop_adds_dirs; eassumption.
Qed.

Lemma write_files_leaves_others_witness :
  exists w' out r,
    write_files site_files site = (w', out, r) /\
    match tree site !! [py "srv"] with
    | Some n => tree w' !! [py "srv"] = Some n
    | None => tree w' !! [py "srv"] = None \/ tree w' !! [py "srv"] = Some Dir
    end.
Proof.
  eexists _, _, _. split; [reflexivity|].
  eapply (write_files_leaves_others site_files site).
  - reflexivity.
  - intros f c [E|[E|[E|[E|[]]]]] Hp; inversion E; subst;
      try discriminate Hp; vm_compute; discriminate.
Defined.

(** ** Relative names: nothing outside the working directory changes *)







(** ** Absolute names *)

Lemma normpath_absolute f :
  startswith f (py "/") = true -> startswith (normpath f) (py "/") = true.
Proof.
  intros H. unfold normpath. destruct f as [|c f]; [discriminate H|].
  cbn [is_empty]. rewrite H.
  destruct (startswith (c :: f) (py "//") && negb (startswith (c :: f) (py "///")));
    reflexivity.
Qed.

Lemma startswith_slash_not_dotdot s :
  startswith s (py "/") = true -> startswith s (py "..") = false.
Proof.
  destruct s as [|c s]; [discriminate|]. cbn [py map list_ascii_of_string startswith].
  intros H. apply andb_true_iff in H as [H _]. apply N.eqb_eq in H. now subst c.
Qed.

(** X6. A name that begins with a slash always passes the path check: it is
    never reported as unsafe, and the place it is written to does not depend
    on the working directory. *)
Theorem absolute_names_pass (f : pystr) :
  startswith f (py "/") = true ->
  (forall c, passes_check (f, c) = true) /\
  (forall c w, exists w' o r, write_entry f c w = (w', o, r) /\
                 o <> [SkipUnsafe f]) /\
  (forall cwd1 cwd2, resolve cwd1 (normpath f) = resolve cwd2 (normpath f)).
Proof.
  intros H. pose proof (normpath_absolute f H) as Hn.
  pose proof (startswith_slash_not_dotdot _ Hn) as Hs.
  split; [|split].
  - intros c. unfold passes_check. cbn [fst]. now rewrite Hs.
  - intros c w. destruct (write_entry f c w) as [[w' o] r] eqn:He.
    exists w', o, r. split; [reflexivity|].
    apply write_entry_inv in He.
    destruct He as [(Ht & _)|(t1 & e & _ & _ & He)].
    + unfold target in Ht. cbn [fst] in Ht. rewrite Hs in Ht. discriminate Ht.
    + destruct e as [e|]; [destruct He as (_ & -> & _); discriminate|].
      destruct (open_write _ _ _);
        destruct He as (_ & -> & _); discriminate.
  - intros cwd1 cwd2. unfold resolve. now rewrite Hn.
Qed.

Lemma absolute_names_pass_witness :
  (forall c, passes_check (py "/etc/motd", c) = true) /\
  (forall c w, exists w' o r,
     write_entry (py "/etc/motd") c w = (w', o, r) /\
     o <> [SkipUnsafe (py "/etc/motd")]) /\
  (forall cwd1 cwd2,
     resolve cwd1 (normpath (py "/etc/motd"))
     = resolve cwd2 (normpath (py "/etc/motd"))).
Proof. apply (absolute_names_pass (py "/etc/motd")). reflexivity. Defined.

(** ** Subdirectories *)




(** ** A name that is the directory itself *)

Lemma write_entry_dot f c w :
  normpath f = py "." -> tree w !! cwd w = Some Dir ->
  write_entry f c w = (w, [], Raise IsADirectoryError).
Proof.
  intros Hn Hcwd.
  rewrite write_entry_passes by now rewrite Hn.
  unfold prepare. rewrite Hn.
  change (dirname (py ".")) with (@nil N). cbn [is_empty]. rewrite set_tree_id.
  unfold open_write.
  change (resolve (cwd w) (py ".")) with (cwd w).
  now rewrite Hcwd.
Qed.

(** X19. A name that [os.path.normpath] turns into [.] (such as [.], [./] or
    [pages/..]) passes the path check and is opened for writing: in a
    working directory that exists the entry raises [IsADirectoryError]; as
    the first entry of the mapping it ends [write_files] before anything is
    written or printed. *)
Theorem dot_name_raises (f c : pystr) (rest : dict) (w : world) :
  normpath f = py "." -> tree w !! cwd w = Some Dir ->
  write_entry f c w = (w, [], Raise IsADirectoryError) /\
  write_files ((f, c) :: rest) w = (w, [], Raise IsADirectoryError).
Proof.
  intros Hn Hcwd. pose proof (write_entry_dot f c w Hn Hcwd) as E.
  split; [exact E|]. unfold write_files. cbn [write_loop]. now rewrite E.
Qed.

Lemma dot_name_raises_witness :
  write_entry (py "pages/..") (py "<p>") site
  = (site, [], Raise IsADirectoryError) /\
  write_files ((py "pages/..", py "<p>") :: [(py "index.html", py "<p>")]) site
  = (site, [], Raise IsADirectoryError).
Proof.
  apply (dot_name_raises (py "pages/..") (py "<p>")
           [(py "index.html", py "<p>")] site); reflexivity.
Defined.

(** ** The mapping [parse_response] returns *)

(** ** Trimming *)

Lemma lstrip_tight s : tight_front (lstrip s).
Proof. apply (drop_while_head isspace s). Qed.

Lemma lstrip_fix s : tight_front s -> lstrip s = s.
Proof.
  destruct s as [|x s]; [reflexivity|]. cbn [tight_front]. intros H.
  unfold lstrip. cbn [drop_while]. now rewrite H.
Qed.

Lemma drop_while_snoc p u x :
  p x = false -> drop_while p (u ++ [x]) = drop_while p u ++ [x].
Proof.
  intros Hx. induction u as [|a u IH]; cbn [app drop_while].
  - now rewrite Hx.
  - destruct (p a); [exact IH|reflexivity].
Qed.

Lemma rstrip_tight s : tight_front (rev (rstrip s)).
Proof. unfold rstrip. rewrite rev_involutive. apply lstrip_tight. Qed.

Lemma rstrip_fix s : tight_front (rev s) -> rstrip s = s.
Proof. intros H. unfold rstrip. rewrite (lstrip_fix _ H). apply rev_involutive. Qed.

Lemma rstrip_keeps_front s : tight_front s -> tight_front (rstrip s).
Proof.
  destruct s as [|x s]; [intros _; exact I|]. cbn [tight_front]. intros Hx.
  unfold rstrip, lstrip. cbn [rev]. rewrite (drop_while_snoc _ _ _ Hx).
  rewrite rev_unit. exact Hx.
Qed.

Lemma strip_tight s : tight_front (strip s) /\ tight_front (rev (strip s)).
Proof.
  unfold strip. split.
  - apply rstrip_keeps_front, lstrip_tight.
  - apply rstrip_tight.
Qed.

Lemma strip_fix s : tight_front s -> tight_front (rev s) -> strip s = s.
Proof. intros H1 H2. unfold strip. rewrite (lstrip_fix s H1). now apply rstrip_fix. Qed.

Lemma strip_strip s : strip (strip s) = strip s.
Proof. destruct (strip_tight s). now apply strip_fix. Qed.

(** ** The mapping as a dictionary *)

Lemma pystr_eqb_refl k : pystr_eqb k k = true.
Proof. unfold pystr_eqb. now apply bool_decide_eq_true. Qed.

Lemma dict_set_keys_old k v d :
  In k (map fst d) -> map fst (dict_set k v d) = map fst d.
Proof.
  induction d as [|[k' v'] d IH]; cbn [dict_set map fst]; [intros []|].
  unfold pystr_eqb. destruct (bool_decide (k' = k)) eqn:E; [reflexivity|].
  apply bool_decide_eq_false in E. intros [?|Hin]; [contradiction|].
  cbn [map fst]. now rewrite IH.
Qed.

Lemma dict_set_keys_new k v d :
  ~ In k (map fst d) -> map fst (dict_set k v d) = map fst d ++ [k].
Proof.
  induction d as [|[k' v'] d IH]; cbn [dict_set map fst]; [reflexivity|].
  intros Hn. unfold pystr_eqb. destruct (bool_decide (k' = k)) eqn:E.
  - apply bool_decide_eq_true in E. exfalso. apply Hn. now left.
  - cbn [map fst app]. rewrite IH; [reflexivity|]. intros Hin. apply Hn. now right.
Qed.

Lemma dict_set_NoDup k v d : NoDup (map fst d) -> NoDup (map fst (dict_set k v d)).
Proof.
  intros H. destruct (decide (k ∈ map fst d)) as [Hin|Hn].
  - rewrite dict_set_keys_old; [exact H|now apply list_elem_of_In].
  - rewrite dict_set_keys_new by (now rewrite <- list_elem_of_In).
    apply NoDup_app. split; [exact H|]. split; [|apply NoDup_singleton].
    intros x Hx Hk. apply list_elem_of_singleton in Hk. now subst x.
Qed.

Lemma dict_set_In k v d k0 v0 :
  In (k0, v0) (dict_set k v d) -> (k0 = k /\ v0 = v) \/ In (k0, v0) d.
Proof.
  induction d as [|[k' v'] d IH]; cbn [dict_set].
  - intros [E|[]]. inversion E. now left.
  - unfold pystr_eqb. destruct (bool_decide (k' = k)) eqn:E.
    + apply bool_decide_eq_true in E. subst k'.
      intros [E'|Hin]; [inversion E'; now left|right; now right].
    + intros [E'|Hin]; [right; now left|].
      destruct (IH Hin) as [?|?]; [now left|right; now right].
Qed.

(** Whatever holds of the empty mapping and is kept by storing a trimmed
    name with a trimmed content holds of what the three pattern strategies
    return. *)
Section Invariant.
Context (I : dict -> Prop).
Hypothesis Hset : forall n c d, I d -> I (dict_set (strip n) (strip c) d).

Lemma section_step_invariant parts i files d :
  I files -> section_step parts i files = Ok d -> I d.
Proof using Hset.
  intros Hf. unfold section_step.
  destruct (getitem parts i) as [p|e]; cbn [bind]; [|discriminate].
  destruct (if (i + 1 <? length parts)%nat then _ else _) as [fc|e];
    cbn [bind]; [|discriminate].
  destruct (strip p) as [|x n] eqn:Hn; [intros H; now inversion H; subst|].
  destruct (sub fence_close_re _ _) as [|y c] eqn:Hc;
    intros H; inversion H; subst; [assumption|].
  rewrite <- Hn. now apply Hset.
Qed.

Lemma section_loop_invariant parts idx : forall files d,
  I files -> section_loop parts idx files = Ok d -> I d.
Proof using Hset.
  induction idx as [|i idx IH]; intros files d Hf H; cbn [section_loop] in H.
  - now inversion H; subst.
  - destruct (section_step parts i files) as [files'|e] eqn:Hs; cbn [bind] in H;
      [|discriminate H].
    eapply IH; [|exact H]. eapply section_step_invariant; eassumption.
Qed.

Lemma parse_sections_invariant content files d :
  I files -> parse_sections content files = Ok d -> I d.
Proof using Hset.
  intros Hf. unfold parse_sections. destruct (1 <? _)%nat.
  - now apply section_loop_invariant.
  - intros H. now inversion H; subst.
Qed.

Lemma parse_blocks_invariant pattern content files :
  I files -> I (parse_blocks pattern content files).
Proof using Hset.
  unfold parse_blocks. generalize (finditer pattern content). intros ms.
  revert files. induction ms as [|m ms IH]; intros files Hf; cbn [foldl];
    [assumption|].
  apply IH. now apply Hset.
Qed.

Lemma parse_response_invariant content files :
  I [] -> parse_response content = Ok (files, []) -> I files.
Proof using Hset.
  intros H0 H. destruct (parse_sections_ok content []) as [d Hd].
  pose proof (parse_sections_invariant content [] d H0 Hd) as Id.
  rewrite (parse_response_cases content d Hd) in H.
  destruct (is_empty d).
  - destruct (is_empty (parse_blocks heading_re content [])).
    + destruct (is_empty (parse_blocks bold_re content []));
        inversion H; subst. now apply parse_blocks_invariant.
    + inversion H; subst. now apply parse_blocks_invariant.
  - now inversion H; subst.
Qed.
End Invariant.

(** X8. The names of the mapping [parse_response] returns are pairwise
    distinct: a name that comes again overwrites the entry and adds none. *)
Theorem parse_response_distinct_names (content : pystr) (files : dict)
    (warnings : list event) :
  parse_response content = Ok (files, warnings) -> NoDup (map fst files).
Proof.
  intros H. destruct warnings as [|e l].
  - apply (parse_response_invariant (fun d => NoDup (map fst d))) with content;
      [|apply NoDup_nil_2|exact H].
    intros n c d. apply dict_set_NoDup.
  - destruct (parse_sections_ok content []) as [d Hd].
    rewrite (parse_response_cases content d Hd) in H.
    destruct (is_empty d); [|discriminate H].
    destruct (is_empty (parse_blocks heading_re content [])); [|discriminate H].
    destruct (is_empty (parse_blocks bold_re content [])); [|discriminate H].
    inversion H; subst. cbn. apply NoDup_singleton.
Qed.

Lemma parse_response_distinct_names_witness :
  exists files,
    parse_response (flat_map render two_sections) = Ok (files, []) /\
    NoDup (map fst files).
Proof.
  eexists. split; [vm_compute; reflexivity|].
  eapply (parse_response_distinct_names (flat_map render two_sections)).
  vm_compute. reflexivity.
Defined.

(** X9. What a pattern strategy returns is trimmed: when no warning is
    printed, no name and no content of the mapping begins or ends with white
    space. *)
Theorem pattern_entries_are_trimmed (content : pystr) (files : dict) :
  parse_response content = Ok (files, []) ->
  forall k v, In (k, v) files -> strip k = k /\ strip v = v.
Proof.
  intros H.
  apply (parse_response_invariant
           (fun d => forall k v, In (k, v) d -> strip k = k /\ strip v = v))
    with content; [|intros k v []|exact H].
  intros n c d Hd k v Hin. apply dict_set_In in Hin as [[-> ->]|Hin].
  - split; apply strip_strip.
  - now apply Hd.
Qed.

Lemma pattern_entries_are_trimmed_witness :
  strip (py "main.js") = py "main.js" /\ strip (py "run()") = py "run()".
Proof.
  apply (pattern_entries_are_trimmed bold_text [(py "main.js", py "run()")]).
  - vm_compute. reflexivity.
  - now left.
Defined.

(** ** The loop of the primary format *)

Lemma pair_up_unpair ps : pair_up (unpair ps) = ps.
Proof.
  induction ps as [|[n b] ps IH]; cbn [unpair flat_map app pair_up fst snd];
    [reflexivity|]. f_equal. exact IH.
Qed.

Lemma length_unpair ps : length (unpair ps) = (2 * length ps)%nat.
Proof.
  induction ps as [|[n b] ps IH]; cbn [unpair flat_map app length]; [reflexivity|].
  fold (unpair ps). rewrite IH. lia.
Qed.

Lemma unpair_app ps qs : unpair (ps ++ qs) = unpair ps ++ unpair qs.
Proof. unfold unpair. apply flat_map_app. Qed.

(** [re.split] gives the text before the first match and then, for every
    match, its group and the text after it. *)
Lemma split_shape r s :
  exists g0 ps, split r s = g0 :: unpair ps.
Proof.
  unfold split. destruct (scan r 0 0 [] s) as [ms tl].
  induction ms as [|[g c] ms (g0 & ps & IH)]; cbn [flat_map app].
  - exists tl, []. reflexivity.
  - cbn [fst snd]. rewrite IH. exists g, ((group 1 c, g0) :: ps). reflexivity.
Qed.

Lemma py_range_odd n :
  py_range 1 (1 + 2 * n) 2 = map (fun k => (1 + k * 2)%nat) (seq 0 n).
Proof.
  unfold py_range. f_equal. f_equal.
  replace (1 + 2 * n - 1 + 2 - 1)%nat with (1 + n * 2)%nat by lia.
  rewrite Nat.div_add by lia. reflexivity.
Qed.

Lemma section_step_store g0 done n b todo files :
  section_step (g0 :: unpair (done ++ (n, b) :: todo))
               (1 + length done * 2) files
  = Ok (store files (n, b)).
Proof.
  unfold section_step, getitem.
  set (parts := g0 :: unpair (done ++ (n, b) :: todo)).
  assert (Hlen : length parts = (1 + 2 * (length done + S (length todo)))%nat).
  { subst parts. cbn [length]. rewrite length_unpair, length_app. cbn [length]. lia. }
  assert (Hn : parts !! (1 + length done * 2)%nat = Some n).
  { subst parts. rewrite unpair_app.
    change (g0 :: unpair done ++ unpair ((n, b) :: todo))
      with ((g0 :: unpair done) ++ n :: b :: unpair todo).
    rewrite lookup_app_r by (cbn [length]; rewrite length_unpair; lia).
    cbn [length]. rewrite length_unpair.
    now replace (1 + length done * 2 - S (2 * length done))%nat with 0%nat by lia. }
  assert (Hb : parts !! (1 + length done * 2 + 1)%nat = Some b).
  { subst parts. rewrite unpair_app.
    change (g0 :: unpair done ++ unpair ((n, b) :: todo))
      with ((g0 :: unpair done) ++ n :: b :: unpair todo).
    rewrite lookup_app_r by (cbn [length]; rewrite length_unpair; lia).
    cbn [length]. rewrite length_unpair.
    now replace (1 + length done * 2 + 1 - S (2 * length done))%nat with 1%nat by lia. }
  rewrite Hn. cbn [bind].
  assert (Hg : (1 + length done * 2 + 1 <? length parts)%nat = true)
    by (apply Nat.ltb_lt; lia).
  rewrite Hg, Hb. cbn [bind]. unfold store, clean_body. cbn [fst snd].
  destruct (strip n); [reflexivity|].
  now destruct (sub fence_close_re [] (rstrip (sub fence_open_re [] (strip b)))).
Qed.

Lemma section_loop_fold g0 todo : forall done files,
  section_loop (g0 :: unpair (done ++ todo))
               (map (fun k => (1 + k * 2)%nat) (seq (length done) (length todo)))
               files
  = Ok (foldl store files todo).
Proof.
  induction todo as [|[n b] todo IH]; intros done files;
    cbn [length seq map section_loop foldl]; [reflexivity|].
  rewrite section_step_store. cbn [bind].
  replace (done ++ (n, b) :: todo) with ((done ++ [(n, b)]) ++ todo)
    by now rewrite <- app_assoc.
  replace (S (length done)) with (length (done ++ [(n, b)]))
    by (rewrite length_app; cbn [length]; lia).
  apply IH.
Qed.

Lemma parse_sections_fold (content : pystr) (files : dict) :
  parse_sections content files
  = Ok (foldl store files (pair_up (tail (split marker_re content)))).
Proof.
  unfold parse_sections.
  destruct (split_shape marker_re content) as (g0 & ps & ->).
  cbn [tail length]. rewrite pair_up_unpair, length_unpair.
  destruct ps as [|p ps]; [reflexivity|].
  assert (Hlt : (1 <? S (2 * length (p :: ps)))%nat = true)
    by (apply Nat.ltb_lt; cbn [length]; lia).
  rewrite Hlt.
  change (S (2 * length (p :: ps))) with (1 + 2 * length (p :: ps))%nat.
  rewrite py_range_odd. apply (section_loop_fold g0 (p :: ps) []).
Qed.

(** X10. The loop of the primary format never meets a name without a body:
    [re.split] returns the preamble and then names and bodies in turn, so
    the pieces after the preamble are taken two by two, a name with the text
    up to the next marker, and stored in turn; the preamble is not looked
    at, and the branch for a missing body is never taken. *)
Theorem parse_sections_is_fold (content : pystr) (files : dict) :
  (exists n, length (split marker_re content) = S (2 * n)) /\
  parse_sections content files
  = Ok (foldl store files (pair_up (tail (split marker_re content)))).
Proof.
  split; [|apply parse_sections_fold].
  destruct (split_shape marker_re content) as (g0 & ps & ->).
  exists (length ps). cbn [length]. now rewrite length_unpair.
Qed.

(** ** Replies in the primary format *)

Lemma no_triple_drop i : forall s, no_triple s = true -> no_triple (drop i s) = true.
Proof.
  induction i as [|i IH]; intros [|x s] H; cbn [drop]; try assumption.
  apply IH. cbn [no_triple] in H. now apply andb_true_iff in H as [_ H].
Qed.

Lemma no_triple_head s : no_triple s = true -> startswith s (py "===") = false.
Proof.
  destruct s as [|x s]; [reflexivity|]. cbn [no_triple]. intros H.
  apply andb_true_iff in H as [H _]. now apply negb_true_iff in H.
Qed.

(** A match of the marker pattern begins with [===] and a character that is
    not [=]. *)
Lemma marker_head pos t n c :
  match_at marker_re pos t = Some (n, c) ->
  exists x t', t = py "===" ++ x :: t' /\ x <> EQ.
Proof.
  intros H. apply marker_match_inv in H
    as (ws1 & name & ws2 & rest & -> & H1 & _ & Hn & _).
  destruct name as [|c0 nm]; [discriminate Hn|]. cbn [is_marker_name] in Hn.
  apply andb_true_iff in Hn as [Hn _]. apply andb_true_iff in Hn as [Hc0 _].
  destruct ws1 as [|a ws1].
  - exists c0. eexists. split; [reflexivity|].
    intros ->. discriminate Hc0.
  - exists a. eexists. split; [reflexivity|].
    cbn [forallb] in H1. apply andb_true_iff in H1 as [Ha _].
    intros ->. discriminate Ha.
Qed.

Lemma no_match_in_gap g i pos t x :
  no_triple g = true -> (i < length g)%nat -> x <> EQ ->
  match_at marker_re pos (drop i g ++ py "===" ++ x :: t) = None.
Proof.
  intros Hg Hi Hx.
  destruct (match_at marker_re pos _) as [[n c]|] eqn:Hm; [exfalso|reflexivity].
  apply marker_head in Hm as (y & t' & E & Hy).
  pose proof (no_triple_head _ (no_triple_drop i g Hg)) as Hh.
  assert (Hlen : drop i g <> []).
  { intros E0. apply (f_equal length) in E0. rewrite length_drop in E0.
    cbn [length] in E0. lia. }
  destruct (drop i g) as [|a [|b [|d u]]]; [contradiction| | |].
  - cbn in E. inversion E. subst. contradiction.
  - cbn in E. inversion E. subst. contradiction.
  - cbn in E. inversion E. subst. cbn in Hh. discriminate Hh.
Qed.

Lemma no_match_in_last_gap g i pos :
  no_triple g = true ->
  match_at marker_re pos (drop i g) = None.
Proof.
  intros Hg.
  destruct (match_at marker_re pos _) as [[n c]|] eqn:Hm; [exfalso|reflexivity].
  apply marker_head in Hm as (y & t' & E & Hy).
  pose proof (no_triple_head _ (no_triple_drop i g Hg)) as Hh.
  rewrite E in Hh. discriminate Hh.
Qed.

(** Over a stretch without a match, the scanner gathers the text. *)
Lemma scan_gap r g : forall s pos acc,
  (forall i, (i < length g)%nat -> match_at r (pos + i) (drop i g ++ s) = None) ->
  scan r pos 0 acc (g ++ s) = scan r (pos + length g) 0 (rev g ++ acc) s.
Proof.
  induction g as [|x g IH]; intros s pos acc Hno; cbn [app length rev].
  - now rewrite Nat.add_0_r.
  - cbn [scan].
    pose proof (Hno 0%nat ltac:(cbn [length]; lia)) as H0.
    rewrite Nat.add_0_r in H0. cbn [drop app] in H0. rewrite H0.
    rewrite IH.
    + rewrite <- app_assoc. f_equal. lia.
    + intros i Hi. specialize (Hno (S i) ltac:(cbn [length]; lia)).
      cbn [drop] in Hno. now replace (S pos + i)%nat with (pos + S i)%nat by lia.
Qed.

Lemma split_no_marker g : no_triple g = true -> split marker_re g = [g].
Proof.
  intros Hg. unfold split.
  rewrite <- (app_nil_r g) at 1. rewrite scan_gap.
  - cbn [scan].
    replace (match_at marker_re (0 + length g) []) with (@None (nat * caps)).
    + cbn. now rewrite app_nil_r, rev_involutive.
    + symmetry. rewrite <- (drop_all g). now apply no_match_in_last_gap.
  - intros i Hi. rewrite app_nil_r. now apply no_match_in_last_gap.
Qed.

Lemma split_gap_marker g ws1 name ws2 rest :
  no_triple g = true ->
  forallb isspace ws1 = true -> forallb isspace ws2 = true ->
  is_marker_name name = true ->
  split marker_re (g ++ py "===" ++ ws1 ++ name ++ ws2 ++ py "===" ++ rest)
  = g :: name :: split marker_re rest.
Proof.
  intros Hg H1 H2 Hn. unfold split.
  assert (Hx : exists x t, ws1 ++ name ++ ws2 ++ py "===" ++ rest = x :: t /\ x <> EQ).
  { destruct name as [|c0 nm]; [discriminate Hn|]. cbn [is_marker_name] in Hn.
    apply andb_true_iff in Hn as [Hn _]. apply andb_true_iff in Hn as [Hc0 _].
    destruct ws1 as [|a ws1].
    - exists c0. eexists. split; [reflexivity|]. intros ->. discriminate Hc0.
    - exists a. eexists. split; [reflexivity|].
      cbn [forallb] in H1. apply andb_true_iff in H1 as [Ha _].
      intros ->. discriminate Ha. }
  destruct Hx as (x & t & Ex & Hx).
  rewrite scan_gap.
  2:{ intros i Hi. rewrite Ex. now apply no_match_in_gap. }
  pose proof (marker_match ws1 name ws2 rest (0 + length g) H1 H2 Hn) as Hm.
  set (m := py "==" ++ ws1 ++ name ++ ws2 ++ py "===").
  assert (Em : py "===" ++ ws1 ++ name ++ ws2 ++ py "===" ++ rest
               = EQ :: m ++ rest).
  { subst m. rewrite <- !app_assoc. reflexivity. }
  rewrite Em in *. cbn [scan]. rewrite Hm.
  assert (Elen : (3 + length ws1 + length name + length ws2 + 3)%nat
                 = S (length m)).
  { subst m. rewrite !length_app. cbn [length py map list_ascii_of_string]. lia. }
  rewrite Elen. rewrite scan_skip.
  rewrite (scan_shift marker_re eq_refl rest _ 0%nat).
  destruct (scan marker_re 0 0 [] rest) as [ms tl]. cbn [flat_map app fst snd group].
  rewrite app_nil_r, rev_involutive. reflexivity.
Qed.

Lemma split_sections secs : forall pre,
  no_triple pre = true -> forallb well_formed secs = true ->
  split marker_re (pre ++ flat_map render secs)
  = pre :: unpair (map (fun s => (s_name s, s_body s)) secs).
Proof.
  induction secs as [|s secs IH]; intros pre Hpre Hwf; cbn [flat_map map unpair].
  - rewrite app_nil_r. now apply split_no_marker.
  - cbn [forallb] in Hwf. apply andb_true_iff in Hwf as [Hs Hwf].
    unfold well_formed in Hs.
    apply andb_true_iff in Hs as [Hs Hb]. apply andb_true_iff in Hs as [Hs Hn].
    apply andb_true_iff in Hs as [H1 H2].
    unfold render at 1. rewrite <- !app_assoc.
    rewrite (split_gap_marker pre _ _ _ _ Hpre H1 H2 Hn).
    rewrite (IH (s_body s) Hb Hwf). reflexivity.
Qed.

Lemma not_space_eq_tight x : not_space_eq x = true -> isspace x = false.
Proof.
  unfold not_space_eq. intros H. apply negb_true_iff, orb_false_iff in H. tauto.
Qed.

Lemma strip_marker_name name : is_marker_name name = true -> strip name = name.
Proof.
  destruct name as [|c0 nm]; [discriminate|]. cbn [is_marker_name]. intros H.
  apply andb_true_iff in H as [H Hl]. apply andb_true_iff in H as [Hc0 _].
  apply strip_fix.
  - cbn [tight_front]. now apply not_space_eq_tight.
  - destruct (last (c0 :: nm)) as [x|] eqn:E; [|discriminate Hl].
    apply last_Some in E as [l' E]. rewrite E, rev_unit. cbn [tight_front].
    now apply negb_true_iff.
Qed.

Lemma store_keep files s :
  is_marker_name (s_name s) = true ->
  store files (s_name s, s_body s) = keep files s.
Proof.
  intros Hn. unfold store, keep. cbn [fst snd].
  rewrite (strip_marker_name _ Hn).
  destruct (s_name s); [discriminate Hn|reflexivity].
Qed.

Lemma foldl_store_keep secs : forall files,
  forallb well_formed secs = true ->
  foldl store files (map (fun s => (s_name s, s_body s)) secs)
  = foldl keep files secs.
Proof.
  induction secs as [|s secs IH]; intros files Hwf; cbn [map foldl]; [reflexivity|].
  cbn [forallb] in Hwf. apply andb_true_iff in Hwf as [Hs Hwf].
  rewrite store_keep, IH; [reflexivity|assumption|].
  unfold well_formed in Hs.
  apply andb_true_iff in Hs as [Hs _]. now apply andb_true_iff in Hs as [_ Hn].
Qed.

Lemma parse_rendered (pre : pystr) (secs : list sect) :
  no_triple pre = true -> forallb well_formed secs = true ->
  parse_sections (pre ++ flat_map render secs) [] = Ok (foldl keep [] secs).
Proof.
  intros Hpre Hwf.
  rewrite parse_sections_fold, (split_sections secs pre Hpre Hwf).
  cbn [tail]. rewrite pair_up_unpair. f_equal. now apply foldl_store_keep.
Qed.

Lemma parse_response_rendered (pre : pystr) (secs : list sect) :
  no_triple pre = true -> forallb well_formed secs = true ->
  foldl keep [] secs <> [] ->
  parse_response (pre ++ flat_map render secs) = Ok (foldl keep [] secs, []).
Proof.
  intros Hpre Hwf Hne.
  rewrite (parse_response_cases _ _ (parse_rendered pre secs Hpre Hwf)).
  destruct (foldl keep [] secs); [contradiction|reflexivity].
Qed.

(** X11. A reply in the primary format is read back section by section: for
    a preamble without [===] and sections whose marker lines have white
    space around a name and whose bodies have no [===], the mapping is what
    storing the sections in turn gives: each body stripped of one fence and
    trimmed; a section whose body comes out empty is left out, and a name
    that comes again overwrites in place.  The preamble is dropped. *)
Theorem sections_are_extracted (pre : pystr) (secs : list sect) :
  no_triple pre = true ->
  forallb well_formed secs = true ->
  parse_sections (pre ++ flat_map render secs) [] = Ok (foldl keep [] secs) /\
  (foldl keep [] secs <> [] ->
   parse_response (pre ++ flat_map render secs) = Ok (foldl keep [] secs, [])).
Proof.
  intros Hpre Hwf. split.
  - now apply parse_rendered.
  - now apply parse_response_rendered.
Qed.

Lemma sections_are_extracted_witness :
  parse_sections (py "Here is the site.
" ++ flat_map render two_sections) []
  = Ok (foldl keep [] two_sections) /\
  (foldl keep [] two_sections <> [] ->
   parse_response (py "Here is the site.
" ++ flat_map render two_sections)
   = Ok (foldl keep [] two_sections, [])).
Proof.
  apply (sections_are_extracted (py "Here is the site.
") two_sections); reflexivity.
Defined.

(** ** Bodies *)

Lemma drop_while_In p s x : In x (drop_while p s) -> In x s.
Proof.
  induction s as [|a s IH]; cbn [drop_while]; [trivial|].
  destruct (p a); [intros H; right; now apply IH|trivial].
Qed.

Lemma strip_In s x : In x (strip s) -> In x s.
Proof.
  unfold strip, rstrip, lstrip. intros H.
  apply in_rev, drop_while_In, in_rev in H. now apply drop_while_In in H.
Qed.

Lemma rstrip_strip s : rstrip (strip s) = strip s.
Proof. apply rstrip_fix. apply strip_tight. Qed.

Lemma strip_opener_plain s : startswith s (py "```") = false -> strip_opener s = s.
Proof. intros H. unfold strip_opener. now rewrite H. Qed.

Lemma is_closer_has_tick t : is_closer t -> In TICK t.
Proof.
  intros (nl & ws & -> & _). apply in_or_app. right. now left.
Qed.

Lemma sub_fence_close_plain s : ~ In TICK s -> sub fence_close_re [] s = s.
Proof.
  intros Hn. destruct (sub_fence_close s) as (removed & E & [->|Hc]).
  - now rewrite app_nil_r in E.
  - exfalso. apply Hn. rewrite E. apply in_or_app. right.
    now apply is_closer_has_tick.
Qed.

(** A body without a backquote is kept as it is, trimmed. *)
Lemma clean_body_plain b : ~ In TICK b -> clean_body b = strip b.
Proof.
  intros Hn. unfold clean_body.
  assert (Hs : ~ In TICK (strip b)) by (intros H; now apply Hn, strip_In).
  rewrite sub_fence_open, strip_opener_plain.
  - rewrite rstrip_strip. now apply sub_fence_close_plain.
  - destruct (strip b) as [|x s] eqn:E; [reflexivity|].
    cbn [py map list_ascii_of_string startswith].
    destruct (x =? N_of_ascii "`"%char) eqn:Ex; [|reflexivity].
    apply N.eqb_eq in Ex. exfalso. apply Hs. left. now rewrite Ex.
Qed.

(** Without a match anywhere, the scanner has found none. *)
Lemma scan_none_inv r : forall s pos acc tl,
  scan r pos 0 acc s = ([], tl) ->
  forall i, (i <= length s)%nat -> match_at r (pos + i) (drop i s) = None.
Proof.
  induction s as [|x s IH]; intros pos acc tl H i Hi; cbn [scan] in H.
  - cbn [length] in Hi. replace i with 0%nat by lia. rewrite Nat.add_0_r.
    cbn [drop]. destruct (match_at r pos []) as [[n c]|]; [discriminate H|reflexivity].
  - destruct (match_at r pos (x :: s)) as [[n c]|] eqn:Hm.
    + destruct n; destruct (scan r (S pos) _ _ s); discriminate H.
    + destruct i as [|i]; [now rewrite Nat.add_0_r|].
      cbn [drop]. replace (pos + S i)%nat with (S pos + i)%nat by lia.
      eapply IH; [exact H|]. cbn [length] in Hi. lia.
Qed.

Lemma strip_snoc_space r x : isspace x = true -> strip (r ++ [x]) = strip r.
Proof.
  intros Hx. unfold strip.
  assert (Hr : forall u, rstrip (u ++ [x]) = rstrip u).
  { intros u. unfold rstrip, lstrip. rewrite rev_unit. cbn [drop_while].
    now rewrite Hx. }
  assert (Hl : lstrip (r ++ [x]) = lstrip r ++ [x] \/
               (lstrip (r ++ [x]) = [] /\ lstrip r = [])).
  { unfold lstrip. induction r as [|a r IH]; cbn [app drop_while].
    - rewrite Hx. now right.
    - destruct (isspace a); [exact IH|now left]. }
  destruct Hl as [->|[-> ->]]; [apply Hr|reflexivity].
Qed.

Lemma fence_close_at_end pos : 
  match_at fence_close_re pos (py "```") = Some (3%nat, []).
Proof.
  unfold match_at, fence_close_re, star, opt. cbn [mt].
  change (py "```") with (py "```" ++ []).
  cbn [rep app py map list_ascii_of_string stop_here only].
  cbn. f_equal. f_equal. lia.
Qed.

Lemma drop_while_app_stop p u x t :
  forallb p u = true -> p x = false -> drop_while p (u ++ x :: t) = x :: t.
Proof.
  induction u as [|a u IH]; cbn [forallb app drop_while]; intros Hu Hx.
  - now rewrite Hx.
  - apply andb_prop in Hu as [-> Hu]. now apply IH.
Qed.

Lemma strip_opener_fenced tag t :
  forallb letter tag = true ->
  strip_opener (py "```" ++ tag ++ NL :: t) = t.
Proof.
  intros Ht. unfold strip_opener.
  change (startswith (py "```" ++ tag ++ NL :: t) (py "```")) with true.
  change (drop 3 (py "```" ++ tag ++ NL :: t)) with (tag ++ NL :: t).
  cbv iota.
  rewrite drop_while_app_stop; [|assumption|reflexivity].
  now rewrite N.eqb_refl.
Qed.

Lemma lstrip_app_space ws s : forallb isspace ws = true -> lstrip (ws ++ s) = lstrip s.
Proof.
  unfold lstrip. induction ws as [|a ws IH]; cbn [forallb app drop_while]; [trivial|].
  intros H. apply andb_prop in H as [-> H]. now apply IH.
Qed.

Lemma rstrip_app_space s ws : forallb isspace ws = true -> rstrip (s ++ ws) = rstrip s.
Proof.
  intros H. unfold rstrip. rewrite rev_app_distr, lstrip_app_space; [reflexivity|].
  rewrite forallb_forall in *. intros x Hx. apply H. now apply in_rev.
Qed.

Lemma rstrip_snoc_tight s x : isspace x = false -> rstrip (s ++ [x]) = s ++ [x].
Proof.
  intros Hx. unfold rstrip, lstrip. rewrite rev_unit. cbn [drop_while].
  rewrite Hx. cbn [rev]. now rewrite rev_involutive.
Qed.

(** The closer pattern removes a fence token at the end of the text, and
    one newline before it if there is one. *)
Lemma sub_fence_close_token t :
  exists nl, (nl = [] \/ nl = [NL]) /\
    t = sub fence_close_re [] (t ++ py "```") ++ nl.
Proof.
  destruct (sub_fence_close (t ++ py "```")) as (removed & E & Hr).
  unfold sub in *.
  destruct (scan fence_close_re 0 0 [] (t ++ py "```")) as [ms tl] eqn:Hscan.
  destruct Hr as [->|(nl & ws & -> & Hnl & Hws)].
  - exfalso. rewrite app_nil_r in E.
    destruct (scan_to_end fence_close_re) with (s := t ++ py "```")
      (pos := 0%nat) (acc := @nil N) as [E'|(pre & u & c & E1 & Hm & E')].
    + intros pos u n c H. apply fence_close_match_inv in H as [-> Hc].
      split; [reflexivity|now apply is_closer_nonempty].
    + pose proof (scan_none_inv _ _ _ _ _ E' (length t)) as Hno.
      rewrite drop_app_length in Hno. rewrite fence_close_at_end in Hno.
      discriminate Hno. rewrite length_app. lia.
    + rewrite E' in Hscan. injection Hscan as <- <-.
      cbn [flat_map fst snd app] in E. rewrite !app_nil_r in E. rewrite E1 in E.
      apply (f_equal (@length N)) in E. rewrite length_app in E.
      apply fence_close_match_inv in Hm as [_ Hc].
      apply is_closer_nonempty in Hc. destruct u; [congruence|cbn in E; lia].
  - set (r := flat_map (fun m => m.1 ++ []) ms ++ tl) in *.
    assert (ws = []) as ->.
    { destruct ws as [|y ws' _] using rev_ind; [reflexivity|exfalso].
      rewrite forallb_app in Hws. apply andb_prop in Hws as [_ Hy].
      cbn in Hy. rewrite andb_true_r in Hy.
      replace (t ++ py "```") with ((t ++ py "``") ++ [TICK]) in E
        by (now rewrite <- app_assoc).
      rewrite !app_assoc in E. apply app_inj_tail in E as [_ <-].
      discriminate Hy. }
    rewrite app_nil_r in E. rewrite app_assoc in E.
    apply app_inv_tail in E. exists nl. split; [exact Hnl|exact E].
Qed.

(** A body that is a fenced block, whatever stands between the fences. *)
Lemma clean_body_fenced (ws1 tag inner ws2 : pystr) :
  forallb isspace ws1 = true -> forallb isspace ws2 = true ->
  forallb letter tag = true ->
  strip (clean_body (ws1 ++ py "```" ++ tag ++ NL :: inner ++ py "```" ++ ws2))
  = strip inner.
Proof.
  intros H1 H2 Ht. unfold clean_body.
  assert (Es : strip (ws1 ++ py "```" ++ tag ++ NL :: inner ++ py "```" ++ ws2)
               = py "```" ++ tag ++ NL :: inner ++ py "```").
  { unfold strip. rewrite lstrip_app_space by assumption.
    change (lstrip (py "```" ++ tag ++ NL :: inner ++ py "```" ++ ws2))
      with (py "```" ++ tag ++ NL :: inner ++ py "```" ++ ws2).
    replace (py "```" ++ tag ++ NL :: inner ++ py "```" ++ ws2)
      with ((py "```" ++ tag ++ NL :: inner ++ py "``") ++ [TICK] ++ ws2)
      by (rewrite <- !app_assoc; cbn; now rewrite <- !app_assoc).
    rewrite app_assoc, rstrip_app_space by assumption.
    rewrite rstrip_snoc_tight by reflexivity.
    rewrite <- !app_assoc. cbn. now rewrite <- !app_assoc. }
  rewrite Es, sub_fence_open, strip_opener_fenced by assumption.
  replace (inner ++ py "```") with ((inner ++ py "``") ++ [TICK])
    by (now rewrite <- app_assoc).
  rewrite rstrip_snoc_tight by reflexivity.
  rewrite <- app_assoc. change (py "``" ++ [TICK]) with (py "```").
  destruct (sub_fence_close_token inner) as (nl & Hnl & E).
  rewrite E at 2. destruct Hnl as [->| ->]; [now rewrite app_nil_r|].
  now rewrite strip_snoc_space.
Qed.

Lemma parse_one_section (pre : pystr) (s : sect) (text : pystr) :
  no_triple pre = true -> well_formed s = true ->
  strip (clean_body (s_body s)) = text -> text <> [] ->
  parse_response (pre ++ render s) = Ok ([(s_name s, text)], []).
Proof.
  intros Hpre Hwf Ht Hne.
  assert (Hc : clean_body (s_body s) <> []).
  { intros E. rewrite E in Ht. now subst text. }
  pose proof (parse_response_rendered pre [s] Hpre) as H.
  cbn [flat_map forallb foldl] in H. rewrite app_nil_r, andb_true_r in H.
  rewrite H; [| assumption |].
  - unfold keep. destruct (clean_body (s_body s)); [contradiction|].
    cbn [dict_set]. now rewrite Ht.
  - unfold keep. destruct (clean_body (s_body s)); [contradiction|].
    discriminate.
Qed.

(** X12. A section whose body has no backquote and is not blank: the entry
    holds the body, trimmed, under the name of the marker line. *)
Theorem plain_section (pre : pystr) (s : sect) :
  no_triple pre = true -> well_formed s = true ->
  ~ In TICK (s_body s) -> strip (s_body s) <> [] ->
  parse_response (pre ++ render s) = Ok ([(s_name s, strip (s_body s))], []).
Proof.
  intros Hpre Hwf Hn Hne. apply parse_one_section; try assumption.
  rewrite clean_body_plain by assumption. apply strip_strip.
Qed.

Lemma plain_section_witness :
  parse_response (py "Sure!
" ++ render (Sect (py " ") (py "index.html") (py " ") (py "
<p>hi</p>
")))
  = Ok ([(py "index.html", strip (py "
<p>hi</p>
"))], []).
Proof.
  apply (plain_section (py "Sure!
") (Sect (py " ") (py "index.html") (py " ") (py "
<p>hi</p>
"))).
  - reflexivity.
  - reflexivity.
  - vm_compute. intuition discriminate.
  - vm_compute. discriminate.
Defined.

(** X13. A section whose body is one fenced block, with white space around
    it: whatever the language tag, the two fence lines go and the entry
    holds the text between them, trimmed. *)
Theorem fenced_section (pre : pystr) (s : sect) (ws1 tag inner ws2 : pystr) :
  no_triple pre = true -> well_formed s = true ->
  s_body s = ws1 ++ py "```" ++ tag ++ NL :: inner ++ py "```" ++ ws2 ->
  forallb isspace ws1 = true -> forallb isspace ws2 = true ->
  forallb letter tag = true -> ~ In TICK inner -> strip inner <> [] ->
  parse_response (pre ++ render s) = Ok ([(s_name s, strip inner)], []).
Proof.
  intros Hpre Hwf Hb H1 H2 Ht Hn Hne. apply parse_one_section; try assumption.
  rewrite Hb. now apply clean_body_fenced.
Qed.

Lemma fenced_section_witness :
  parse_response
    ([] ++ render (Sect [] (py "style.css") (py " ") (py "
```css
body {}
```
")))
  = Ok ([(py "style.css", strip (py "body {}
"))], []).
Proof.
  apply (fenced_section [] (Sect [] (py "style.css") (py " ") (py "
```css
body {}
```
")) (py "
") (py "css") (py "body {}
") (py "
")).
  - reflexivity.
  - reflexivity.
  - reflexivity.
  - reflexivity.
  - reflexivity.
  - reflexivity.
  - vm_compute. intuition discriminate.
  - vm_compute. discriminate.
Defined.

(** ** The shape of a match of the heading and bold patterns *)

Section MoreInversion.
Context {R : Type}.
Implicit Types (k : @cont R) (s : pystr) (c : caps).

(** A repetition takes at least its lower bound. *)
Lemma rep_inv_lo p g k : forall s lo hi pos c r,
  rep p g k lo hi pos s c = Some r ->
  exists run s', s = run ++ s' /\ forallb p run = true /\
    (lo <= length run)%nat /\
    k (pos + length run)%nat s' c = Some r.
Proof.
  assert (Hstop : forall lo pos s c r, stop_here lo k pos s c = Some r ->
            exists run s', s = run ++ s' /\ forallb p run = true /\
              (lo <= length run)%nat /\
              k (pos + length run)%nat s' c = Some r).
  { intros lo pos s c r H. destruct lo; [|discriminate H].
    exists [], s. cbn [length app forallb]. rewrite Nat.add_0_r.
    repeat split; [lia|assumption]. }
  assert (Hmore : forall x s lo pos c r, p x = true ->
            (exists run s', s = run ++ s' /\ forallb p run = true /\
               (pred lo <= length run)%nat /\
               k (S pos + length run)%nat s' c = Some r) ->
            exists run s', x :: s = run ++ s' /\ forallb p run = true /\
               (lo <= length run)%nat /\
               k (pos + length run)%nat s' c = Some r).
  { intros x s lo pos c r Hx (run & s' & -> & Hrun & Hlo & Hk).
    exists (x :: run), s'. cbn [forallb app length]. rewrite Hx, Hrun.
    repeat split; [lia|].
    now replace (pos + S (length run))%nat with (S pos + length run)%nat by lia. }
  induction s as [|x s IH]; intros lo hi pos c r H; cbn [rep] in H.
  - eapply Hstop; eassumption.
  - destruct (p x) eqn:Hx; cbn [andb] in H; [|eapply Hstop; eassumption].
    destruct (more_allowed hi); [|eapply Hstop; eassumption].
    destruct g.
    + destruct (rep p true k (pred lo) (dec_hi hi) (S pos) s c) as [r'|] eqn:Hr.
      * inversion H; subst r'. apply Hmore; [assumption|]. eapply IH; eassumption.
      * eapply Hstop; eassumption.
    + destruct (stop_here lo k pos (x :: s) c) as [r'|] eqn:Hs.
      * inversion H; subst r'. eapply Hstop; eassumption.
      * apply Hmore; [assumption|]. eapply IH; eassumption.
Qed.

Lemma mt_chr_inv a k pos s c r :
  mt (Chr a) k pos s c = Some r ->
  exists s', s = a :: s' /\ k (S pos) s' c = Some r.
Proof.
  cbn [mt]. destruct s as [|x s]; [discriminate|].
  destruct (x =? a) eqn:E; [|discriminate].
  apply N.eqb_eq in E. subst x. eauto.
Qed.

Lemma take_app_exact (u v : pystr) pos n :
  n = (pos + length u)%nat -> take (n - pos) (u ++ v) = u.
Proof.
  intros ->. replace (pos + length u - pos)%nat with (length u) by lia.
  now rewrite take_app_length.
Qed.

Lemma filename_grp_inv k pos s c r :
  mt filename_grp k pos s c = Some r ->
  exists name s', s = name ++ s' /\ is_filename name /\
    k (pos + length name)%nat s' ((1%nat, name) :: c) = Some r.
Proof.
  unfold filename_grp, plus. cbn [mt]. intros H.
  apply rep_inv_lo in H as (stem & s1 & -> & Hstem & Hlo & H).
  destruct s1 as [|x s1]; [discriminate H|].
  destruct (x =? DOT) eqn:E; [|discriminate H].
  apply N.eqb_eq in E. subst x.
  apply rep_inv_lo in H as (ext & s2 & -> & Hext & Hlo' & H).
  exists (stem ++ DOT :: ext), s2.
  split; [now rewrite <- app_assoc|]. split.
  - exists stem, ext. repeat split; try assumption.
    + intros ->. cbn [length] in Hlo. lia.
    + intros ->. cbn [length] in Hlo'. lia.
  - replace (stem ++ DOT :: ext ++ s2) with ((stem ++ DOT :: ext) ++ s2) in H
      by (now rewrite <- app_assoc).
    rewrite take_app_exact in H by (rewrite length_app; cbn [length]; lia).
    replace (pos + length (stem ++ DOT :: ext))%nat
      with (S (pos + length stem) + length ext)%nat
      by (rewrite length_app; cbn [length]; lia).
    exact H.
Qed.

Lemma fenced_block_inv k pos s c r :
  mt fenced_block k pos s c = Some r ->
  exists tag body rest,
    s = NL :: py "```" ++ tag ++ NL :: body ++ py "```" ++ rest /\
    forallb letter tag = true /\
    k (pos + (1 + 3 + length tag + 1 + length body + 3))%nat rest
      ((2%nat, body) :: c) = Some r.
Proof.
  unfold fenced_block, star, star_lazy. cbn [mt]. intros H.
  destruct s as [|x s]; [discriminate H|].
  destruct (x =? NL) eqn:E; [|discriminate H].
  apply N.eqb_eq in E. subst x.
  apply mt_lit_inv in H as (s1 & -> & H).
  apply rep_inv in H as (tag & s2 & -> & Htag & H).
  destruct s2 as [|x s2]; [discriminate H|].
  destruct (x =? NL) eqn:E; [|discriminate H].
  apply N.eqb_eq in E. subst x.
  apply rep_inv in H as (body & s3 & -> & _ & H).
  rewrite take_app_exact in H by lia.
  apply mt_lit_inv in H as (rest & -> & H).
  exists tag, body, rest. repeat split; [assumption|].
  change (length (py "```")) with 3%nat in H.
  match goal with
  | H : k ?a _ _ = _ |- k ?b _ _ = _ => replace b with a by lia
  end.
  exact H.
Qed.
End MoreInversion.

(** What a match of the heading pattern looks like. *)
Lemma heading_match_inv pos s n c :
  match_at heading_re pos s = Some (n, c) ->
  exists pre name tag body rest,
    s = pre ++ name ++ NL :: py "```" ++ tag ++ NL :: body ++ py "```" ++ rest /\
    is_filename name /\ c = [(2%nat, body); (1%nat, name)].
Proof.
  unfold match_at, heading_re. cbn [mt]. intros H.
  match type of H with
  | match ?a with _ => _ end = _ =>
      assert (Hpre : exists pre s1 pos1, s = pre ++ s1 /\
                mt filename_grp
                  (mt fenced_block (fun pos' _ c0 => Some ((pos' - pos)%nat, c0)))
                  pos1 s1 [] = Some (n, c))
  end.
  { match type of H with
    | match ?a with _ => _ end = _ => destruct a as [res|] eqn:HA
    end.
    - inversion H; subst res. clear H.
      apply rep_inv in HA as (r1 & s1 & -> & _ & HA).
      unfold star in HA. cbn [mt] in HA.
      apply rep_inv in HA as (r2 & s2 & -> & _ & HA).
      exists (r1 ++ r2), s2, (pos + length r1 + length r2)%nat.
      split; [now rewrite <- app_assoc|exact HA].
    - apply rep_inv in H as (r1 & s1 & -> & _ & H).
      unfold star in H. cbn [mt] in H.
      apply rep_inv in H as (r2 & s2 & -> & _ & H).
      destruct s2 as [|x s2]; [discriminate H|].
      destruct (x =? NL) eqn:E; [|discriminate H].
      exists (r1 ++ r2 ++ [x]), s2, (S (pos + length r1 + length r2)).
      split; [now rewrite <- !app_assoc|exact H]. }
  clear H. destruct Hpre as (pre & s1 & pos1 & -> & H).
  apply filename_grp_inv in H as (name & s2 & -> & Hname & H).
  apply fenced_block_inv in H as (tag & body & rest & -> & _ & H).
  inversion H; subst. exists pre, name, tag, body, rest. auto.
Qed.

(** What a match of the bold pattern looks like. *)
Lemma bold_match_inv pos s n c :
  match_at bold_re pos s = Some (n, c) ->
  exists name ws tag body rest,
    s = py "**" ++ name ++ py "**" ++ ws ++ NL :: py "```" ++ tag ++ NL :: body
        ++ py "```" ++ rest /\
    is_filename name /\ c = [(2%nat, body); (1%nat, name)].
Proof.
  unfold match_at, bold_re. cbn [mt]. intros H.
  apply (mt_lit_inv (py "**")) in H as (s1 & -> & H).
  apply filename_grp_inv in H as (name & s2 & -> & Hname & H).
  apply (mt_lit_inv (py "**")) in H as (s3 & -> & H).
  unfold star in H. cbn [mt] in H.
  apply rep_inv in H as (ws & s4 & -> & _ & H).
  apply fenced_block_inv in H as (tag & body & rest & -> & _ & H).
  inversion H; subst. exists name, ws, tag, body, rest. auto.
Qed.

(** Every match the scanner reports is a match of the pattern at some place
    of the text. *)
Lemma scan_matches r : forall s pos skip acc m,
  In m (scan r pos skip acc s).1 ->
  exists u t pos' n, s = u ++ t /\ match_at r pos' t = Some (n, m.2).
Proof.
  induction s as [|x s IH]; intros pos skip acc m Hin.
  - destruct skip as [|k]; cbn [scan] in Hin; [|destruct Hin].
    destruct (match_at r pos []) as [[n c]|] eqn:Hm; [|destruct Hin].
    destruct Hin as [<-|[]]. exists [], [], pos, n. now split.
  - destruct skip as [|k]; cbn [scan] in Hin.
    + destruct (match_at r pos (x :: s)) as [[n c]|] eqn:Hm.
      * assert (Hrec : forall k' acc', 
                  In m (((rev acc, c) ::
                         (scan r (S pos) k' acc' s).1)) ->
                  exists u t pos' n, x :: s = u ++ t /\
                    match_at r pos' t = Some (n, m.2)).
        { intros k' acc' [<-|Hin'].
          - exists [], (x :: s), pos, n. now split.
          - apply IH in Hin' as (u & t & pos' & n' & -> & Hm').
            exists (x :: u), t, pos', n'. now split. }
        destruct n as [|n].
        -- destruct (scan r (S pos) 0 [x] s) as [ms tl] eqn:E.
           apply (Hrec 0%nat [x]). now rewrite E.
        -- destruct (scan r (S pos) n [] s) as [ms tl] eqn:E.
           apply (Hrec n []). now rewrite E.
      * apply IH in Hin as (u & t & pos' & n' & -> & Hm').
        exists (x :: u), t, pos', n'. now split.
    + apply IH in Hin as (u & t & pos' & n' & -> & Hm').
      exists (x :: u), t, pos', n'. now split.
Qed.

(** Without a match at any place, the scanner finds none. *)
Lemma scan_none r : forall s pos acc,
  (forall i, (i <= length s)%nat -> match_at r (pos + i) (drop i s) = None) ->
  scan r pos 0 acc s = ([], rev acc ++ s).
Proof.
  induction s as [|x s IH]; intros pos acc Hno; cbn [scan].
  - specialize (Hno 0%nat (le_n _)). rewrite Nat.add_0_r in Hno. cbn [drop] in Hno.
    rewrite Hno. now rewrite app_nil_r.
  - pose proof (Hno 0%nat ltac:(lia)) as H0. rewrite Nat.add_0_r in H0.
    cbn [drop] in H0. rewrite H0. rewrite IH.
    + cbn [rev]. now rewrite <- app_assoc.
    + intros i Hi. specialize (Hno (S i) ltac:(cbn [length]; lia)).
      cbn [drop] in Hno. now replace (S pos + i)%nat with (pos + S i)%nat by lia.
Qed.

(** ** The names of the entries *)

Lemma fname_char_tight x : fname_char x = true -> isspace x = false.
Proof.
  intros H. destruct (isspace x) eqn:E; [|reflexivity]. exfalso.
  unfold fname_char, in_range, isspace, DOT, SLASH in *.
  cbn [py map list_ascii_of_string] in H.
  change (N_of_ascii "a") with 97 in H. change (N_of_ascii "z") with 122 in H.
  change (N_of_ascii "A") with 65 in H. change (N_of_ascii "Z") with 90 in H.
  change (N_of_ascii "0") with 48 in H. change (N_of_ascii "9") with 57 in H.
  repeat match type of H with
  | (_ || _)%bool = true => apply orb_true_iff in H as [H|H]
  end;
  repeat match type of E with
  | (_ || _)%bool = true => apply orb_true_iff in E as [E|E]
  end;
  repeat match goal with
  | H : (_ && _)%bool = true |- _ => apply andb_true_iff in H as [? ?]
  end;
  repeat match goal with
  | H : (_ <=? _) = true |- _ => apply N.leb_le in H
  | H : (_ =? _) = true |- _ => apply N.eqb_eq in H
  end; lia.
Qed.

Lemma letter_tight x : letter x = true -> isspace x = false.
Proof.
  intros H. apply fname_char_tight. unfold fname_char, letter in *.
  now rewrite H.
Qed.

Lemma strip_filename name : is_filename name -> strip name = name.
Proof.
  intros (stem & ext & -> & Hs & Hstem & He & Hext). apply strip_fix.
  - destruct stem as [|x stem]; [contradiction|]. cbn [app tight_front].
    cbn [forallb] in Hstem. apply andb_true_iff in Hstem as [Hx _].
    now apply fname_char_tight.
  - destruct ext as [|y ext' _] using rev_ind; [contradiction|].
    rewrite app_comm_cons, app_assoc, rev_unit. cbn [tight_front].
    rewrite forallb_app in Hext. apply andb_true_iff in Hext as [_ Hy].
    cbn [forallb] in Hy. rewrite andb_true_r in Hy. now apply letter_tight.
Qed.

Lemma index_html_is_filename : is_filename (py "index.html").
Proof.
  exists (py "index"), (py "html"). repeat split; try discriminate; reflexivity.
Qed.

(** The names the section loop sees are the captures of the marker pattern. *)
Lemma pair_up_split_names r s nb :
  In nb (pair_up (tail (split r s))) ->
  exists u t pos n c, s = u ++ t /\ match_at r pos t = Some (n, c) /\
    nb.1 = group 1 c.
Proof.
  unfold split. destruct (scan r 0 0 [] s) as [ms tl] eqn:E.
  assert (Hms : forall m, In m ms ->
            exists u t pos n, s = u ++ t /\ match_at r pos t = Some (n, m.2)).
  { intros m Hm. apply (scan_matches r s 0%nat 0%nat [] m). now rewrite E. }
  clear E. revert Hms.
  induction ms as [|m ms IH]; intros Hms; cbn [flat_map app tail pair_up].
  - intros [].
  - assert (Hne : exists h, flat_map (fun m => [m.1; group 1 m.2]) ms ++ [tl]
                    = h :: tail (flat_map (fun m => [m.1; group 1 m.2]) ms ++ [tl])).
    { destruct ms as [|m' ms']; cbn [flat_map app tail]; eauto. }
    destruct Hne as (h & Hh). rewrite Hh. cbn [pair_up].
    intros [<-|Hin].
    + destruct (Hms m (or_introl eq_refl)) as (u & t & pos & n & -> & Hm).
      exists u, t, pos, n, m.2. auto.
    + apply IH; [|exact Hin]. intros m' Hm'. apply Hms. now right.
Qed.

Lemma dict_set_key k v d k0 v0 :
  In (k0, v0) (dict_set k v d) -> k0 = k \/ In k0 (map fst d).
Proof.
  intros H. apply dict_set_In in H as [[-> _]|H]; [now left|right].
  apply in_map_iff. now exists (k0, v0).
Qed.

Lemma foldl_store_names l : forall files k v,
  In (k, v) (foldl store files l) ->
  In k (map fst files) \/ exists nb, In nb l /\ k = strip nb.1.
Proof.
  induction l as [|nb l IH]; intros files k v; cbn [foldl].
  - intros H. left. apply in_map_iff. now exists (k, v).
  - intros H. apply IH in H as [H|(nb' & Hin & ->)].
    + unfold store in H. 
      destruct (strip nb.1) as [|a nm] eqn:En; [now left|].
      destruct (clean_body nb.2) as [|b bd]; [now left|].
      apply in_map_iff in H as ([k1 v1] & E1 & H). cbn [fst] in E1. subst k1.
      apply dict_set_key in H as [->|H]; [|now left].
      right. exists nb. split; [now left|now symmetry].
    + right. exists nb'. split; [now right|reflexivity].
Qed.

Lemma section_names content d k v :
  parse_sections content [] = Ok d -> In (k, v) d -> is_marker_name k = true.
Proof.
  rewrite parse_sections_fold. intros E Hin. inversion E; subst d. clear E.
  apply foldl_store_names in Hin as [[]|(nb & Hnb & ->)].
  apply pair_up_split_names in Hnb as (u & t & pos & n & c & _ & Hm & ->).
  apply marker_match_inv in Hm
    as (ws1 & name & ws2 & rest & _ & _ & _ & Hname & _ & ->).
  cbn [group Nat.eqb]. now rewrite strip_marker_name.
Qed.

Lemma parse_blocks_names pattern content k v :
  In (k, v) (parse_blocks pattern content []) ->
  exists u t pos n c, content = u ++ t /\
    match_at pattern pos t = Some (n, c) /\ k = strip (group 1 c).
Proof.
  unfold parse_blocks, finditer.
  destruct (scan pattern 0 0 [] content) as [ms tl] eqn:E. cbn [fst].
  assert (Hms : forall m, In m ms ->
            exists u t pos n, content = u ++ t /\
              match_at pattern pos t = Some (n, m.2)).
  { intros m Hm. apply (scan_matches pattern content 0%nat 0%nat [] m).
    now rewrite E. }
  clear E.
  enough (Hgen : forall files,
            In (k, v) (foldl (fun fs m =>
                         dict_set (strip (group 1 m)) (strip (group 2 m)) fs)
                       files (map snd ms)) ->
            In k (map fst files) \/
            exists u t pos n c, content = u ++ t /\
              match_at pattern pos t = Some (n, c) /\ k = strip (group 1 c)).
  { intros H. now apply Hgen in H as [[]|H]. }
  induction ms as [|m ms IH]; intros files; cbn [map foldl].
  - intros H. left. apply in_map_iff. now exists (k, v).
  - intros H. apply IH in H as [H|H]; [|now right|intros m' Hm'; apply Hms; now right].
    apply in_map_iff in H as ([k1 v1] & E1 & H). cbn [fst] in E1. subst k1.
    apply dict_set_key in H as [->|H]; [|now left].
    right. destruct (Hms m (or_introl eq_refl)) as (u & t & pos & n & -> & Hm).
    exists u, t, pos, n, m.2. auto.
Qed.

(** X15. Every name of the mapping [parse_response] returns is a capture of
    the marker pattern (a first character that is neither white space nor
    [=], no [=] and no newline, no white space at the end) or has the shape
    of a file name (characters of [[a-zA-Z0-9_.\-/]], a dot, letters): it
    is never empty, and the path check of [write_files] is what stands
    between such a name and the file system, for [../x] and [/x] are among
    them. *)
Theorem entry_names_shape (content : pystr) (files : dict)
    (ev : list event) (k v : pystr) :
  parse_response content = Ok (files, ev) -> In (k, v) files ->
  is_marker_name k = true \/ is_filename k.
Proof.
  destruct (parse_sections_ok content []) as (d & Hd).
  rewrite (parse_response_cases _ _ Hd).
  destruct (is_empty d) eqn:Ed.
  - destruct (is_empty (parse_blocks heading_re content [])) eqn:Eh.
    + destruct (is_empty (parse_blocks bold_re content [])) eqn:Eb.
      * intros E Hin. inversion E; subst. destruct Hin as [Hin|[]].
        inversion Hin; subst. right. apply index_html_is_filename.
      * intros E Hin. inversion E; subst. right.
        apply parse_blocks_names in Hin as (u & t & pos & n & c & _ & Hm & ->).
        apply bold_match_inv in Hm
          as (name & ws & tag & body & rest & _ & Hname & ->).
        cbn [group Nat.eqb]. now rewrite strip_filename.
    + intros E Hin. inversion E; subst. right.
      apply parse_blocks_names in Hin as (u & t & pos & n & c & _ & Hm & ->).
      apply heading_match_inv in Hm
        as (pre & name & tag & body & rest & _ & Hname & ->).
      cbn [group Nat.eqb]. now rewrite strip_filename.
  - intros E Hin. inversion E; subst. left. eapply section_names; eassumption.
Qed.

Lemma entry_names_shape_witness :
  is_marker_name (py "main.js") = true \/ is_filename (py "main.js").
Proof.
  apply (entry_names_shape bold_text [(py "main.js", py "run()")] []
           (py "main.js") (py "run()")).
  - vm_compute. reflexivity.
  - now left.
Defined.

(** ** Text without markers and fences *)

Lemma no_fence_drop i : forall s, no_fence s = true -> no_fence (drop i s) = true.
Proof.
  induction i as [|i IH]; intros [|x s] H; cbn [drop]; try assumption.
  apply IH. cbn [no_fence] in H. now apply andb_true_iff in H as [_ H].
Qed.

Lemma no_fence_app u v : no_fence (u ++ py "```" ++ v) = false.
Proof.
  induction u as [|x u IH].
  - cbn [app no_fence py map list_ascii_of_string startswith].
    now rewrite !N.eqb_refl.
  - cbn [app no_fence]. rewrite IH. apply andb_false_r.
Qed.

Lemma no_fence_no_match r content :
  no_fence content = true ->
  (forall pos t n c, match_at r pos t = Some (n, c) ->
     exists u v, t = u ++ py "```" ++ v) ->
  finditer r content = [].
Proof.
  intros Hnf Hr. unfold finditer. rewrite scan_none; [reflexivity|].
  intros i Hi. destruct (match_at r (0 + i) (drop i content)) as [[n c]|] eqn:Hm;
    [exfalso|reflexivity].
  apply Hr in Hm as (u & v & E).
  pose proof (no_fence_drop i _ Hnf) as Hd. rewrite E, no_fence_app in Hd.
  discriminate Hd.
Qed.

Lemma parse_plain content :
  no_triple content = true -> no_fence content = true ->
  parse_response content = Ok ([(py "index.html", content)], [WarnUnparsed]).
Proof.
  intros Hnt Hnf.
  assert (Hd : parse_sections content [] = Ok []).
  { unfold parse_sections. now rewrite split_no_marker. }
  rewrite (parse_response_cases _ _ Hd). cbn [is_empty].
  assert (Hh : parse_blocks heading_re content [] = []).
  { unfold parse_blocks. rewrite no_fence_no_match; [reflexivity|assumption|].
    intros pos t n c Hm. apply heading_match_inv in Hm
      as (pre & name & tag & body & rest & -> & _).
    exists (pre ++ name ++ [NL]), (tag ++ NL :: body ++ py "```" ++ rest).
    now rewrite <- !app_assoc. }
  assert (Hb : parse_blocks bold_re content [] = []).
  { unfold parse_blocks. rewrite no_fence_no_match; [reflexivity|assumption|].
    intros pos t n c Hm. apply bold_match_inv in Hm
      as (name & ws & tag & body & rest & -> & _).
    exists (py "**" ++ name ++ py "**" ++ ws ++ [NL]),
           (tag ++ NL :: body ++ py "```" ++ rest).
    now rewrite <- !app_assoc. }
  now rewrite Hh, Hb.
Qed.

(** X16. A text without [===] and without three backquotes in a row is
    matched by none of the three strategies: it becomes the single entry
    [index.html], as it is, and the warning is printed. *)
Theorem plain_text_falls_back (content : pystr) :
  no_triple content = true -> no_fence content = true ->
  parse_response content = Ok ([(py "index.html", content)], [WarnUnparsed]).
Proof. apply parse_plain. Qed.

Lemma plain_text_falls_back_witness :
  parse_response plain_text = Ok ([(py "index.html", plain_text)], [WarnUnparsed]).
Proof. apply (plain_text_falls_back plain_text); reflexivity. Defined.

(** ** A name that comes again *)

Lemma dict_get_set k v d : dict_get k (dict_set k v d) = Some v.
Proof.
  induction d as [|[k' v'] d IH]; cbn [dict_set dict_get].
  - now rewrite pystr_eqb_refl.
  - destruct (pystr_eqb k' k) eqn:E; cbn [dict_get]; now rewrite E.
Qed.

Lemma dict_get_set_other k k' v d :
  k' <> k -> dict_get k (dict_set k' v d) = dict_get k d.
Proof.
  intros Hne. induction d as [|[k1 v1] d IH]; cbn [dict_set dict_get].
  - unfold pystr_eqb. now rewrite bool_decide_eq_false_2.
  - destruct (pystr_eqb k1 k') eqn:E; cbn [dict_get].
    + unfold pystr_eqb in *. apply bool_decide_eq_true in E. subst k1.
      now rewrite bool_decide_eq_false_2.
    + now rewrite IH.
Qed.

Lemma dict_get_In k v d : dict_get k d = Some v -> In (k, v) d.
Proof.
  induction d as [|[k1 v1] d IH]; cbn [dict_get]; [discriminate|].
  unfold pystr_eqb. destruct (bool_decide (k1 = k)) eqn:E.
  - apply bool_decide_eq_true in E. subst k1. intros H. inversion H. now left.
  - intros H. right. now apply IH.
Qed.

Lemma foldl_keep_other k secs : forall d,
  Forall (fun s => s_name s <> k) secs ->
  dict_get k (foldl keep d secs) = dict_get k d.
Proof.
  induction secs as [|s secs IH]; intros d H; cbn [foldl]; [reflexivity|].
  inversion H as [|? ? Hs Hrest]; subst. rewrite IH by assumption.
  unfold keep. destruct (clean_body (s_body s)); [reflexivity|].
  now apply dict_get_set_other.
Qed.

Lemma foldl_keep_last secs1 s secs2 d :
  clean_body (s_body s) <> [] ->
  Forall (fun s' => s_name s' <> s_name s) secs2 ->
  dict_get (s_name s) (foldl keep d (secs1 ++ s :: secs2))
  = Some (strip (clean_body (s_body s))).
Proof.
  intros Hb Hlater. rewrite foldl_app. cbn [foldl].
  rewrite foldl_keep_other by assumption.
  unfold keep at 1. destruct (clean_body (s_body s)); [contradiction|].
  apply dict_get_set.
Qed.

(** X14. Of the sections of a reply that carry the same name, the last one
    with a body that is not empty gives the content; the sections before it
    leave no trace but the place of the name in the mapping. *)
Theorem last_section_wins (pre : pystr) (secs1 : list sect) (s : sect)
    (secs2 : list sect) :
  no_triple pre = true ->
  forallb well_formed (secs1 ++ s :: secs2) = true ->
  clean_body (s_body s) <> [] ->
  Forall (fun s' => s_name s' <> s_name s) secs2 ->
  exists files,
    parse_response (pre ++ flat_map render (secs1 ++ s :: secs2))
    = Ok (files, []) /\
    dict_get (s_name s) files = Some (strip (clean_body (s_body s))).
Proof.
  intros Hpre Hwf Hb Hlater.
  pose proof (foldl_keep_last secs1 s secs2 [] Hb Hlater) as Hget.
  exists (foldl keep [] (secs1 ++ s :: secs2)). split; [|exact Hget].
  apply parse_response_rendered; try assumption.
  intros E. rewrite E in Hget. discriminate Hget.
Qed.

Lemma last_section_wins_witness :
  exists files,
    parse_response
      ([] ++ flat_map render
         ([Sect (py " ") (py "a.txt") (py " ") (py " one ")]
          ++ Sect (py " ") (py "a.txt") (py " ") (py " two ")
          :: [Sect (py " ") (py "b.txt") (py " ") (py " three ")]))
    = Ok (files, []) /\
    dict_get (py "a.txt") files = Some (strip (clean_body (py " two "))).
Proof.
  apply (last_section_wins []
           [Sect (py " ") (py "a.txt") (py " ") (py " one ")]
           (Sect (py " ") (py "a.txt") (py " ") (py " two "))
           [Sect (py " ") (py "b.txt") (py " ") (py " three ")]).
  - reflexivity.
  - reflexivity.
  - vm_compute. discriminate.
  - repeat constructor. vm_compute. discriminate.
Defined.

(** ** Replies in the heading and bold formats *)

Section Forward.
Context {R : Type}.
Implicit Types (k : @cont R) (s : pystr) (c : caps).

(** A greedy repetition takes the whole run, within its bounds, when the
    rest then matches. *)
Lemma rep_greedy_take p k run : forall s lo hi pos c r,
  forallb p run = true ->
  (lo <= length run)%nat ->
  match hi with Some h => (length run <= h)%nat | None => True end ->
  stops p s \/ hi = Some (length run) ->
  k (pos + length run)%nat s c = Some r ->
  rep p true k lo hi pos (run ++ s) c = Some r.
Proof.
  induction run as [|a run IH]; intros s lo hi pos c r Hrun Hlo Hhi Hs Hk;
    cbn [app length] in *.
  - rewrite Nat.add_0_r in Hk. replace lo with 0%nat by lia.
    destruct s as [|x s]; cbn [rep stop_here]; [assumption|].
    destruct Hs as [Hs| ->].
    + cbn [stops] in Hs. now rewrite Hs.
    + cbn [more_allowed]. now rewrite andb_false_r.
  - cbn [forallb] in Hrun. apply andb_true_iff in Hrun as [Ha Hrun].
    cbn [rep]. rewrite Ha.
    assert (Hm : more_allowed hi = true).
    { destruct hi as [[|h]|]; cbn [more_allowed]; try reflexivity. lia. }
    rewrite Hm. cbn [andb].
    rewrite (IH s (pred lo) (dec_hi hi) (S pos) c r); try assumption.
    + reflexivity.
    + lia.
    + destruct hi as [h|]; cbn [dec_hi]; [lia|exact I].
    + destruct Hs as [Hs| ->]; [now left|right; reflexivity].
    + now replace (S pos + length run)%nat with (pos + S (length run))%nat by lia.
Qed.

(** When the rest matches at no cut of the run, the repetition fails. *)
Lemma rep_greedy_none p k v : forall s lo pos c,
  forallb p v = true -> stops p s ->
  (forall j, (j <= length v)%nat -> k (pos + j)%nat (drop j v ++ s) c = None) ->
  rep p true k lo None pos (v ++ s) c = None.
Proof.
  induction v as [|a v IH]; intros s lo pos c Hv Hs Hk; cbn [app].
  - specialize (Hk 0%nat (le_n _)). rewrite Nat.add_0_r in Hk. cbn [drop app] in Hk.
    destruct s as [|x s]; cbn [rep]; [now destruct lo|].
    cbn [stops] in Hs. rewrite Hs. cbn [andb]. now destruct lo.
  - cbn [forallb] in Hv. apply andb_true_iff in Hv as [Ha Hv].
    cbn [rep]. rewrite Ha. cbn [andb more_allowed dec_hi].
    rewrite IH; try assumption.
    + pose proof (Hk 0%nat ltac:(lia)) as H0. rewrite Nat.add_0_r in H0.
      cbn [drop app] in H0. now destruct lo.
    + intros j Hj. specialize (Hk (S j) ltac:(cbn [length]; lia)).
      cbn [drop] in Hk. now replace (S pos + j)%nat with (pos + S j)%nat by lia.
Qed.

(** A greedy repetition gives characters back until the rest matches. *)
Lemma rep_greedy_back p k u : forall v s lo pos c r,
  forallb p u = true -> forallb p v = true -> stops p s ->
  (lo <= length u)%nat ->
  (forall j, (1 <= j <= length v)%nat ->
     k (pos + length u + j)%nat (drop j v ++ s) c = None) ->
  k (pos + length u)%nat (v ++ s) c = Some r ->
  rep p true k lo None pos (u ++ v ++ s) c = Some r.
Proof.
  induction u as [|a u IH]; intros v s lo pos c r Hu Hv Hs Hlo Hfail Hk;
    cbn [app length] in *.
  - rewrite Nat.add_0_r in Hk. replace lo with 0%nat by lia.
    destruct v as [|b v]; cbn [app] in *.
    + destruct s as [|x s]; cbn [rep stop_here]; [assumption|].
      cbn [stops] in Hs. now rewrite Hs.
    + cbn [forallb] in Hv. apply andb_true_iff in Hv as [Hb Hv].
      cbn [rep]. rewrite Hb. cbn [andb more_allowed dec_hi pred].
      rewrite rep_greedy_none; [exact Hk|assumption|assumption|].
      intros j Hj. specialize (Hfail (S j) ltac:(cbn [length]; lia)).
      cbn [drop] in Hfail.
      now replace (S pos + j)%nat with (pos + 0 + S j)%nat by lia.
  - cbn [forallb] in Hu. apply andb_true_iff in Hu as [Ha Hu].
    cbn [rep]. rewrite Ha. cbn [andb more_allowed dec_hi].
    rewrite (IH v s (pred lo) (S pos) c r); try assumption.
    + reflexivity.
    + lia.
    + intros j Hj. specialize (Hfail j Hj).
      now replace (S pos + length u + j)%nat with (pos + S (length u) + j)%nat by lia.
    + now replace (S pos + length u)%nat with (pos + S (length u))%nat by lia.
Qed.
End Forward.

Lemma letter_fname x : letter x = true -> fname_char x = true.
Proof. unfold fname_char, letter. intros H. now rewrite H. Qed.

Lemma letter_not_dot x : letter x = true -> (x =? DOT) = false.
Proof.
  unfold letter, in_range. cbn [py map list_ascii_of_string].
  change (N_of_ascii "a") with 97. change (N_of_ascii "z") with 122.
  change (N_of_ascii "A") with 65. change (N_of_ascii "Z") with 90.
  unfold DOT. intros H. apply N.eqb_neq. intros ->. discriminate H.
Qed.

Lemma stops_weaken (p q : char -> bool) s :
  (forall x, q x = true -> p x = true) -> stops p s -> stops q s.
Proof.
  intros Hpq. destruct s as [|x s]; [trivial|]. cbn [stops]. intros Hp.
  destruct (q x) eqn:E; [|reflexivity]. apply Hpq in E. congruence.
Qed.

Section Blocks.
Context {R : Type}.
Implicit Types (k : @cont R) (s : pystr) (c : caps).

Lemma filename_grp_match k pos name s c r :
  is_filename name -> stops fname_char s ->
  k (pos + length name)%nat s ((1%nat, name) :: c) = Some r ->
  mt filename_grp k pos (name ++ s) c = Some r.
Proof.
  intros (stem & ext & -> & Hs0 & Hstem & He0 & Hext) Hs Hk.
  unfold filename_grp, plus. cbn [mt]. rewrite <- app_assoc.
  assert (Hextf : forallb fname_char ext = true).
  { rewrite forallb_forall in *. intros x Hx. now apply letter_fname, Hext. }
  apply rep_greedy_back.
  - assumption.
  - cbn [forallb]. now rewrite Hextf.
  - assumption.
  - destruct stem; [contradiction|cbn [length]; lia].
  - intros j Hj. destruct j as [|j]; [lia|]. cbn [length] in Hj.
    change (drop (S j) (DOT :: ext)) with (drop j ext).
    destruct (drop j ext ++ s) as [|x t] eqn:E; [reflexivity|].
    replace (x =? DOT) with false; [reflexivity|]. symmetry.
    destruct (decide (j < length ext)%nat) as [Hlt|Hge].
    + apply letter_not_dot. rewrite forallb_forall in Hext. apply Hext.
      destruct (drop j ext) as [|y t'] eqn:Ed.
      * apply (f_equal length) in Ed. rewrite length_drop in Ed.
        cbn [length] in Ed. lia.
      * cbn [app] in E. inversion E; subst y.
        rewrite <- (take_drop j ext), Ed. apply in_or_app. right. now left.
    + rewrite drop_ge in E by lia. cbn [app] in E. subst s.
      cbn [stops] in Hs. destruct (x =? DOT) eqn:Ex; [|reflexivity].
      apply N.eqb_eq in Ex. subst x. discriminate Hs.
  - cbn [app]. rewrite N.eqb_refl.
    apply rep_greedy_take.
    + assumption.
    + destruct ext; [contradiction|cbn [length]; lia].
    + exact I.
    + left. eapply stops_weaken; [|exact Hs]. apply letter_fname.
    + replace (stem ++ DOT :: ext ++ s) with ((stem ++ DOT :: ext) ++ s)
        by (now rewrite <- app_assoc).
      replace (S (pos + length stem) + length ext - pos)%nat
        with (length (stem ++ DOT :: ext))
        by (rewrite length_app; cbn [length]; lia).
      rewrite take_app_length.
      replace (S (pos + length stem) + length ext)%nat
        with (pos + length (stem ++ DOT :: ext))%nat
        by (rewrite length_app; cbn [length]; lia).
      exact Hk.
Qed.

Lemma body_ends_at_fence body rest j :
  no_fence (body ++ py "``") = true -> (j < length body)%nat ->
  startswith (drop j body ++ py "```" ++ rest) (py "```") = false.
Proof.
  intros Hnf Hj.
  pose proof (no_fence_drop j _ Hnf) as Hd. rewrite drop_app_le in Hd by lia.
  destruct (drop j body) as [|x t] eqn:E.
  { apply (f_equal length) in E. rewrite length_drop in E. cbn [length] in E. lia. }
  cbn [app no_fence] in Hd. apply andb_true_iff in Hd as [Hd _].
  apply negb_true_iff in Hd.
  cbn [app py map list_ascii_of_string startswith] in *.
  destruct (x =? N_of_ascii "`"%char); [|reflexivity]. cbn [andb] in *.
  destruct t as [|y t]; cbn [app] in *.
  - exact Hd.
  - destruct (y =? N_of_ascii "`"%char); [|reflexivity]. cbn [andb] in *.
    destruct t as [|z t]; cbn [app] in *; exact Hd.
Qed.

Lemma fenced_block_match k pos tag body rest c r :
  forallb letter tag = true -> no_fence (body ++ py "``") = true ->
  k (pos + (1 + 3 + length tag + 1 + length body + 3))%nat rest
    ((2%nat, body) :: c) = Some r ->
  mt fenced_block k pos (NL :: py "```" ++ tag ++ NL :: body ++ py "```" ++ rest) c
  = Some r.
Proof.
  intros Htag Hnf Hk. unfold fenced_block, star, star_lazy. cbn [mt].
  rewrite N.eqb_refl, mt_lit. cbn [mt].
  apply rep_greedy_take; [assumption|lia|exact I|left; reflexivity|].
  cbn [mt]. rewrite N.eqb_refl.
  apply rep_lazy_run.
  - now apply forallb_forall.
  - intros j Hj. apply mt_lit_none. now apply body_ends_at_fence.
  - rewrite mt_lit.
    match goal with
    | |- context [take ?n (body ++ ?t)] =>
        replace n with (length body) by lia
    end.
    rewrite take_app_length.
    change (length (py "```")) with 3%nat.
    match goal with
    | |- k ?a _ _ = _ => replace a with
        (pos + (1 + 3 + length tag + 1 + length body + 3))%nat by lia
    end.
    exact Hk.
Qed.
End Blocks.

Lemma filename_head name :
  is_filename name -> exists x t, name = x :: t /\ fname_char x = true.
Proof.
  intros (stem & ext & -> & Hs0 & Hstem & _).
  destruct stem as [|x stem]; [contradiction|].
  cbn [forallb] in Hstem. apply andb_true_iff in Hstem as [Hx _].
  now exists x, (stem ++ DOT :: ext).
Qed.

Lemma heading_match (b : block) (rest : pystr) (pos : nat) :
  block_ok b -> (1 <= b_level b <= 4)%nat ->
  match_at heading_re pos (as_heading b ++ rest)
  = Some (length (as_heading b), [(2%nat, b_body b); (1%nat, b_name b)]).
Proof.
  intros (Hsp & Hname & Htag & Hnf) Hlev.
  destruct (filename_head _ Hname) as (x & t & En & Hx).
  unfold match_at, heading_re, as_heading, fenced. cbn [mt].
  rewrite <- !app_assoc.
  match goal with
  | |- match ?a with _ => _ end = ?v => assert (E : a = v); [|now rewrite E]
  end.
  apply rep_greedy_take.
  - apply forallb_forall. intros y Hy. apply list_elem_of_In, elem_of_replicate in Hy.
    destruct Hy as [-> _]. unfold only. apply N.eqb_refl.
  - rewrite length_replicate. lia.
  - rewrite length_replicate. lia.
  - left. destruct (b_space b) as [|y sp] eqn:Es.
    + cbn [app]. rewrite En. cbn [app stops]. unfold only.
      apply N.eqb_neq. intros ->. discriminate Hx.
    + cbn [app stops]. cbn [forallb] in Hsp. apply andb_true_iff in Hsp as [Hy _].
      unfold only. apply N.eqb_neq. intros ->. discriminate Hy.
  - unfold star. cbn [mt]. apply rep_greedy_take.
    + assumption.
    + lia.
    + exact I.
    + left. rewrite En. cbn [app stops]. now apply fname_char_tight.
    + apply filename_grp_match; [assumption|reflexivity|].
      replace ((NL :: py "```" ++ b_tag b ++ NL :: b_body b ++ py "```") ++ rest)
        with (NL :: py "```" ++ b_tag b ++ NL :: b_body b ++ py "```" ++ rest)
        by (cbn [app]; f_equal; rewrite <- !app_assoc; f_equal; f_equal;
            cbn [app]; f_equal; now rewrite <- app_assoc).
      apply fenced_block_match; [assumption|assumption|].
      f_equal. f_equal.
      rewrite !length_app, length_replicate. cbn [length].
      rewrite !length_app. cbn [length]. rewrite !length_app.
      change (length (py "```")) with 3%nat. lia.
Qed.

Lemma bold_match (b : block) (rest : pystr) (pos : nat) :
  block_ok b ->
  match_at bold_re pos (as_bold b ++ rest)
  = Some (length (as_bold b), [(2%nat, b_body b); (1%nat, b_name b)]).
Proof.
  intros (Hsp & Hname & Htag & Hnf).
  unfold match_at, bold_re, as_bold, fenced. cbn [mt].
  rewrite <- !app_assoc. rewrite mt_lit.
  apply filename_grp_match; [assumption|reflexivity|].
  rewrite mt_lit. unfold star. cbn [mt].
  replace ((NL :: py "```" ++ b_tag b ++ NL :: b_body b ++ py "```") ++ rest)
    with ([NL] ++ py "```" ++ b_tag b ++ NL :: b_body b ++ py "```" ++ rest)
    by (cbn [app]; f_equal; rewrite <- !app_assoc; f_equal; f_equal;
        cbn [app]; f_equal; now rewrite <- app_assoc).
  apply rep_greedy_back.
  - assumption.
  - reflexivity.
  - reflexivity.
  - lia.
  - intros j Hj. cbn [length] in Hj. replace j with 1%nat by lia.
    reflexivity.
  - cbn [app]. apply fenced_block_match; [assumption|assumption|].
    f_equal. f_equal.
    rewrite !length_app. cbn [length]. rewrite !length_app. cbn [length].
    rewrite !length_app.
    change (length (py "```")) with 3%nat. change (length (py "**")) with 2%nat.
    lia.
Qed.

Lemma heading_start pos t n c :
  match_at heading_re pos t = Some (n, c) ->
  exists x t', t = x :: t' /\ (x = HASH \/ x = TICK).
Proof.
  unfold match_at, heading_re. cbn [mt]. intros H.
  match type of H with
  | match ?a with _ => _ end = _ => destruct a as [res|] eqn:HA
  end.
  - apply rep_inv_lo in HA as (run & s' & -> & Hrun & Hlo & _).
    destruct run as [|x run]; [cbn [length] in Hlo; lia|].
    cbn [forallb] in Hrun. apply andb_true_iff in Hrun as [Hx _].
    apply N.eqb_eq in Hx. exists x, (run ++ s'). split; [reflexivity|now left].
  - apply rep_inv_lo in H as (run & s' & -> & Hrun & Hlo & _).
    destruct run as [|x run]; [cbn [length] in Hlo; lia|].
    cbn [forallb] in Hrun. apply andb_true_iff in Hrun as [Hx _].
    apply N.eqb_eq in Hx. exists x, (run ++ s'). split; [reflexivity|now right].
Qed.

Lemma bold_start pos t n c :
  match_at bold_re pos t = Some (n, c) -> exists t', t = STAR :: t'.
Proof.
  unfold match_at, bold_re. cbn [mt]. intros H.
  apply (mt_lit_inv (py "**")) in H as (s1 & -> & _).
  now exists (STAR :: s1).
Qed.

Lemma lacks_drop a g i :
  lacks a g = true -> (i < length g)%nat ->
  exists x t, drop i g = x :: t /\ x <> a.
Proof.
  intros Hg Hi. destruct (drop i g) as [|x t] eqn:E.
  { apply (f_equal length) in E. rewrite length_drop in E. cbn [length] in E. lia. }
  exists x, t. split; [reflexivity|].
  unfold lacks in Hg. rewrite forallb_forall in Hg.
  assert (Hx : In x g).
  { rewrite <- (take_drop i g), E. apply in_or_app. right. now left. }
  apply Hg in Hx. apply negb_true_iff in Hx. now apply N.eqb_neq.
Qed.

(** ** A text laid out as matches and gaps *)

Section Layout.
Context (r : regex) {B : Type}.
Context (text gap : B -> pystr) (cap : B -> caps).
Context (ok : B -> Prop) (clear : pystr -> Prop).
Hypothesis Hmatch : forall b rest pos, ok b ->
  match_at r pos (text b ++ rest) = Some (length (text b), cap b).
Hypothesis Hlen : forall b, ok b -> text b <> [].
Hypothesis Hgap : forall g i rest pos, clear g -> (i < length g)%nat ->
  match_at r pos (drop i g ++ rest) = None.
Hypothesis Hend : forall pos, match_at r pos [] = None.
Hypothesis Hclear : forall b, ok b -> clear (gap b).

Lemma scan_layout bs : forall pre acc pos,
  clear pre -> Forall ok bs ->
  map snd (scan r pos 0 acc (pre ++ flat_map (fun b => text b ++ gap b) bs)).1
  = map cap bs.
Proof using Hmatch Hlen Hgap Hend Hclear.
  induction bs as [|b bs IH]; intros pre acc pos Hpre Hall; cbn [flat_map map].
  - rewrite scan_gap by (intros i Hi; now apply Hgap).
    cbn [scan]. now rewrite Hend.
  - apply Forall_cons in Hall as [Hb Hall].
    rewrite scan_gap by (intros i Hi; now apply Hgap).
    rewrite <- app_assoc.
    pose proof (Hmatch b (gap b ++ flat_map (fun b => text b ++ gap b) bs)
                  (pos + length pre)%nat Hb) as Hm.
    destruct (text b) as [|x m] eqn:Et; [now apply Hlen in Hb|].
    cbn [app scan]. cbn [app] in Hm. rewrite Hm. cbn [length].
    rewrite scan_skip.
    destruct (scan r _ 0 [] (gap b ++ flat_map (fun b => text b ++ gap b) bs))
      as [ms tl] eqn:Es.
    cbn [fst map snd]. f_equal.
    specialize (IH (gap b) [] (S (pos + length pre) + length m)%nat
                  (Hclear b Hb) Hall).
    now rewrite Es in IH.
Qed.

Lemma finditer_layout pre bs :
  clear pre -> Forall ok bs ->
  finditer r (pre ++ flat_map (fun b => text b ++ gap b) bs) = map cap bs.
Proof using Hmatch Hlen Hgap Hend Hclear.
  intros Hpre Hall. unfold finditer. now apply scan_layout.
Qed.
End Layout.

Lemma foldl_block_caps bs : forall files,
  Forall block_ok bs ->
  foldl (fun fs m => dict_set (strip (group 1 m)) (strip (group 2 m)) fs)
        files (map block_caps bs)
  = foldl keep_block files bs.
Proof.
  induction bs as [|b bs IH]; intros files Hall; cbn [map foldl]; [reflexivity|].
  apply Forall_cons in Hall as [(_ & Hname & _) Hall].
  rewrite IH by assumption. unfold keep_block at 2, block_caps.
  cbn [group Nat.eqb]. now rewrite (strip_filename _ Hname).
Qed.

Lemma foldl_keep_block_nonempty bs : forall files,
  files <> [] \/ bs <> [] -> foldl keep_block files bs <> [].
Proof.
  induction bs as [|b bs IH]; intros files H; cbn [foldl].
  - now destruct H.
  - apply IH. left. apply dict_set_nonempty.
Qed.

Lemma no_marker_no_sections content :
  no_triple content = true -> parse_sections content [] = Ok [].
Proof. intros H. unfold parse_sections. now rewrite split_no_marker. Qed.

Lemma heading_layout pre bs :
  lacks HASH pre = true -> lacks TICK pre = true -> Forall heading_ok bs ->
  finditer heading_re (pre ++ flat_map (fun b => as_heading b ++ b_after b) bs)
  = map block_caps bs.
Proof.
  intros Hp1 Hp2 Hall.
  apply (finditer_layout heading_re as_heading b_after block_caps heading_ok
           (fun g => lacks HASH g = true /\ lacks TICK g = true)).
  - intros b rest pos (Hb & Hlev & _). now apply heading_match.
  - intros b (_ & Hlev & _) E. unfold as_heading in E.
    destruct (b_level b); [lia|discriminate E].
  - intros g i rest pos [H1 H2] Hi.
    destruct (match_at heading_re pos (drop i g ++ rest)) as [[n c]|] eqn:Hm;
      [exfalso|reflexivity].
    apply heading_start in Hm as (x & t' & E & Hx).
    destruct (lacks_drop HASH g i H1 Hi) as (y & t & Ed & Hy).
    destruct (lacks_drop TICK g i H2 Hi) as (y' & t0 & Ed' & Hy').
    rewrite Ed in E, Ed'. cbn [app] in E. inversion E; subst.
    inversion Ed'; subst. destruct Hx; contradiction.
  - intros pos. destruct (match_at heading_re pos []) as [[n c]|] eqn:Hm;
      [|reflexivity].
    apply heading_start in Hm as (x & t' & E & _). discriminate E.
  - now intros b (_ & _ & H1 & H2).
  - now split.
  - assumption.
Qed.

Lemma bold_layout pre bs :
  lacks STAR pre = true -> Forall bold_ok bs ->
  finditer bold_re (pre ++ flat_map (fun b => as_bold b ++ b_after b) bs)
  = map block_caps bs.
Proof.
  intros Hp Hall.
  apply (finditer_layout bold_re as_bold b_after block_caps bold_ok
           (fun g => lacks STAR g = true)).
  - intros b rest pos (Hb & _). now apply bold_match.
  - intros b _ E. discriminate E.
  - intros g i rest pos H1 Hi.
    destruct (match_at bold_re pos (drop i g ++ rest)) as [[n c]|] eqn:Hm;
      [exfalso|reflexivity].
    apply bold_start in Hm as (t' & E).
    destruct (lacks_drop STAR g i H1 Hi) as (y & t & Ed & Hy).
    rewrite Ed in E. cbn [app] in E. inversion E; subst. contradiction.
  - intros pos. destruct (match_at bold_re pos []) as [[n c]|] eqn:Hm;
      [|reflexivity].
    apply bold_start in Hm as (t' & E). discriminate E.
  - now intros b (_ & H1).
  - assumption.
  - assumption.
Qed.

(** X20. A reply of headings with fenced blocks is read back block by
    block: for a text without [===], made of a preamble and, per file, one
    to four [#], white space, a file name, the fenced block and the text up
    to the next heading (neither with [#] nor a backquote), the mapping
    holds every name with the trimmed text between its fences, in order, a
    later block of the same name overwriting; an empty body is stored as
    the empty string. *)
Theorem heading_blocks_are_extracted (pre : pystr) (bs : list block) :
  lacks HASH pre = true -> lacks TICK pre = true ->
  Forall heading_ok bs -> bs <> [] ->
  no_triple (pre ++ flat_map (fun b => as_heading b ++ b_after b) bs) = true ->
  parse_response (pre ++ flat_map (fun b => as_heading b ++ b_after b) bs)
  = Ok (foldl keep_block [] bs, []).
Proof.
  intros Hp1 Hp2 Hall Hne Hnt.
  rewrite (parse_response_cases _ _ (no_marker_no_sections _ Hnt)).
  cbn [is_empty].
  assert (E : parse_blocks heading_re
                (pre ++ flat_map (fun b => as_heading b ++ b_after b) bs) []
              = foldl keep_block [] bs).
  { unfold parse_blocks. rewrite heading_layout by assumption.
    apply foldl_block_caps. eapply Forall_impl; [exact Hall|]. now intros b [H _]. }
  rewrite E.
  destruct (foldl keep_block [] bs) eqn:Ef; [|reflexivity].
  exfalso. apply (foldl_keep_block_nonempty bs []); [now right|exact Ef].
Qed.

Lemma heading_blocks_are_extracted_witness :
  parse_response (py "Files:
" ++ flat_map (fun b => as_heading b ++ b_after b) two_blocks)
  = Ok (foldl keep_block [] two_blocks, []).
Proof.
  apply (heading_blocks_are_extracted (py "Files:
") two_blocks).
  - reflexivity.
  - reflexivity.
  - repeat constructor; cbn [b_level]; try lia.
    + exists (py "index"), (py "html").
      repeat split; try discriminate; reflexivity.
    + exists (py "css/site"), (py "css").
      repeat split; try discriminate; reflexivity.
  - discriminate.
  - reflexivity.
Defined.

(** X21. A reply of bold names with fenced blocks is read back block by
    block when the first two strategies find nothing: for a text without
    [===] in which the heading pattern has no match, made of a preamble
    and, per file, the name in [**], white space, the fenced block and the
    text up to the next name (without [*]), the mapping holds every name
    with the trimmed text between its fences. *)
Theorem bold_blocks_are_extracted (pre : pystr) (bs : list block) :
  lacks STAR pre = true -> Forall bold_ok bs -> bs <> [] ->
  no_triple (pre ++ flat_map (fun b => as_bold b ++ b_after b) bs) = true ->
  parse_blocks heading_re
    (pre ++ flat_map (fun b => as_bold b ++ b_after b) bs) [] = [] ->
  parse_response (pre ++ flat_map (fun b => as_bold b ++ b_after b) bs)
  = Ok (foldl keep_block [] bs, []).
Proof.
  intros Hp Hall Hne Hnt Hh.
  rewrite (parse_response_cases _ _ (no_marker_no_sections _ Hnt)).
  cbn [is_empty]. rewrite Hh. cbn [is_empty].
  assert (E : parse_blocks bold_re
                (pre ++ flat_map (fun b => as_bold b ++ b_after b) bs) []
              = foldl keep_block [] bs).
  { unfold parse_blocks. rewrite bold_layout by assumption.
    apply foldl_block_caps. eapply Forall_impl; [exact Hall|]. now intros b [H _]. }
  rewrite E.
  destruct (foldl keep_block [] bs) eqn:Ef; [|reflexivity].
  exfalso. apply (foldl_keep_block_nonempty bs []); [now right|exact Ef].
Qed.

Lemma bold_blocks_are_extracted_witness :
  parse_response (py "Files:
" ++ flat_map (fun b => as_bold b ++ b_after b) two_blocks)
  = Ok (foldl keep_block [] two_blocks, []).
Proof.
  apply (bold_blocks_are_extracted (py "Files:
") two_blocks).
  - reflexivity.
  - repeat constructor.
    + exists (py "index"), (py "html").
      repeat split; try discriminate; reflexivity.
    + exists (py "css/site"), (py "css").
      repeat split; try discriminate; reflexivity.
  - discriminate.
  - reflexivity.
  - vm_compute. reflexivity.
Defined.

(** ** main, from the reply on *)

Lemma norm_step_proper acc comp :
  proper comp -> norm_step 0 acc comp = acc ++ [comp].
Proof.
  intros (H0 & H1 & H2 & _). unfold norm_step.
  rewrite (proj2 (pystr_eqb_false comp []) H0).
  rewrite (proj2 (pystr_eqb_false comp (py ".")) H1).
  now rewrite (proj2 (pystr_eqb_false comp (py "..")) H2).
Qed.

Lemma foldl_norm_step_proper names : forall acc,
  Forall proper names -> foldl (norm_step 0) acc names = acc ++ names.
Proof.
  induction names as [|n names IH]; intros acc H; cbn [foldl].
  - now rewrite app_nil_r.
  - apply Forall_cons in H as [Hn H]. rewrite norm_step_proper by assumption.
    rewrite IH by assumption. now rewrite <- app_assoc.
Qed.

(** A clean relative name is left as it is. *)
Lemma normpath_join names :
  names <> [] -> Forall proper names ->
  normpath (join (py "/") names) = join (py "/") names.
Proof.
  intros Hne Hall. unfold normpath.
  rewrite split_join by (auto using proper_no_slash).
  destruct (join_proper_head names Hne Hall) as (c & s & E & Hc).
  rewrite E. cbn [is_empty].
  assert (Hs : startswith (c :: s) (py "/") = false).
  { cbn [py map list_ascii_of_string startswith].
    replace (c =? N_of_ascii "/"%char) with false; [reflexivity|].
    symmetry. now apply N.eqb_neq. }
  rewrite Hs. rewrite foldl_norm_step_proper by assumption.
  cbn [app replicate]. now rewrite E.
Qed.

Lemma write_flat name c w :
  flat_name name -> tree w !! cwd w = Some Dir ->
  tree w !! (cwd w ++ [name]) <> Some Dir ->
  write_entry name c w =
    (set_tree (<[cwd w ++ [name] := File c]> (tree w)) w,
     [Written name (length c)], Ok (Some name)).
Proof.
  intros [Hp Hs] Hcwd Hnd.
  assert (Hall : Forall proper [name]) by now apply Forall_singleton.
  assert (Hn : normpath name = name).
  { apply (normpath_join [name]); [discriminate|assumption]. }
  assert (Hd : dirname name = []).
  { apply (dirname_join [name]); [discriminate|assumption]. }
  assert (Hr : resolve (cwd w) name = cwd w ++ [name]).
  { apply (resolve_join (cwd w) [name]); [discriminate|assumption]. }
  rewrite write_entry_passes by now rewrite Hn.
  unfold prepare. rewrite Hn, Hd. cbn [is_empty]. rewrite set_tree_id.
  unfold open_write. rewrite Hr, removelast_last, Hcwd.
  destruct (tree w !! (cwd w ++ [name])) as [[d|]|]; try reflexivity.
  now destruct Hnd.
Qed.

Lemma replay_keeps_cwd ws : forall (t : gmap path node) root,
  t !! root = Some Dir -> Forall (fun x => x.1 <> root) ws ->
  replay ws t !! root = Some Dir.
Proof.
  unfold replay. induction ws as [|x ws IH]; intros t root Ht Hall; cbn [foldl].
  - exact Ht.
  - apply Forall_cons in Hall as [Hx Hall]. apply IH; [|assumption].
    unfold put. now rewrite lookup_insert_ne.
Qed.

Lemma write_loop_flat items : forall written out w,
  (forall f c, In (f, c) items -> flat_name f) ->
  tree w !! cwd w = Some Dir ->
  (forall f c, In (f, c) items -> tree w !! (cwd w ++ [f]) <> Some Dir) ->
  write_loop items written out w =
    (set_tree (replay (flat_writes (cwd w) items) (tree w)) w,
     out ++ map (fun e => Written e.1 (length e.2)) items,
     Ok (written ++ map fst items)).
Proof.
  induction items as [|[f c] items IH]; intros written out w Hflat Hcwd Hnd;
    cbn [write_loop flat_writes map].
  - unfold replay. cbn [foldl]. now rewrite set_tree_id, !app_nil_r.
  - rewrite (write_flat f c w); [|eapply Hflat; now left|assumption|
                                  eapply Hnd; now left].
    rewrite IH.
    + cbn [set_tree cwd tree fst snd]. unfold replay, flat_writes, put.
      cbn [foldl fst snd]. now rewrite <- !app_assoc.
    + intros f' c' Hin. apply (Hflat f' c'). now right.
    + cbn [set_tree cwd tree]. rewrite lookup_insert_ne; [exact Hcwd|].
      intros E. apply (f_equal length) in E. rewrite length_app in E.
      cbn [length] in E. lia.
    + intros f' c' Hin. cbn [set_tree cwd tree].
      destruct (decide (cwd w ++ [f] = cwd w ++ [f'])) as [->|Hne].
      * now rewrite lookup_insert_eq.
      * rewrite lookup_insert_ne by assumption. apply (Hnd f' c'). now right.
Qed.

Lemma foldl_keep_names secs : forall d k v,
  In (k, v) (foldl keep d secs) ->
  In k (map fst d) \/ exists s, In s secs /\ k = s_name s.
Proof.
  induction secs as [|s secs IH]; intros d k v; cbn [foldl].
  - intros H. left. apply in_map_iff. now exists (k, v).
  - intros H. apply IH in H as [H|(s' & Hin & ->)].
    + unfold keep in H. destruct (clean_body (s_body s)); [now left|].
      apply in_map_iff in H as ([k1 v1] & E1 & H). cbn [fst] in E1. subst k1.
      apply dict_set_key in H as [->|H]; [|now left].
      right. exists s. split; [now left|reflexivity].
    + right. exists s'. split; [now right|reflexivity].
Qed.

Lemma foldl_keep_NoDup secs : forall d,
  NoDup (map fst d) -> NoDup (map fst (foldl keep d secs)).
Proof.
  induction secs as [|s secs IH]; intros d H; cbn [foldl]; [exact H|].
  apply IH. unfold keep. destruct (clean_body (s_body s)); [exact H|].
  now apply dict_set_NoDup.
Qed.

Lemma last_write_flat (root : path) (files : dict) (k : pystr) :
  NoDup (map fst files) ->
  last_write (flat_writes root files) (root ++ [k]) = dict_get k files.
Proof.
  induction files as [|[k' v] files IH]; cbn [flat_writes map last_write dict_get];
    [reflexivity|].
  intros Hnd. apply NoDup_cons in Hnd as [Hk' Hnd]. cbn [fst snd].
  fold (flat_writes root files). rewrite IH by assumption.
  unfold pystr_eqb. destruct (decide (k' = k)) as [->|Hne].
  - rewrite bool_decide_eq_true_2 by reflexivity.
    destruct (dict_get k files) as [v'|] eqn:E.
    + exfalso. apply Hk'. apply dict_get_In in E. apply list_elem_of_In.
      apply in_map_iff. now exists (k, v').
    + now rewrite decide_True.
  - rewrite bool_decide_eq_false_2 by assumption.
    destruct (dict_get k files); [reflexivity|].
    rewrite decide_False; [reflexivity|]. intros E. apply app_inv_head in E.
    now inversion E.
Qed.

Lemma replay_flat_other (root : path) (files : dict) (t : gmap path node)
    (q : path) :
  (forall k, In k (map fst files) -> q <> root ++ [k]) ->
  replay (flat_writes root files) t !! q = t !! q.
Proof.
  intros Hq. rewrite replay_lookup.
  replace (last_write (flat_writes root files) q) with (@None pystr); [reflexivity|].
  symmetry. apply last_write_None. intros d Hin.
  unfold flat_writes in Hin. apply in_map_iff in Hin as ([k v] & E & Hin).
  cbn [fst snd] in E. inversion E; subst q d. apply (Hq k); [|reflexivity].
  apply in_map_iff. now exists (k, v).
Qed.

Lemma main_from_reply_flat content files warned w :
  parse_response content = Ok (files, warned) ->
  (forall f c, In (f, c) files -> flat_name f) ->
  tree w !! cwd w = Some Dir ->
  (forall f c, In (f, c) files -> tree w !! (cwd w ++ [f]) <> Some Dir) ->
  main_from_reply content w =
    (set_tree (replay (flat_writes (cwd w) files) (tree w)) w,
     [Parsing] ++ map Told warned ++ [FilesFound (map fst files); Writing]
     ++ map (fun e => Told (Written e.1 (length e.2))) files
     ++ [Done (length files) (join (py ", ") (map fst files))],
     Ok tt).
Proof.
  intros Hp Hflat Hcwd Hnd. unfold main_from_reply, write_files.
  rewrite Hp, (write_loop_flat files [] [] w Hflat Hcwd Hnd).
  cbn [app]. rewrite length_map, map_map, <- !app_assoc. reflexivity.
Qed.

(** X17. A reply without [===] and without three backquotes in a row, that
    UTF-8 encodes, in a working directory that exists and has no directory
    named [index.html]: [main] prints the warning, writes the whole reply to
    [index.html] and reports one file; nothing else changes.  (In the file
    system of the model: no links, permissions or quotas.) *)
Theorem plain_reply_becomes_index_html (content : pystr) (w : world) :
  no_triple content = true -> no_fence content = true ->
  encodable content = true ->
  tree w !! cwd w = Some Dir ->
  tree w !! (cwd w ++ [py "index.html"]) <> Some Dir ->
  main_from_reply content w =
    (set_tree (<[cwd w ++ [py "index.html"] := File content]> (tree w)) w,
     [Parsing; Told WarnUnparsed; FilesFound [py "index.html"]; Writing;
      Told (Written (py "index.html") (length content));
      Done 1 (py "index.html")],
     Ok tt).
Proof.
  intros Hnt Hnf _ Hcwd Hnd.
  rewrite (main_from_reply_flat content [(py "index.html", content)]
             [WarnUnparsed] w).
  - reflexivity.
  - now apply parse_plain.
  - intros f c [E|[]]. inversion E; subst. split; [|reflexivity].
    repeat split; try discriminate. vm_compute. intuition discriminate.
  - assumption.
  - intros f c [E|[]]. now inversion E; subst.
Qed.

Lemma plain_reply_becomes_index_html_witness :
  main_from_reply plain_text site =
    (set_tree (<[cwd site ++ [py "index.html"] := File plain_text]> (tree site))
              site,
     [Parsing; Told WarnUnparsed; FilesFound [py "index.html"]; Writing;
      Told (Written (py "index.html") (length plain_text));
      Done 1 (py "index.html")],
     Ok tt).
Proof.
  apply (plain_reply_becomes_index_html plain_text site).
  - reflexivity.
  - reflexivity.
  - reflexivity.
  - reflexivity.
  - vm_compute. discriminate.
Defined.

(** X18. A reply in the primary format that UTF-8 encodes, whose names
    have one component, pass the path check and are names the system takes
    (no NUL character, at most 255 bytes), in a working directory that
    exists and has no directory under one of the names: [main] writes every
    entry of the mapping and ends without an exception; each file holds the
    content the mapping has for its name, which for a name that comes again
    is the last one; one Written line is printed per entry and the summary
    counts the entries; no other place of the file system changes.  (In
    the file system of the model: no links, permissions or quotas.) *)
Theorem flat_sections_are_delivered (pre : pystr) (secs : list sect) (w : world) :
  no_triple pre = true -> forallb well_formed secs = true ->
  foldl keep [] secs <> [] ->
  Forall (fun s => flat_name (s_name s)) secs ->
  Forall (fun s => accepted (s_name s) = true) secs ->
  encodable (pre ++ flat_map render secs) = true ->
  tree w !! cwd w = Some Dir ->
  Forall (fun s => tree w !! (cwd w ++ [s_name s]) <> Some Dir) secs ->
  exists w',
    main_from_reply (pre ++ flat_map render secs) w =
      (w',
       [Parsing; FilesFound (map fst (foldl keep [] secs)); Writing]
       ++ map (fun e => Told (Written e.1 (length e.2))) (foldl keep [] secs)
       ++ [Done (length (foldl keep [] secs))
                (join (py ", ") (map fst (foldl keep [] secs)))],
       Ok tt) /\
    cwd w' = cwd w /\
    (forall k v, dict_get k (foldl keep [] secs) = Some v ->
       tree w' !! (cwd w ++ [k]) = Some (File v)) /\
    (forall q, (forall s, In s secs -> q <> cwd w ++ [s_name s]) ->
       tree w' !! q = tree w !! q).
Proof.
  intros Hpre Hwf Hne Hflat _ _ Hcwd Hnd.
  assert (Hkeys : forall f c, In (f, c) (foldl keep [] secs) ->
            exists s, In s secs /\ f = s_name s).
  { intros f c Hin. now apply foldl_keep_names in Hin as [[]|H]. }
  rewrite Forall_forall in Hflat, Hnd.
  eexists. split; [|split; [|split]].
  - rewrite (main_from_reply_flat _ (foldl keep [] secs) [] w).
    + reflexivity.
    + now apply parse_response_rendered.
    + intros f c Hin. apply Hkeys in Hin as (s & Hs & ->).
      apply Hflat. now apply list_elem_of_In.
    + assumption.
    + intros f c Hin. apply Hkeys in Hin as (s & Hs & ->).
      apply Hnd. now apply list_elem_of_In.
  - reflexivity.
  - intros k v Hget. cbn [set_tree tree]. rewrite replay_lookup.
    rewrite last_write_flat by (apply foldl_keep_NoDup, NoDup_nil_2).
    now rewrite Hget.
  - intros q Hq. cbn [set_tree tree]. apply replay_flat_other.
    intros k Hk. apply in_map_iff in Hk as ([k' v] & E & Hin).
    cbn [fst] in E. subst k'. apply Hkeys in Hin as (s & Hs & ->). now apply Hq.
Qed.

Lemma flat_sections_are_delivered_witness :
  exists w',
    main_from_reply ([] ++ flat_map render two_sections) site =
      (w',
       [Parsing; FilesFound (map fst (foldl keep [] two_sections)); Writing]
       ++ map (fun e => Told (Written e.1 (length e.2)))
              (foldl keep [] two_sections)
       ++ [Done (length (foldl keep [] two_sections))
                (join (py ", ") (map fst (foldl keep [] two_sections)))],
       Ok tt) /\
    cwd w' = cwd site /\
    (forall k v, dict_get k (foldl keep [] two_sections) = Some v ->
       tree w' !! (cwd site ++ [k]) = Some (File v)) /\
    (forall q, (forall s, In s two_sections -> q <> cwd site ++ [s_name s]) ->
       tree w' !! q = tree site !! q).
Proof.
  apply (flat_sections_are_delivered [] two_sections site).
  - reflexivity.
  - reflexivity.
  - vm_compute. discriminate.
  - repeat constructor; try discriminate; vm_compute; intuition discriminate.
  - repeat constructor.
  - reflexivity.
  - reflexivity.
  - repeat constructor; vm_compute; discriminate.
Defined.

(** ** Writing: what a failure leaves behind *)

Lemma directory_stage_adds f w w2 e :
  (if is_empty (dirname (normpath f)) then (w, None)
   else makedirs (dirname (normpath f)) w) = (w2, e) ->
  cwd w2 = cwd w /\
  (forall q n, tree w !! q = Some n -> tree w2 !! q = Some n) /\
  (forall q, tree w !! q = None ->
     tree w2 !! q = None \/ tree w2 !! q = Some Dir).
Proof.
  destruct (is_empty (dirname (normpath f))).
  - intros H. inversion H; subst. repeat split; auto.
  - unfold makedirs.
    destruct (mkdirs [] (resolve (cwd w) (dirname (normpath f))) (tree w))
      as [t e'] eqn:Hm.
    intros H. inversion H; subst. cbn [set_tree cwd tree]. repeat split.
    + intros q n. eapply mkdirs_preserves; eassumption.
    + intros q. eapply mkdirs_adds_dirs; eassumption.
Qed.

(** C3 (amended). An exception of [os.makedirs] or [open] is not swallowed:
    it leaves [write_files].  It also ends the loop: the failing entry
    prints nothing, the lines printed before it stay, and no entry after it
    is attempted, whatever it is.  The file system is as the entries before
    left it, but for the directories that [os.makedirs] made before it
    failed: every node is still there, unchanged, and what is new is a
    directory. *)
Theorem write_files_stops_at_first_failure
    (pre post : dict) (filename content : pystr)
    (w w1 w2 : world) (out1 : list event) (written : list pystr) (e : exn) :
  write_files pre w = (w1, out1, Ok written) ->
  startswith (normpath filename) (py "..") = false ->
  (if is_empty (dirname (normpath filename)) then (w1, None)
   else makedirs (dirname (normpath filename)) w1) = (w2, Some e)
  \/
  ((if is_empty (dirname (normpath filename)) then (w1, None)
    else makedirs (dirname (normpath filename)) w1) = (w2, None) /\
   open_write (normpath filename) content w2 = Raise e) ->
  write_files (pre ++ (filename, content) :: post) w = (w2, out1, Raise e) /\
  cwd w2 = cwd w1 /\
  (forall q n, tree w1 !! q = Some n -> tree w2 !! q = Some n) /\
  (forall q, tree w1 !! q = None ->
     tree w2 !! q = None \/ tree w2 !! q = Some Dir).
Proof.
  intros Hpre Hsafe Hfail.
  assert (Hstage : exists e1,
            (if is_empty (dirname (normpath filename)) then (w1, None)
             else makedirs (dirname (normpath filename)) w1) = (w2, e1))
    by (destruct Hfail as [H|[H _]]; eauto).
  destruct Hstage as (e1 & Hstage).
  split; [|now apply (directory_stage_adds filename w1 w2 e1)].
  assert (Hentry : write_entry filename content w1 = (w2, [], Raise e)).
  { unfold write_entry. rewrite Hsafe.
    destruct Hfail as [H|[H Ho]]; rewrite H; [reflexivity|now rewrite Ho]. }
  unfold write_files in *. rewrite write_loop_app, Hpre. cbn [write_loop].
  rewrite Hentry. now rewrite app_nil_r.
Qed.

Lemma write_files_stops_at_first_failure_witness :
  write_files ([(py "a", py "x")] ++ (py "a/b", py "y") :: [(py "c", py "z")])
              site
  = (set_tree (<[ cwd site ++ [py "a"] := File (py "x") ]> (tree site)) site,
     [Written (py "a") 1], Raise FileExistsError) /\
  tree (set_tree (<[ cwd site ++ [py "a"] := File (py "x") ]> (tree site)) site)
    !! (cwd site ++ [py "a"]) = Some (File (py "x")).
Proof.
  pose proof (write_files_stops_at_first_failure
                [(py "a", py "x")] [(py "c", py "z")] (py "a/b") (py "y")
                site
                (set_tree (<[ cwd site ++ [py "a"] := File (py "x") ]> (tree site))
                          site)
                (set_tree (<[ cwd site ++ [py "a"] := File (py "x") ]> (tree site))
                          site)
                [Written (py "a") 1] [py "a"] FileExistsError
                eq_refl eq_refl (or_introl eq_refl)) as (H & _ & Hkeep & _).
  split; [exact H|]. apply Hkeep. reflexivity.
Defined.

(** ** Fence stripping *)






